(** * LiveScotlandYard: board-image fusion and node-overlay scripts

    A shallow embedding of [scripts/combine_board_images.py] and
    [scripts/render_node_overlay.py].

    - Python [float] values are IEEE binary64 numbers: they are modelled by
      Rocq's primitive [float] and its operations.
    - numpy [float32] values are IEEE binary32 numbers: they are modelled by
      [spec_float] with precision 24 and maximal exponent 128.
    - A raised exception is the left injection of a result; the calls into
      OpenCV are parameters of the functions that make them, and nothing
      is assumed about the values they return. *)

From Stdlib Require Import ZArith String Bool Lia Floats.
From Stdlib.Strings Require Import Byte.
From Stdlib Require Import List Sorted Permutation.
From Stdlib Require DecimalString.
Import ListNotations.

Set Warnings "-register-all,-inexact-float".

(** ** Python exceptions and results *)

Module Py.

Inductive exn : Type :=
| ValueError (msg : string)
| ZeroDivisionError (msg : string)
| OverflowError (msg : string)
| IndexError (msg : string)
| RuntimeError (msg : string).

Definition result (A : Type) : Type := (exn + A)%type.

Definition ret {A : Type} (a : A) : result A := inr a.

Definition raise {A : Type} (e : exn) : result A := inl e.

Definition bind {A B : Type} (c : result A) (k : A -> result B) : result B :=
  match c with
  | inl e => inl e
  | inr a => k a
  end.

Definition is_ValueError {A : Type} (r : result A) : bool :=
  match r with
  | inl (ValueError _) => true
  | _ => false
  end.

Definition returns {A : Type} (r : result A) : bool :=
  match r with
  | inr _ => true
  | inl _ => false
  end.

End Py.

Import Py.

Notation "x <- c ;; k" := (bind c (fun x => k))
  (at level 61, c at next level, right associativity).

(** ** render_node_overlay.py *)

Module NodeOverlay.

Local Open Scope float_scope.

(** A decoded JSON value: the [edges] of a node are kept as they were read. *)
Inductive json : Type :=
| JNull
| JBool (b : bool)
| JInt (z : Z)
| JFloat (f : float)
| JString (s : string)
| JArray (items : list json)
| JObject (fields : list (string * json)).

(** A list of JSON values, where a JSON value is expected, is the array of
    its items. *)
#[warnings="-uniform-inheritance"] Coercion JArray : list >-> json.

(** The dataclass [Node]. The field [edges] holds the value of the file as it
    was read: nothing checks that it is a list. *)
Record Node : Type := mkNode {
  node_id : Z;
  x : float;
  y : float;
  edges : json
}.

(** [float(n)] for a Python int: the nearest binary64 number, and
    [OverflowError] when there is none. *)
Definition float_of_int (n : Z) : result float :=
  let f := SF2Prim (binary_normalize prec emax n 0 false) in
  if is_infinity f
  then raise (OverflowError "int too large to convert to float")
  else ret f.

(** [a / b] on Python floats. *)
Definition py_div (a b : float) : result float :=
  if b =? 0 then raise (ZeroDivisionError "float division by zero")
  else ret (a / b).

(** The builtin [min(a, b)]: the first of the smallest. *)
Definition py_min (a b : float) : float := if b <? a then b else a.

(** numpy's [minimum] and [maximum] on two float64 scalars: a NaN wins. *)
Definition np_minimum (a b : float) : float :=
  if (a <=? b) || is_nan a then a else b.

Definition np_maximum (a b : float) : float :=
  if (b <=? a) || is_nan a then a else b.

(** [arr.min()] and [arr.max()] of a one-dimensional float64 array. *)
Definition np_min (arr : list float) : result float :=
  match arr with
  | [] => raise (ValueError
      "zero-size array to reduction operation minimum which has no identity")
  | v :: rest => ret (fold_left np_minimum rest v)
  end.

Definition np_max (arr : list float) : result float :=
  match arr with
  | [] => raise (ValueError
      "zero-size array to reduction operation maximum which has no identity")
  | v :: rest => ret (fold_left np_maximum rest v)
  end.

Definition transform : Type := (float * float * float * float)%type.

(** [usable = size - 2 * margin], with [size] an int and [margin] a float. *)
Definition usable (size : Z) (margin : float) : result float :=
  fsize <- float_of_int size ;;
  ret (fsize - 2 * margin).

Definition compute_transform (nodes : list Node) (width height : Z)
    (margin : float) (mode : string) : result transform :=
  let xs := map x nodes in
  let ys := map y nodes in
  min_x <- np_min xs ;;
  max_x <- np_max xs ;;
  min_y <- np_min ys ;;
  max_y <- np_max ys ;;
  let src_width := max_x - min_x in
  let src_height := max_y - min_y in
  usable_w <- usable width margin ;;
  usable_h <- usable height margin ;;
  if (usable_w <=? 0) || (usable_h <=? 0)
  then raise (ValueError "Margin is too large for the given image dimensions")
  else if String.eqb mode "raw" then ret (1, 1, 0, 0)
  else if String.eqb mode "stretch" then
    scale_x <- py_div usable_w src_width ;;
    scale_y <- py_div usable_h src_height ;;
    let offset_x := margin - scale_x * min_x in
    let offset_y := margin - scale_y * min_y in
    ret (scale_x, scale_y, offset_x, offset_y)
  else
    fit_w <- py_div usable_w src_width ;;
    fit_h <- py_div usable_h src_height ;;
    let uniform_scale := py_min fit_w fit_h in
    fwidth <- float_of_int width ;;
    fheight <- float_of_int height ;;
    let offset_x :=
      (fwidth - uniform_scale * src_width) / 2 - uniform_scale * min_x in
    let offset_y :=
      (fheight - uniform_scale * src_height) / 2 - uniform_scale * min_y in
    ret (uniform_scale, uniform_scale, offset_x, offset_y).

Definition transform_node (scale_x scale_y offset_x offset_y : float)
    (node : Node) : Node :=
  {| node_id := node_id node;
     x := x node * scale_x + offset_x;
     y := y node * scale_y + offset_y;
     edges := edges node |}.

Definition transform_nodes (nodes : list Node)
    (scale_x scale_y offset_x offset_y : float) : list Node :=
  map (transform_node scale_x scale_y offset_x offset_y) nodes.

End NodeOverlay.

(** ** numpy float32 arithmetic *)

Module F32.

Definition prec : Z := 24.
Definition emax : Z := 128.

Definition add : spec_float -> spec_float -> spec_float := SFadd prec emax.
Definition sub : spec_float -> spec_float -> spec_float := SFsub prec emax.
Definition mul : spec_float -> spec_float -> spec_float := SFmul prec emax.
Definition div : spec_float -> spec_float -> spec_float := SFdiv prec emax.

Definition leb : spec_float -> spec_float -> bool := SFleb.
Definition ltb : spec_float -> spec_float -> bool := SFltb.
Definition eqb : spec_float -> spec_float -> bool := SFeqb.

(** The float32 nearest to an integer. *)
Definition of_Z (n : Z) : spec_float := binary_normalize prec emax n 0 false.

(** [arr.astype(np.float32)] on a uint8 value. *)
Definition of_uint8 (b : byte) : spec_float := of_Z (Z.of_N (Byte.to_N b)).

(** A Python float that meets a float32 array is rounded to float32. *)
Definition of_float (v : float) : spec_float :=
  match Prim2SF v with
  | S754_finite s m e => binary_normalize prec emax (cond_Zopp s (Zpos m)) e s
  | other => other
  end.

(** The integer part of a float32, rounding toward zero. *)
Definition trunc (v : spec_float) : Z :=
  match v with
  | S754_finite s m e =>
      cond_Zopp s (if (0 <=? e)%Z then Zpos m * 2 ^ e else Zpos m / 2 ^ (- e))%Z
  | _ => 0%Z
  end.

Definition uint8_of_Z (n : Z) : byte :=
  match Byte.of_N (Z.to_N (n mod 256)) with
  | Some b => b
  | None => x00
  end.

(** [arr.astype(np.uint8)] on a float32 value: the C conversion truncates
    toward zero; a value outside the range of uint8 is reduced modulo 256
    and a NaN or an infinity gives 0. *)
Definition to_uint8 (v : spec_float) : byte := uint8_of_Z (trunc v).

End F32.

(** ** combine_board_images.py: images and the calls into OpenCV *)

Module Fusion.

(** A binary32 number, as numpy's [float32] and OpenCV's [CV_32F]. *)
Abbreviation f32 := spec_float (only parsing).

(** An image is an array of shape (height, width, 3) of uint8 values, in
    blue, green, red order; a grey image and a float32 map have one channel. *)
Abbreviation pixel := (byte * byte * byte)%type (only parsing).
Abbreviation image := (list (list (byte * byte * byte))) (only parsing).
Abbreviation gray_image := (list (list byte)) (only parsing).
Abbreviation fmap := (list (list spec_float)) (only parsing).

(** [img.shape[0]] and [img.shape[1]]. *)
Definition shape0 {A : Type} (img : list (list A)) : Z := Z.of_nat (length img).

Definition shape1 {A : Type} (img : list (list A)) : Z :=
  match img with
  | [] => 0
  | row :: _ => Z.of_nat (length row)
  end.

(** [cv2.KeyPoint]: only its location [pt] (a [Point2f]) is read. *)
Definition point : Type := (f32 * f32)%type.

Record KeyPoint : Type := mkKeyPoint {
  pt : point
}.

(** The descriptors of ORB: one row of 32 bytes per key point. *)
Definition descriptors : Type := list (list byte).

(** [cv2.DMatch]. With [NORM_HAMMING] the distance of a match is the number
    of descriptor bits that differ, a natural number. *)
Record DMatch : Type := mkDMatch {
  queryIdx : nat;
  trainIdx : nat;
  distance : N
}.

Definition homography : Type := list (list float).

Inductive norm_type : Type := NORM_L2 | NORM_HAMMING.

Inductive homography_method : Type := LEAST_SQUARES | RANSAC | LMEDS | RHO.

(** The OpenCV routines the script calls. [detectAndCompute] returns the key
    points and the descriptors, [None] when there are none; [findHomography]
    returns the matrix, [None] when the estimation fails. *)
Record OpenCV : Type := mkOpenCV {
  cvtColor_BGR2GRAY : image -> gray_image;
  ORB_detectAndCompute :
    forall (nfeatures : Z) (img : gray_image), list KeyPoint * option descriptors;
  BFMatcher_match :
    forall (normType : norm_type) (crossCheck : bool) (des1 des2 : descriptors),
      list DMatch;
  findHomography :
    forall (srcPoints dstPoints : list point) (method : homography_method)
      (ransacReprojThreshold : float), option homography;
  warpPerspective :
    forall (src : image) (M : homography) (dsize : Z * Z), image;
  Laplacian_32F : fmap -> fmap;
  GaussianBlur : forall (src : fmap) (sigmaX : float), fmap;
  normalize_MINMAX : forall (src : fmap) (alpha beta : float), fmap
}.

(** [sorted(matches, key=lambda m: m.distance)]: the stable sort. *)
Fixpoint insert_by_distance (m : DMatch) (l : list DMatch) : list DMatch :=
  match l with
  | [] => [m]
  | h :: t =>
      if (distance h <? distance m)%N then h :: insert_by_distance m t
      else m :: h :: t
  end.

Definition sorted_by_distance (l : list DMatch) : list DMatch :=
  fold_right insert_by_distance [] l.

(** [seq[i]] for a Python sequence and a non-negative index. *)
Definition getitem {A : Type} (seq : list A) (i : nat) : result A :=
  match nth_error seq i with
  | Some a => ret a
  | None => raise (IndexError "tuple index out of range")
  end.

(** [[f(m) for m in matches]] where [f] may raise. *)
Fixpoint comprehension {A B : Type} (f : A -> result B) (l : list A)
    : result (list B) :=
  match l with
  | [] => ret []
  | a :: l' => b <- f a ;; bs <- comprehension f l' ;; ret (b :: bs)
  end.

(** Lines 93 to 102 of [align_secondary]: the matches that are kept, the
    point lists, the homography and the warp. *)
Definition estimate_and_warp (cv : OpenCV) (primary secondary : image)
    (kp1 kp2 : list KeyPoint) (all_matches : list DMatch)
    : result (image * homography) :=
  let matches := firstn 300 (sorted_by_distance all_matches) in
  src_pts <- comprehension (fun m => k <- getitem kp1 (queryIdx m) ;; ret (pt k))
               matches ;;
  dst_pts <- comprehension (fun m => k <- getitem kp2 (trainIdx m) ;; ret (pt k))
               matches ;;
  match findHomography cv dst_pts src_pts RANSAC 5%float with
  | None => raise (RuntimeError "Could not compute homography")
  | Some H =>
      ret (warpPerspective cv secondary H (shape1 primary, shape0 primary), H)
  end.

Definition align_secondary (cv : OpenCV) (primary secondary : image)
    : result (image * homography) :=
  let primary_gray := cvtColor_BGR2GRAY cv primary in
  let secondary_gray := cvtColor_BGR2GRAY cv secondary in
  let '(kp1, des1) := ORB_detectAndCompute cv 5000 primary_gray in
  let '(kp2, des2) := ORB_detectAndCompute cv 5000 secondary_gray in
  match des1, des2 with
  | Some des1, Some des2 =>
      let matches := BFMatcher_match cv NORM_HAMMING true des1 des2 in
      if (length matches <? 12)%nat
      then raise (RuntimeError "Not enough feature matches to compute homography")
      else estimate_and_warp cv primary secondary kp1 kp2 matches
  | _, _ => raise (RuntimeError "Failed to compute ORB descriptors for alignment")
  end.

(** numpy broadcasting along one axis: the lengths agree, or one of them is 1. *)
Fixpoint zip_with {A B C : Type} (f : A -> B -> result C) (a : list A) (b : list B)
    : result (list C) :=
  match a, b with
  | x :: a', y :: b' => z <- f x y ;; zs <- zip_with f a' b' ;; ret (z :: zs)
  | _, _ => ret []
  end.

Definition broadcast {A B C : Type} (f : A -> B -> result C)
    (a : list A) (b : list B) : result (list C) :=
  if (length a =? length b)%nat then zip_with f a b
  else match a, b with
       | [x], _ => comprehension (f x) b
       | _, [y] => comprehension (fun x => f x y) a
       | _, _ => raise (ValueError "operands could not be broadcast together")
       end.

(** An elementwise operation on two arrays of two axes. *)
Definition elementwise {A B C : Type} (f : A -> B -> C)
    (a : list (list A)) (b : list (list B)) : result (list (list C)) :=
  broadcast (broadcast (fun x y => ret (f x y))) a b.

Definition map2d {A B : Type} (f : A -> B) (a : list (list A)) : list (list B) :=
  map (map f) a.

Definition laplacian_sharpness (cv : OpenCV) (img : image) (sigma : float) : fmap :=
  let gray := cvtColor_BGR2GRAY cv img in
  let gray := map2d (fun g => F32.div (F32.of_uint8 g) (F32.of_float 255)) gray in
  let lap := Laplacian_32F cv gray in
  let sharpness := GaussianBlur cv (map2d (fun v => F32.mul v v) lap) sigma in
  let sharpness := normalize_MINMAX cv sharpness 0 1 in
  map2d (fun v => F32.add v (F32.of_float 1e-6)) sharpness.

(** [pixels * weight[..., None]]: one weight for the three channels. *)
Definition scale_pixel (p : pixel) (w : f32) : f32 * f32 * f32 :=
  let '(b, g, r) := p in
  (F32.mul (F32.of_uint8 b) w, F32.mul (F32.of_uint8 g) w, F32.mul (F32.of_uint8 r) w).

Definition add_pixel (p q : f32 * f32 * f32) : f32 * f32 * f32 :=
  let '(b1, g1, r1) := p in
  let '(b2, g2, r2) := q in
  (F32.add b1 b2, F32.add g1 g2, F32.add r1 r2).

Definition pixel_to_uint8 (p : f32 * f32 * f32) : pixel :=
  let '(b, g, r) := p in (F32.to_uint8 b, F32.to_uint8 g, F32.to_uint8 r).

(** Lines 142 to 146: the two weight maps. *)
Definition blend_weights (cv : OpenCV) (primary secondary : image)
    : result (fmap * fmap) :=
  let sharp_primary := laplacian_sharpness cv primary 1.5 in
  let sharp_secondary := laplacian_sharpness cv secondary 1.5 in
  total <- elementwise F32.add sharp_primary sharp_secondary ;;
  weight_primary <- elementwise F32.div sharp_primary total ;;
  let weight_secondary := map2d (fun w => F32.sub (F32.of_float 1) w) weight_primary in
  ret (weight_primary, weight_secondary).

Definition blend_images (cv : OpenCV) (primary secondary : image) : result image :=
  weights <- blend_weights cv primary secondary ;;
  let '(weight_primary, weight_secondary) := weights in
  part_primary <- elementwise scale_pixel primary weight_primary ;;
  part_secondary <- elementwise scale_pixel secondary weight_secondary ;;
  blended <- elementwise add_pixel part_primary part_secondary ;;
  ret (map2d pixel_to_uint8 blended).

End Fusion.

(** ** Stand-ins for OpenCV *)

Module Demo.

Import Fusion.

(** On an image of one colour the Laplacian vanishes, so the normalised map
    is zero everywhere; twelve key points are matched one to one. *)
Definition demo_keypoints : list KeyPoint :=
  map (fun i => mkKeyPoint (F32.of_Z (Z.of_nat i), F32.of_Z (Z.of_nat (2 * i))))
      (seq 0 12).

Definition demo_matches : list DMatch :=
  map (fun i => mkDMatch i i (N.of_nat (12 - i))) (seq 0 12).

Definition demo_cv : OpenCV :=
  {| cvtColor_BGR2GRAY := map2d (fun p => snd (fst p));
     ORB_detectAndCompute := fun _ _ => (demo_keypoints, Some [[x00]]);
     BFMatcher_match := fun _ _ _ _ => demo_matches;
     findHomography := fun _ _ _ _ =>
       Some [[1; 0; 0]; [0; 1; 0]; [0; 0; 1]]%float;
     warpPerspective := fun src _ _ => src;
     Laplacian_32F := map2d (fun _ => S754_zero false);
     GaussianBlur := fun src _ => src;
     normalize_MINMAX := fun src _ _ => map2d (fun _ => S754_zero false) src |}.

(** A stand-in whose detector finds nothing, as on an image of one colour. *)
Definition featureless_cv : OpenCV :=
  {| cvtColor_BGR2GRAY := cvtColor_BGR2GRAY demo_cv;
     ORB_detectAndCompute := fun _ _ => ([], None);
     BFMatcher_match := BFMatcher_match demo_cv;
     findHomography := findHomography demo_cv;
     warpPerspective := warpPerspective demo_cv;
     Laplacian_32F := Laplacian_32F demo_cv;
     GaussianBlur := GaussianBlur demo_cv;
     normalize_MINMAX := normalize_MINMAX demo_cv |}.

Definition f32_min (a b : f32) : f32 := if F32.leb a b then a else b.

Definition f32_max (a b : f32) : f32 := if F32.leb b a then a else b.

(** The linear rescaling of a map to [0, 1] by its least and its greatest
    value, in float32; a map of one value goes to 0. *)
Definition rescale (m : fmap) : fmap :=
  match concat m with
  | [] => m
  | v :: rest =>
      let lo := fold_left f32_min rest v in
      let hi := fold_left f32_max rest v in
      let span := F32.sub hi lo in
      map2d (fun a =>
               if F32.eqb span (S754_zero false) then S754_zero false
               else F32.div (F32.sub a lo) span) m
  end.

(** A stand-in whose maps vary: the grey level is the green channel, the
    Laplacian and the blur leave a map as it is, and NORM_MINMAX rescales
    exactly, so the least value of a map goes to 0 and the greatest to 1. *)
Definition sample_cv : OpenCV :=
  {| cvtColor_BGR2GRAY := cvtColor_BGR2GRAY demo_cv;
     ORB_detectAndCompute := ORB_detectAndCompute demo_cv;
     BFMatcher_match := BFMatcher_match demo_cv;
     findHomography := findHomography demo_cv;
     warpPerspective := warpPerspective demo_cv;
     Laplacian_32F := fun m => m;
     GaussianBlur := fun src _ => src;
     normalize_MINMAX := fun src _ _ => rescale src |}.

(** A stand-in whose NORM_MINMAX output is lower than the exact rescaling by
    [skew], and so leaves [0, 1], as the float32 arithmetic of
    [cv2.normalize] makes it do on a map whose values are nearly equal. *)
Definition skewed_cv (skew : f32) : OpenCV :=
  {| cvtColor_BGR2GRAY := cvtColor_BGR2GRAY demo_cv;
     ORB_detectAndCompute := ORB_detectAndCompute demo_cv;
     BFMatcher_match := BFMatcher_match demo_cv;
     findHomography := findHomography demo_cv;
     warpPerspective := warpPerspective demo_cv;
     Laplacian_32F := fun m => m;
     GaussianBlur := fun src _ => src;
     normalize_MINMAX := fun src _ _ => map2d (fun v => F32.sub v skew) (rescale src) |}.

End Demo.

(** * Definitions used by the statements *)

(** ** The node overlay *)

Module NodeOverlaySpec.

Import Py NodeOverlay.
Local Open Scope string_scope.
Local Open Scope float_scope.

(** [src_width] and [src_height]: the extent of the coordinates on one axis. *)
Definition span (arr : list float) : result float :=
  lo <- np_min arr ;;
  hi <- np_max arr ;;
  ret (hi - lo).

(** The error of line 116. *)
Definition margin_error : exn :=
  ValueError "Margin is too large for the given image dimensions".

(** The test of line 115. *)
Definition degenerate (usable_w usable_h : float) : bool :=
  (usable_w <=? 0) || (usable_h <=? 0).

(** The transform of line 119. *)
Definition identity_transform : transform := (1, 1, 0, 0).

End NodeOverlaySpec.

(** ** The feature aligner *)

Module AlignSpec.

Import Py Fusion.
Local Open Scope string_scope.

(** The error the aligner raises for too few matches. *)
Definition InsufficientMatchesError : exn :=
  RuntimeError "Not enough feature matches to compute homography"%string.

(** The error of line 86, when the detector returns no descriptors. *)
Definition InsufficientFeaturesError : exn :=
  RuntimeError "Failed to compute ORB descriptors for alignment"%string.

(** The error of an index out of the range of a key point list. *)
Definition KeyPointIndexError : exn := IndexError "tuple index out of range"%string.

(** The descriptors [des] of [kp, des = orb.detectAndCompute(gray, None)]. *)
Definition descriptors_of (cv : OpenCV) (img : image) : option descriptors :=
  snd (ORB_detectAndCompute cv 5000 (cvtColor_BGR2GRAY cv img)).

Definition keypoints_of (cv : OpenCV) (img : image) : list KeyPoint :=
  fst (ORB_detectAndCompute cv 5000 (cvtColor_BGR2GRAY cv img)).

(** An image of one colour, 64 by 64 pixels. *)
Definition blank_image : image := repeat (repeat (x80, x80, x80) 64) 64.

(** The error of line 99. *)
Definition HomographyError : exn := RuntimeError "Could not compute homography"%string.

(** Ascending distance. *)
Definition distance_le (a b : DMatch) : Prop := (distance a <= distance b)%N.

(** The default of [nth]; it is never read when the indices are in range. *)
Definition origin : KeyPoint := mkKeyPoint (S754_zero false, S754_zero false).

(** The points [[kp[idx(m)].pt for m in matches]] when every index is in range. *)
Definition points_at (kp : list KeyPoint) (idx : DMatch -> nat)
    (matches : list DMatch) : list point :=
  map (fun m => pt (nth (idx m) kp origin)) matches.

End AlignSpec.

(** ** binary32 rounding, on values counted in units of 2^-149 *)

Module F32Spec.

Local Open Scope Z_scope.

(** The number of binary digits of an integer. *)
Definition digits (n : Z) : Z := Zdigits2 n.

(** The exponent of the last digit kept for a number of magnitude [e]:
    24 digits, and never below 2^-149. *)
Definition fexp32 (e : Z) : Z := fexp F32.prec F32.emax e.

(** The record that stands for the rational [N / D]: its integer part, and
    the position of its fractional part with respect to one half. *)
Definition rec_of (N D : Z) : shr_record :=
  {| shr_m := N / D;
     shr_r := D <=? 2 * (N mod D);
     shr_s := negb (N mod D =? 0) && negb (2 * (N mod D) =? D) |}.

(** The integer nearest to the rational [N / D], ties to even. *)
Definition RNE (N D : Z) : Z :=
  let q := N / D in
  let r := N mod D in
  if 2 * r <? D then q
  else if D <? 2 * r then q + 1
  else if Z.even q then q else q + 1.

(** The last step of [binary_round_aux]: zero, a finite number, or an
    infinity on overflow. *)
Definition finish (sx : bool) (m e : Z) : spec_float :=
  match m with
  | Z0 => S754_zero sx
  | Zpos p => if e <=? 104 then S754_finite sx p e else S754_infinity sx
  | Zneg _ => S754_nan
  end.

(** The number of digits [shr_fexp] drops from the mantissa [q] at exponent [ex]. *)
Definition round_shift (q ex : Z) : Z := Z.max 0 (fexp32 (digits q + ex) - ex).

(** [binary_round_aux] on the rational mantissa [N / D] at exponent [ex]:
    shift, round to nearest even, shift once more if the rounding carried. *)
Definition round_core (sx : bool) (N D ex : Z) : spec_float :=
  let k1 := round_shift (N / D) ex in
  let m1 := RNE N (D * 2 ^ k1) in
  let e1 := ex + k1 in
  let k2 := round_shift m1 e1 in
  finish sx (m1 / 2 ^ k2) (e1 + k2).

(** The digits dropped when [q] units are rounded to 24 digits. *)
Definition rnd_shift (q : Z) : Z := Z.max (digits q - 24) 0.

(** The binary32 rounding of the rational [N / D] units, in units. *)
Definition rnd (N D : Z) : Z :=
  let k := rnd_shift (N / D) in RNE N (D * 2 ^ k) * 2 ^ k.

(** The value of a non-negative number, in units of 2^-149. *)
Definition B2Z (v : spec_float) : Z :=
  match v with
  | S754_finite false m e => Zpos m * 2 ^ (e + 149)
  | _ => 0
  end.

(** The number that stands for [V] units, when there is one. *)
Definition Z2B (V : Z) : spec_float :=
  let k := rnd_shift V in finish false (V / 2 ^ k) (k - 149).

(** [+0] and the positive finite numbers of the format. *)
Definition nonneg (v : spec_float) : bool :=
  match v with
  | S754_zero false => true
  | S754_finite false m e => bounded F32.prec F32.emax m e
  | _ => false
  end.

(** [V] units is a number of the format. *)
Definition repr (V : Z) : Prop :=
  0 <= V < 2 ^ 277 /\ V mod 2 ^ rnd_shift V = 0.

(** The float32 constants of the sharpness estimator and of the blender. *)
Definition zero : spec_float := S754_zero false.

Definition one : spec_float := F32.of_float 1.

Definition half : spec_float := F32.of_float 0.5.

(** The float32 value of the literal [1e-6] that line 125 adds. *)
Definition eps : spec_float := F32.of_float 1e-6.

Definition one_eps : spec_float := F32.add one eps.

(** The value 1, in units of 2^-149. *)
Definition U : Z := 2 ^ 149.

(** A finite non-negative number that is at most 1. *)
Definition unit_interval (v : spec_float) : bool :=
  SpecFloat.valid_binary F32.prec F32.emax v && F32.leb zero v && F32.leb v one.

(** A positive finite number of the format. *)
Definition pos_finite (v : spec_float) : bool :=
  match v with
  | S754_finite false m e => bounded F32.prec F32.emax m e
  | _ => false
  end.

(** A finite number of the format that is not zero. *)
Definition finite_nonzero (v : spec_float) : bool :=
  match v with
  | S754_finite _ m e => bounded F32.prec F32.emax m e
  | _ => false
  end.

(** A number of the format from 0 up to 256, 256 left out: the values that
    [astype(np.uint8)] stores without reducing them modulo 256. *)
Definition in_uint8_range (v : spec_float) : bool :=
  SpecFloat.valid_binary F32.prec F32.emax v && F32.leb zero v &&
  F32.ltb v (F32.of_float 256).

(** The interval of the sharpness values. *)
Definition in_sharpness_range (v : spec_float) : Prop :=
  nonneg v = true /\ B2Z eps <= B2Z v <= B2Z one_eps.

(** The weights of one pixel, lines 145 and 146:
    [sharp_primary / (sharp_primary + sharp_secondary)] and its complement. *)
Definition weight_primary (sp ss : spec_float) : spec_float :=
  F32.div sp (F32.add sp ss).

Definition weight_secondary (sp ss : spec_float) : spec_float :=
  F32.sub one (weight_primary sp ss).

(** One channel of one pixel, line 150: [p * wp + q * ws] on float32. *)
Definition blend_value (p q : byte) (wp ws : spec_float) : spec_float :=
  F32.add (F32.mul (F32.of_uint8 p) wp) (F32.mul (F32.of_uint8 q) ws).

(** The channel after [astype(np.uint8)], line 151. *)
Definition blend_channel (p q : byte) (wp ws : spec_float) : byte :=
  F32.to_uint8 (blend_value p q wp ws).

(** The integer a uint8 value stands for. *)
Definition uint8_value (b : byte) : Z := Z.of_N (Byte.to_N b).

(** The conversion the specification describes, for comparison with
    [F32.to_uint8]: the nearest integer to a float32, ties to even. *)
Definition rint (v : spec_float) : Z :=
  match v with
  | S754_finite s m e =>
      cond_Zopp s (if 0 <=? e then Zpos m * 2 ^ e else RNE (Zpos m) (2 ^ (- e)))
  | _ => 0
  end.

(** Rounded to the nearest integer and clamped to the range of uint8. *)
Definition round_clamp_uint8 (v : spec_float) : byte :=
  F32.uint8_of_Z (Z.max 0 (Z.min 255 (rint v))).

End F32Spec.

(** ** Arrays, the contract of OpenCV and the blended image *)

Module BlendSpec.

Import Py Fusion F32Spec.

(** Two arrays have the same height and the same width. *)
Definition same_shape {A B : Type} (a : list (list A)) (b : list (list B)) : Prop :=
  Forall2 (fun ra rb => length ra = length rb) a b.

(** The element at row [i] and column [j]. *)
Definition at2 {A : Type} (m : list (list A)) (i j : nat) : option A :=
  match nth_error m i with
  | Some row => nth_error row j
  | None => None
  end.

(** The elementwise combination of two arrays of one axis, and of two axes. *)
Definition map2 {A B C : Type} (f : A -> B -> C) (a : list A) (b : list B) : list C :=
  map (fun xy => f (fst xy) (snd xy)) (combine a b).

Definition zip2d {A B C : Type} (f : A -> B -> C)
    (a : list (list A)) (b : list (list B)) : list (list C) :=
  map2 (map2 f) a b.

(** The combination of two elements that may be absent. *)
Definition lift2 {A B C : Type} (o : option A) (o' : option B) (f : A -> B -> C)
    : option C :=
  match o, o' with
  | Some x, Some y => Some (f x y)
  | _, _ => None
  end.

(** What the script relies on from OpenCV for the shapes: the filters keep
    the shape of their input. Nothing is assumed about the values: the
    output of NORM_MINMAX is computed in float32 and need not lie in
    [0, 1]. *)
Record OpenCV_contract (cv : OpenCV) : Prop := {
  cvtColor_shape : forall img, same_shape (cvtColor_BGR2GRAY cv img) img;
  Laplacian_shape : forall m, same_shape (Laplacian_32F cv m) m;
  GaussianBlur_shape : forall m sigma, same_shape (GaussianBlur cv m sigma) m;
  normalize_shape : forall m a b, same_shape (normalize_MINMAX cv m a b) m
}.

(** The weight maps computed from two sharpness maps. *)
Definition weight_maps (sharp_primary sharp_secondary : fmap) : fmap * fmap :=
  let total := zip2d F32.add sharp_primary sharp_secondary in
  let weight_primary := zip2d F32.div sharp_primary total in
  (weight_primary, map2d (fun w => F32.sub (F32.of_float 1) w) weight_primary).

(** The blended image computed from the inputs and the weight maps. *)
Definition blended (primary secondary : image) (weights : fmap * fmap) : image :=
  map2d pixel_to_uint8
    (zip2d add_pixel (zip2d scale_pixel primary (fst weights))
                     (zip2d scale_pixel secondary (snd weights))).

End BlendSpec.

(** * Further models: the node files, the unsharp mask, the pipeline and the overlay *)

(** ** Definitions used by the further statements about the node overlay *)

Module TransformSpec.

Import Py NodeOverlay.
Local Open Scope float_scope.

(** The error numpy raises for the minimum of an empty array. *)
Definition empty_reduction_error : exn :=
  ValueError "zero-size array to reduction operation minimum which has no identity".

(** The error of a Python float division by zero. *)
Definition division_error : exn := ZeroDivisionError "float division by zero".

(** A float with the sign of a zero dropped: [-0.0] becomes [0.0], every
    other value is kept. *)
Definition drop_zero_sign (v : float) : float := if v =? 0 then 0 else v.

End TransformSpec.

(** ** Definitions used by the statements about the sign of the scale *)

Module Float64Spec.

Local Open Scope Z_scope.

(** The place of a binary64 number on the line of the integers: a finite
    number counted in units of 2^-1074, the infinities beyond every finite
    number. *)
Definition ord (v : spec_float) : Z :=
  match v with
  | S754_zero _ => 0
  | S754_infinity s => cond_Zopp s (2 ^ 2098)
  | S754_nan => 0
  | S754_finite s m e => cond_Zopp s (Zpos m * 2 ^ (e + 1074))
  end.

(** Neither a negative number nor minus infinity (a zero of either sign and
    a NaN are not negative). *)
Definition not_negative (v : spec_float) : bool :=
  match v with
  | S754_finite true _ _ | S754_infinity true => false
  | _ => true
  end.

(** A positive number or plus infinity. *)
Definition positive (v : spec_float) : bool :=
  match v with
  | S754_finite false _ _ | S754_infinity false => true
  | _ => false
  end.

End Float64Spec.

(** ** Python builtins on decoded JSON values *)

Module Builtins.

Import Py NodeOverlay.
Local Open Scope string_scope.

(** The exceptions of the node files: those of [Py], and the ones a decoded
    JSON value of the wrong shape raises. The message of a TypeError depends
    on the version of the interpreter and is left out. *)
Inductive exception : Type :=
| Exn (e : exn)
| TypeError
| KeyError (key : string).

Definition outcome (A : Type) : Type := (exception + A)%type.

Definition done {A : Type} (a : A) : outcome A := inr a.

Definition throw {A : Type} (e : exception) : outcome A := inl e.

Definition and_then {A B : Type} (c : outcome A) (k : A -> outcome B) : outcome B :=
  match c with
  | inl e => inl e
  | inr a => k a
  end.

(** A result of [Py] as an outcome. *)
Definition lift {A : Type} (r : result A) : outcome A :=
  match r with
  | inl e => inl (Exn e)
  | inr a => inr a
  end.

(** [[f(entry) for entry in entries]] where [f] may raise. *)
Fixpoint traverse {A B : Type} (f : A -> outcome B) (l : list A) : outcome (list B) :=
  match l with
  | [] => done []
  | a :: l' =>
      and_then (f a) (fun b => and_then (traverse f l') (fun bs => done (b :: bs)))
  end.

(** The value of a key of a dict. The fields are listed as in the JSON text;
    [json.loads] keeps the last value of a key that is repeated. *)
Fixpoint lookup (key : string) (fields : list (string * json)) : option json :=
  match fields with
  | [] => None
  | (k, v) :: rest =>
      match lookup key rest with
      | Some later => Some later
      | None => if String.eqb k key then Some v else None
      end
  end.

(** [value[key]] for a string key: only a dict has string keys. *)
Definition subscript (value : json) (key : string) : outcome json :=
  match value with
  | JObject fields =>
      match lookup key fields with
      | Some v => done v
      | None => throw (KeyError key)
      end
  | _ => throw TypeError
  end.

(** [for entry in data]: the items of a list, the keys of a dict, the
    characters of a string; the other values are not iterable. *)
Definition iterate (data : json) : outcome (list json) :=
  match data with
  | JArray items => done items
  | JObject fields => done (map (fun kv => JString (fst kv)) fields)
  | JString s => done (map (fun c => JString (String c "")) (list_ascii_of_string s))
  | _ => throw TypeError
  end.

(** The integer part of a binary64 number, toward zero. *)
Definition integer_part (v : spec_float) : Z :=
  match v with
  | S754_finite s m e =>
      cond_Zopp s (if (0 <=? e)%Z then Zpos m * 2 ^ e else Zpos m / 2 ^ (- e))%Z
  | _ => 0%Z
  end.

(** [int(f)] for a Python float. *)
Definition int_of_float (f : float) : outcome Z :=
  match Prim2SF f with
  | S754_nan => throw (Exn (ValueError "cannot convert float NaN to integer"))
  | S754_infinity _ =>
      throw (Exn (OverflowError "cannot convert float infinity to integer"))
  | v => done (integer_part v)
  end.

Section Conversions.

(** [int(s)] and [float(s)] for a Python string: the parsers of the
    interpreter. *)
Variable int_of_str : string -> outcome Z.
Variable float_of_str : string -> outcome float.

(** [int(value)]. *)
Definition py_int (value : json) : outcome Z :=
  match value with
  | JInt z => done z
  | JBool b => done (if b then 1 else 0)%Z
  | JFloat f => int_of_float f
  | JString s => int_of_str s
  | JNull | JArray _ | JObject _ => throw TypeError
  end.

(** [float(value)]. *)
Definition py_float (value : json) : outcome float :=
  match value with
  | JFloat f => done f
  | JInt z => lift (float_of_int z)
  | JBool b => done (if b then 1 else 0)%float
  | JString s => float_of_str s
  | JNull | JArray _ | JObject _ => throw TypeError
  end.

End Conversions.

Notation "x <~ c ;; k" := (and_then c (fun x => k))
  (at level 61, c at next level, right associativity).

End Builtins.

(** ** render_node_overlay.py: the node files *)

Module NodeFiles.

Import Py NodeOverlay Builtins.
Local Open Scope string_scope.

(** [nodes.sort(key=lambda n: n.node_id)]: the stable sort. *)
Fixpoint insert_by_id (n : Node) (l : list Node) : list Node :=
  match l with
  | [] => [n]
  | h :: t =>
      if (node_id h <? node_id n)%Z then h :: insert_by_id n t
      else n :: h :: t
  end.

Definition sorted_by_id (l : list Node) : list Node :=
  fold_right insert_by_id [] l.

(** [round(v, 2)] for a Python float: the decimal with two digits after the
    point that is nearest to [v] (ties to the even digit), converted back to
    the nearest float; a NaN, an infinity and a zero are returned as they
    are. *)
Definition round_2 (v : float) : float :=
  match Prim2SF v with
  | S754_finite s m e =>
      let hundredths :=
        (if 0 <=? e then Zpos m * 2 ^ e * 100
         else F32Spec.RNE (100 * Zpos m) (2 ^ (- e)))%Z in
      match hundredths with
      | Zpos h =>
          SF2Prim (SFdiv prec emax (S754_finite s h 0) (S754_finite false 100 0))
      | _ => SF2Prim (S754_zero s)
      end
  | _ => v
  end.

Section Conversions.

Variable int_of_str : string -> outcome Z.
Variable float_of_str : string -> outcome float.

(** Lines 73 to 78 of [load_nodes]: the node of one entry. The arguments
    are evaluated in the order they are written; the value of [edges] is
    stored as it is, whatever it is. *)
Definition node_of_entry (entry : json) : outcome Node :=
  id_value <~ subscript entry "id" ;;
  node_id <~ py_int int_of_str id_value ;;
  position <~ subscript entry "position" ;;
  x_value <~ subscript position "x" ;;
  x <~ py_float float_of_str x_value ;;
  position <~ subscript entry "position" ;;
  y_value <~ subscript position "y" ;;
  y <~ py_float float_of_str y_value ;;
  edges <~ subscript entry "edges" ;;
  done (mkNode node_id x y edges).

(** [load_nodes], from the decoded data on: [data] is the value of
    [json.loads(path.read_text())]. *)
Definition load_nodes (data : json) : outcome (list Node) :=
  entries <~ iterate data ;;
  nodes <~ traverse node_of_entry entries ;;
  done (sorted_by_id nodes).

End Conversions.

(** Lines 199 to 206 of [save_scaled_json]: the value given to
    [json.dumps]. *)
Definition entry_of_node (node : Node) : json :=
  JObject
    [("id", JInt (node_id node));
     ("position", JObject [("x", JFloat (round_2 (x node)));
                           ("y", JFloat (round_2 (y node)))]);
     ("edges", edges node)].

Definition serializable (nodes : list Node) : json :=
  JArray (map entry_of_node nodes).

(** A parser of strings that accepts nothing, for data without strings. *)
Definition no_parser {A : Type} (s : string) : outcome A := throw TypeError.

End NodeFiles.

(** ** combine_board_images.py: the unsharp mask *)

Module Sharpen.

Import Py Fusion.

(** The OpenCV routines on 8-bit images that [unsharp_mask] calls:
    [cv2.GaussianBlur(src, (0, 0), sigmaX)] and
    [cv2.addWeighted(src1, alpha, src2, beta, gamma)]. *)
Record OpenCV_8U : Type := mkOpenCV_8U {
  GaussianBlur_8U : forall (src : image) (sigmaX : Z), image;
  addWeighted : forall (src1 : image) (alpha : float) (src2 : image)
                       (beta gamma : float), image
}.

(** [np.clip(a, a_min, a_max)] on one uint8 value, for bounds in its range. *)
Definition np_clip (v : byte) (a_min a_max : Z) : byte :=
  F32.uint8_of_Z (Z.min (Z.max (Z.of_N (Byte.to_N v)) a_min) a_max).

(** [a.astype(np.uint8)] on one uint8 value. *)
Definition astype_uint8 (v : byte) : byte := v.

Definition map_pixel (f : byte -> byte) (p : pixel) : pixel :=
  let '(b, g, r) := p in (f b, f g, f r).

Definition unsharp_mask (cv8 : OpenCV_8U) (img : image) (radius : Z)
    (amount : float) : image :=
  let blurred := GaussianBlur_8U cv8 img radius in
  let sharpened := addWeighted cv8 img (1 + amount) blurred (- amount) 0 in
  map2d (map_pixel (fun v => astype_uint8 (np_clip v 0 255))) sharpened.

(** Lines 184 to 186 of [main]: the aligned, blended and sharpened image. *)
Definition fuse (cv : OpenCV) (cv8 : OpenCV_8U) (primary secondary : image)
    : result (image * image * homography) :=
  aligned <- align_secondary cv primary secondary ;;
  let '(warped_secondary, H) := aligned in
  blended <- blend_images cv primary warped_secondary ;;
  let sharpened := unsharp_mask cv8 blended 3 1.2 in
  ret (sharpened, warped_secondary, H).

End Sharpen.

(** ** Definitions used by the further statements *)

Module MoreSpec.

Import Py NodeOverlay Fusion NodeFiles Sharpen BlendSpec.

(** Ascending identifiers. *)
Definition id_le (a b : Node) : Prop := (node_id a <= node_id b)%Z.

(** A node as [save_scaled_json] writes it. *)
Definition rounded (node : Node) : Node :=
  mkNode (node_id node) (round_2 (x node)) (round_2 (y node)) (edges node).

(** An array of two axes: every row has the length of the first one. *)
Definition rectangular {A : Type} (img : list (list A)) : Prop :=
  Forall (fun row => Z.of_nat (length row) = shape1 img) img.

(** [cv2.warpPerspective(src, M, (width, height))] returns an image of
    [height] rows and [width] columns. *)
Definition warp_contract (cv : OpenCV) : Prop :=
  forall src M width height,
    (0 <= width)%Z -> (0 <= height)%Z ->
    let dst := warpPerspective cv src M (width, height) in
    length dst = Z.to_nat height /\
    Forall (fun row => length row = Z.to_nat width) dst.

(** The filters on 8-bit images keep the shape of their input. *)
Definition filters_keep_shape (cv8 : OpenCV_8U) : Prop :=
  (forall src sigma, same_shape (GaussianBlur_8U cv8 src sigma) src) /\
  (forall src1 alpha src2 beta gamma,
     same_shape src1 src2 ->
     same_shape (addWeighted cv8 src1 alpha src2 beta gamma) src1).

End MoreSpec.

(** ** Stand-ins for the routines of the fusion pipeline *)

Module FuseDemo.

Import Py Fusion Demo Sharpen.

(** A warp that returns a black canvas of the size asked for. *)
Definition black_canvas (dsize : Z * Z) : image :=
  repeat (repeat (x00, x00, x00) (Z.to_nat (fst dsize))) (Z.to_nat (snd dsize)).

Definition canvas_cv : OpenCV :=
  {| cvtColor_BGR2GRAY := cvtColor_BGR2GRAY demo_cv;
     ORB_detectAndCompute := ORB_detectAndCompute demo_cv;
     BFMatcher_match := BFMatcher_match demo_cv;
     findHomography := findHomography demo_cv;
     warpPerspective := fun _ _ dsize => black_canvas dsize;
     Laplacian_32F := Laplacian_32F demo_cv;
     GaussianBlur := GaussianBlur demo_cv;
     normalize_MINMAX := normalize_MINMAX demo_cv |}.

(** Filters on 8-bit images that return their first input. *)
Definition demo_cv8 : OpenCV_8U :=
  {| GaussianBlur_8U := fun src _ => src;
     addWeighted := fun src1 _ _ _ _ => src1 |}.

End FuseDemo.

(** ** Definitions used by the further statements about the blender *)

Module PixelSpec.

Import Py Fusion F32Spec.
Local Open Scope Z_scope.

(** An output channel lies between the two input channels, or one level
    below the smaller of them. *)
Definition near_between (p q out : byte) : Prop :=
  Z.min (uint8_value p) (uint8_value q) - 1 <= uint8_value out <=
  Z.max (uint8_value p) (uint8_value q).

(** Line 121: a grey level as a float32 intensity, [gray / 255.0]. *)
Definition intensity (g : byte) : spec_float :=
  F32.div (F32.of_uint8 g) (F32.of_float 255).

(** The 256 values of uint8, in ascending order. *)
Definition all_uint8 : list byte :=
  map (fun n => F32.uint8_of_Z (Z.of_nat n)) (seq 0 256).

(** The grey levels with their intensities. *)
Definition intensity_table : list (Z * spec_float) :=
  map (fun g => (uint8_value g, intensity g)) all_uint8.

(** Two entries of the table are ordered by intensity as they are by level. *)
Definition intensity_ordered (a b : Z * spec_float) : bool :=
  implb (fst a <? fst b) (F32.ltb (snd a) (snd b)).

(** The mean of two channels, rounded down. *)
Definition mean_down (p q : byte) : byte :=
  F32.uint8_of_Z ((uint8_value p + uint8_value q) / 2).

(** The blend of two channels with both weights one half is their mean,
    rounded down. *)
Definition half_blend_is_mean (p q : byte) : bool :=
  Byte.eqb (blend_channel p q half half) (mean_down p q).

End PixelSpec.

(** ** render_node_overlay.py: drawing the overlay *)

Module Overlay.

Import Py NodeOverlay Fusion.
Local Open Scope Z_scope.

(** What [draw_overlay] can raise: an exception of Python, or one raised
    inside a call of OpenCV, kept by its message. *)
Inductive raised : Type :=
| Builtin (e : exn)
| Native (msg : string).

(** [round(v)] of a Python float: the nearest integer, ties to even; NaN
    and the infinities have no integer. [int] of the result is the result. *)
Definition py_round (v : float) : result Z :=
  match Prim2SF v with
  | S754_zero _ => ret 0
  | S754_finite s m e =>
      ret (cond_Zopp s
             (if 0 <=? e then Zpos m * 2 ^ e else F32Spec.RNE (Zpos m) (2 ^ (- e))))
  | S754_infinity _ => raise (OverflowError "cannot convert float infinity to integer")
  | S754_nan => raise (ValueError "cannot convert float NaN to integer")
  end.

(** [str(n)] of an int. *)
Definition str (n : Z) : string :=
  DecimalString.NilZero.string_of_int (Z.to_int n).

(** A numpy array is an object: a variable holds a reference to it, and the
    drawing calls of OpenCV change the array they are given. The arrays
    created so far are the references below [next]. *)
Definition ref : Type := nat.

Record heap : Type := mkHeap {
  next : ref;
  cell : ref -> image
}.

Definition alloc (v : image) (h : heap) : ref * heap :=
  (next h,
   mkHeap (S (next h)) (fun r => if Nat.eqb r (next h) then v else cell h r)).

Definition write (r : ref) (v : image) (h : heap) : heap :=
  mkHeap (next h) (fun r' => if Nat.eqb r' r then v else cell h r').

(** [arr.copy()]. *)
Definition ndarray_copy (r : ref) (h : heap) : ref * heap := alloc (cell h r) h.

Definition FONT_HERSHEY_SIMPLEX : Z := 0.

Definition LINE_AA : Z := 16.

(** The drawing routines of OpenCV. [circle] and [putText] take the
    contents of the array they draw on and give its contents afterwards,
    with the message of the exception they raised, if any. *)
Record OpenCV_draw : Type := {
  circle : image -> Z * Z -> Z -> Z * Z * Z -> Z -> option string * image;
  getTextSize : string -> Z -> float -> Z -> string + ((Z * Z) * Z);
  putText :
    image -> string -> Z * Z -> Z -> float -> Z * Z * Z -> Z -> Z ->
    option string * image
}.

(** A computation that reads and changes the arrays and may raise. *)
Definition action (A : Type) : Type := heap -> (raised + A) * heap.

Definition pure {A : Type} (a : A) : action A := fun h => (inr a, h).

Definition seq {A B : Type} (c : action A) (k : A -> action B) : action B :=
  fun h =>
    match c h with
    | (inl e, h') => (inl e, h')
    | (inr a, h') => k a h'
    end.

Notation "x <~~ c ;; k" := (seq c (fun x => k))
  (at level 61, c at next level, right associativity).

Definition builtin {A : Type} (r : result A) : action A :=
  fun h =>
    (match r with
     | inl e => inl (Builtin e)
     | inr a => inr a
     end, h).

Definition native {A : Type} (r : string + A) : action A :=
  fun h =>
    (match r with
     | inl msg => inl (Native msg)
     | inr a => inr a
     end, h).

(** A call that draws on the array behind [r]. *)
Definition in_place (f : image -> option string * image) (r : ref) : action unit :=
  fun h =>
    let (e, v) := f (cell h r) in
    (match e with
     | Some msg => inl (Native msg)
     | None => inr tt
     end, write r v h).

(** [for a in l: body(a)]. *)
Fixpoint for_each {A : Type} (body : A -> action unit) (l : list A) : action unit :=
  match l with
  | [] => pure tt
  | a :: l' => _ <~~ body a ;; for_each body l'
  end.

Section Drawing.

Variable cv : OpenCV_draw.

(** The body of the loop of [draw_overlay], lines 179 to 185. *)
Definition draw_node (overlay : ref) (font : Z) (radius thickness : Z)
    (font_scale : float) (node : Node) : action unit :=
  cx <~~ builtin (py_round (x node)) ;;
  cy <~~ builtin (py_round (y node)) ;;
  let center := (cx, cy) in
  _ <~~ in_place (fun img => circle cv img center radius (0, 215, 255) thickness)
          overlay ;;
  let label := str (node_id node) in
  size <~~ native (getTextSize cv label font font_scale thickness) ;;
  let '((text_w, text_h), baseline) := size in
  let text_org := (fst center - text_w / 2, snd center + text_h / 2) in
  _ <~~ in_place
          (fun img =>
             putText cv img label text_org font font_scale (0, 0, 0)
               (thickness + 2) LINE_AA)
          overlay ;;
  in_place
    (fun img =>
       putText cv img label text_org font font_scale (255, 255, 255)
         thickness LINE_AA)
    overlay.

(** [draw_overlay], lines 176 to 186. *)
Definition draw_overlay (board : ref) (nodes : list Node) (radius thickness : Z)
    (font_scale : float) : action ref :=
  fun h =>
    let (overlay, h1) := ndarray_copy board h in
    let font := FONT_HERSHEY_SIMPLEX in
    (_ <~~ for_each (draw_node overlay font radius thickness font_scale) nodes ;;
     pure overlay) h1.

End Drawing.

End Overlay.

(** ** Definitions used by the statements about the overlay *)

Module OverlaySpec.

Import Py NodeOverlay Fusion Overlay.
Local Open Scope Z_scope.

(** A float that is neither NaN nor an infinity. *)
Definition is_finite (v : float) : bool :=
  match Prim2SF v with
  | S754_zero _ | S754_finite _ _ _ => true
  | _ => false
  end.

Definition on_board (n : Node) : bool := is_finite (x n) && is_finite (y n).

(** The drawing routines raise nothing. *)
Definition quiet (cv : OpenCV_draw) : Prop :=
  (forall img center radius color thickness,
     fst (circle cv img center radius color thickness) = None) /\
  (forall label font font_scale thickness,
     exists size, getTextSize cv label font font_scale thickness = inr size) /\
  (forall img label org font font_scale color thickness line,
     fst (putText cv img label org font font_scale color thickness line) = None).

(** The integer nearest to a finite float, ties to even. *)
Definition nearest (v : float) : Z :=
  match py_round v with
  | inr n => n
  | inl _ => 0
  end.

(** The size of a label, [(0, 0)] where OpenCV gives none. *)
Definition label_size (cv : OpenCV_draw) (label : string) (font_scale : float)
    (thickness : Z) : Z * Z :=
  match getTextSize cv label FONT_HERSHEY_SIMPLEX font_scale thickness with
  | inr (size, _) => size
  | inl _ => (0, 0)
  end.

(** One node painted on an image, as a function of images: the circle, the
    black outline of the label and the white label. *)
Definition paint (cv : OpenCV_draw) (radius thickness : Z) (font_scale : float)
    (img : image) (node : Node) : image :=
  let center := (nearest (x node), nearest (y node)) in
  let label := str (node_id node) in
  let size := label_size cv label font_scale thickness in
  let org := (fst center - fst size / 2, snd center + snd size / 2) in
  let img1 := snd (circle cv img center radius (0, 215, 255) thickness) in
  let img2 :=
    snd (putText cv img1 label org FONT_HERSHEY_SIMPLEX font_scale (0, 0, 0)
           (thickness + 2) LINE_AA) in
  snd (putText cv img2 label org FONT_HERSHEY_SIMPLEX font_scale (255, 255, 255)
         thickness LINE_AA).

(** Drawing routines that set the top left pixel to the colour drawn. *)
Definition colour_byte (c : Z) : byte :=
  match Byte.of_N (Z.to_N (c mod 256)) with
  | Some b => b
  | None => x00
  end.

Definition mark (img : image) (color : Z * Z * Z) : image :=
  let '(b, g, r) := color in
  match img with
  | (_ :: row) :: rows => ((colour_byte b, colour_byte g, colour_byte r) :: row) :: rows
  | other => other
  end.

Definition marking_cv : OpenCV_draw :=
  {| circle := fun img _ _ color _ => (None, mark img color);
     getTextSize := fun _ _ _ _ => inr ((10, 8), 3);
     putText := fun img _ _ _ _ color _ _ => (None, mark img color) |}.

Definition one_board : heap :=
  mkHeap 1%nat (fun _ => [[(x07, x07, x07); (x09, x09, x09)]]).

End OverlaySpec.

(** * Proofs *)

(** ** render_node_overlay.py *)

Module NodeOverlayFacts.

Import Py NodeOverlay NodeOverlaySpec.
Local Open Scope string_scope.
Local Open Scope float_scope.

Lemma np_min_cons v rest : np_min (v :: rest) = ret (fold_left np_minimum rest v).
Proof. reflexivity. Qed.

Lemma np_max_cons v rest : np_max (v :: rest) = ret (fold_left np_maximum rest v).
Proof. reflexivity. Qed.

Lemma np_min_returns arr v : np_min arr = ret v -> arr <> [].
Proof. destruct arr; [discriminate | discriminate]. Qed.

Lemma np_max_nonempty arr : arr <> [] -> exists v, np_max arr = ret v.
Proof. destruct arr; [congruence | eexists; reflexivity]. Qed.

Lemma span_inv arr w :
  span arr = ret w ->
  exists lo hi, np_min arr = ret lo /\ np_max arr = ret hi /\ w = hi - lo.
Proof.
  unfold span. destruct arr as [|v rest]; [discriminate|].
  cbn. intros H. injection H as <-. eauto.
Qed.

(** The common prefix of [compute_transform]: lines 106 to 116. *)
Lemma compute_transform_checked nodes width height margin mode
    min_x max_x min_y max_y usable_w usable_h :
  np_min (map x nodes) = ret min_x -> np_max (map x nodes) = ret max_x ->
  np_min (map y nodes) = ret min_y -> np_max (map y nodes) = ret max_y ->
  usable width margin = ret usable_w -> usable height margin = ret usable_h ->
  compute_transform nodes width height margin mode =
  if degenerate usable_w usable_h then raise margin_error
  else if String.eqb mode "raw" then ret identity_transform
  else if String.eqb mode "stretch" then
    scale_x <- py_div usable_w (max_x - min_x) ;;
    scale_y <- py_div usable_h (max_y - min_y) ;;
    ret (scale_x, scale_y, margin - scale_x * min_x, margin - scale_y * min_y)
  else
    fit_w <- py_div usable_w (max_x - min_x) ;;
    fit_h <- py_div usable_h (max_y - min_y) ;;
    fwidth <- float_of_int width ;;
    fheight <- float_of_int height ;;
    ret (py_min fit_w fit_h, py_min fit_w fit_h,
         (fwidth - py_min fit_w fit_h * (max_x - min_x)) / 2 - py_min fit_w fit_h * min_x,
         (fheight - py_min fit_w fit_h * (max_y - min_y)) / 2 - py_min fit_w fit_h * min_y).
Proof.
  intros Hx1 Hx2 Hy1 Hy2 Hw Hh.
  unfold compute_transform.
  rewrite Hx1, Hx2, Hy1, Hy2, Hw, Hh. reflexivity.
Qed.

Lemma usable_inv size margin u :
  usable size margin = ret u ->
  exists f, float_of_int size = ret f /\ u = f - 2 * margin.
Proof.
  unfold usable. destruct (float_of_int size) as [e|f]; [discriminate|].
  cbn. intros H. injection H as <-. eauto.
Qed.

Lemma py_div_nonzero a b : (b =? 0) = false -> py_div a b = ret (a / b).
Proof. unfold py_div. intros ->. reflexivity. Qed.

(** C9. [transform_nodes] keeps the length and the order of the list, the
    [node_id] and the [edges] of every node, and maps the coordinates to
    [x * scale_x + offset_x] and [y * scale_y + offset_y]. *)
Theorem transform_nodes_frame (nodes : list Node) (scale_x scale_y offset_x offset_y : float) :
  let remapped := transform_nodes nodes scale_x scale_y offset_x offset_y in
  length remapped = length nodes /\
  map node_id remapped = map node_id nodes /\
  map edges remapped = map edges nodes /\
  map x remapped = map (fun n => x n * scale_x + offset_x) nodes /\
  map y remapped = map (fun n => y n * scale_y + offset_y) nodes /\
  forall i, nth_error remapped i =
    option_map (fun n => mkNode (node_id n) (x n * scale_x + offset_x)
                                (y n * scale_y + offset_y) (edges n))
               (nth_error nodes i).
Proof.
  unfold transform_nodes. cbv zeta.
  repeat split; try (rewrite map_map; reflexivity).
  - apply length_map.
  - intros i. rewrite nth_error_map. reflexivity.
Qed.



(** C8 (amended). For a node list whose x and y extents are computed, and
    either in mode "raw" or with extents that are not zero,
    [compute_transform] raises a ValueError exactly when the usable width or
    the usable height is not positive, and returns a transform otherwise. *)
Theorem compute_transform_raises_iff_margin
    (nodes : list Node) (width height : Z) (margin : float) (mode : string)
    (src_width src_height usable_w usable_h : float) :
  span (map x nodes) = ret src_width ->
  span (map y nodes) = ret src_height ->
  usable width margin = ret usable_w ->
  usable height margin = ret usable_h ->
  mode = "raw"%string \/ ((src_width =? 0) = false /\ (src_height =? 0) = false) ->
  let r := compute_transform nodes width height margin mode in
  is_ValueError r = degenerate usable_w usable_h /\
  returns r = negb (degenerate usable_w usable_h).
Proof.
  intros Hsx Hsy Hw Hh Hmode r.
  destruct (span_inv _ _ Hsx) as (min_x & max_x & Hx1 & Hx2 & ->).
  destruct (span_inv _ _ Hsy) as (min_y & max_y & Hy1 & Hy2 & ->).
  subst r. erewrite compute_transform_checked by eassumption.
  destruct (degenerate usable_w usable_h); [split; reflexivity|].
  destruct Hmode as [-> | [Zx Zy]]; [split; reflexivity|].
  destruct (usable_inv _ _ _ Hw) as (fw & Fw & _).
  destruct (usable_inv _ _ _ Hh) as (fh & Fh & _).
  rewrite !(py_div_nonzero _ _ Zx), !(py_div_nonzero _ _ Zy), Fw, Fh.
  destruct (mode =? "raw")%string; [split; reflexivity|].
  destruct (mode =? "stretch")%string; split; reflexivity.
Qed.

Lemma compute_transform_raises_iff_margin_witness :
  let r := compute_transform [mkNode 1 0 0 []; mkNode 2 100 50 []] 640 480 12 "stretch" in
  is_ValueError r = degenerate 616 456 /\ returns r = negb (degenerate 616 456).
Proof.
  apply (compute_transform_raises_iff_margin
           [mkNode 1 0 0 []; mkNode 2 100 50 []] 640 480 12 "stretch" 100 50 616 456);
    try reflexivity.
  right. split; reflexivity.
Defined.

(** C8: with a margin that is not degenerate, a single node makes the
    uniform fit divide by zero, and an empty node list raises the ValueError
    of numpy's reduction. *)
Lemma compute_transform_raises_besides_margin :
  usable 100 0 = ret 100 /\ degenerate 100 100 = false /\
  compute_transform [mkNode 1 0 0 []] 100 100 0 "uniform" =
    raise (ZeroDivisionError "float division by zero") /\
  compute_transform [] 100 100 0 "uniform" =
    raise (ValueError "zero-size array to reduction operation minimum which has no identity").
Proof. repeat split. Qed.

(** C7 (amended). For nodes whose x coordinates span [0, 100], width 1000,
    margin 0 and the uniform fit, when the vertical fit usable_h / src_height
    is not smaller than usable_w / 100, the scale is usable_w / 100 = 10, the
    horizontal offset is 0, and x = 0 and x = 100 are mapped to 0 and 1000. *)
Theorem uniform_fit_maps_x_extent_to_image_width
    (nodes : list Node) (height : Z)
    (min_y max_y usable_h : float) :
  np_min (map x nodes) = ret 0 ->
  np_max (map x nodes) = ret 100 ->
  np_min (map y nodes) = ret min_y ->
  np_max (map y nodes) = ret max_y ->
  usable height 0 = ret usable_h ->
  (usable_h <=? 0) = false ->
  (max_y - min_y =? 0) = false ->
  (usable_h / (max_y - min_y) <? 1000 / 100) = false ->
  usable 1000 0 = ret 1000 /\
  exists offset_y,
    compute_transform nodes 1000 height 0 "uniform" =
      ret (1000 / 100, 1000 / 100, 0, offset_y) /\
    forall i yv e,
      x (transform_node (1000 / 100) (1000 / 100) 0 offset_y (mkNode i 0 yv e)) = 0 /\
      x (transform_node (1000 / 100) (1000 / 100) 0 offset_y (mkNode i 100 yv e)) = 1000.
Proof.
  intros Hx1 Hx2 Hy1 Hy2 Hh Hpos Hsh Hfit.
  split; [reflexivity|].
  destruct (usable_inv _ _ _ Hh) as (fh & Fh & _).
  assert (Hw : usable 1000 0 = ret 1000) by reflexivity.
  erewrite compute_transform_checked by eassumption.
  unfold degenerate. rewrite Hpos.
  change (1000 <=? 0) with false.
  change (100 - 0) with 100.
  change (py_div 1000 100) with (ret (A:=float) 10).
  change (1000 / 100) with 10 in *.
  cbn [orb String.eqb Ascii.eqb Bool.eqb bind ret].
  rewrite (py_div_nonzero _ _ Hsh). cbn [bind ret].
  change (float_of_int 1000) with (ret (A:=float) 1000).
  rewrite Fh. cbn [bind ret].
  unfold py_min. rewrite Hfit.
  eexists. split; [reflexivity|].
  intros i yv e. split; reflexivity.
Qed.

Lemma uniform_fit_maps_x_extent_to_image_width_witness :
  usable 1000 0 = ret 1000 /\
  exists offset_y,
    compute_transform [mkNode 1 0 0 []; mkNode 2 100 50 []] 1000 800 0 "uniform" =
      ret (1000 / 100, 1000 / 100, 0, offset_y) /\
    forall i yv e,
      x (transform_node (1000 / 100) (1000 / 100) 0 offset_y (mkNode i 0 yv e)) = 0 /\
      x (transform_node (1000 / 100) (1000 / 100) 0 offset_y (mkNode i 100 yv e)) = 1000.
Proof.
  apply (uniform_fit_maps_x_extent_to_image_width
           [mkNode 1 0 0 []; mkNode 2 100 50 []] 800 0 50 800); reflexivity.
Defined.

(** C7: nodes (0, 0) and (100, 100) on a 1000 x 500 image: the height
    limits the uniform scale to 5, and x = 0, x = 100 go to 250 and 750. *)
Lemma uniform_fit_limited_by_height :
  let nodes := [mkNode 1 0 0 []; mkNode 2 100 100 []] in
  np_min (map x nodes) = ret 0 /\ np_max (map x nodes) = ret 100 /\
  compute_transform nodes 1000 500 0 "uniform" = ret (5, 5, 250, 0) /\
  (5 =? 1000 / 100) = false /\
  map x (transform_nodes nodes 5 5 250 0) = [250; 750].
Proof. repeat split. Qed.

End NodeOverlayFacts.

(** ** combine_board_images.py: the feature aligner *)

Module AlignFacts.

Import Py Fusion Demo AlignSpec.

Lemma insert_by_distance_perm m l : Permutation (insert_by_distance m l) (m :: l).
Proof.
  induction l as [|h t IH]; cbn; [reflexivity|].
  destruct (distance h <? distance m)%N; [|reflexivity].
  rewrite IH. apply perm_swap.
Qed.

Lemma sorted_by_distance_perm l : Permutation (sorted_by_distance l) l.
Proof.
  induction l as [|m l IH]; cbn; [reflexivity|].
  rewrite insert_by_distance_perm. now constructor.
Qed.

Lemma insert_by_distance_sorted m l :
  StronglySorted distance_le l -> StronglySorted distance_le (insert_by_distance m l).
Proof.
  induction 1 as [|h t Hs IH Hh]; cbn.
  - repeat constructor.
  - destruct (N.ltb_spec (distance h) (distance m)) as [Hlt|Hge].
    + constructor; [exact IH|].
      rewrite Forall_forall in *. intros b Hb.
      apply (Permutation_in _ (insert_by_distance_perm m t)) in Hb.
      destruct Hb as [<- | Hb]; [unfold distance_le; lia | auto].
    + constructor; [constructor; assumption|].
      constructor; [exact Hge|].
      rewrite Forall_forall in *. intros b Hb.
      specialize (Hh b Hb). unfold distance_le in *. lia.
Qed.

Lemma sorted_by_distance_sorted l : StronglySorted distance_le (sorted_by_distance l).
Proof.
  induction l as [|m l IH]; cbn; [constructor|].
  now apply insert_by_distance_sorted.
Qed.

(** Stability: matches of one distance keep the order they had. *)
Lemma insert_by_distance_stable d m l :
  filter (fun a => (distance a =? d)%N) (insert_by_distance m l) =
  filter (fun a => (distance a =? d)%N) (m :: l).
Proof.
  induction l as [|h t IH]; [reflexivity|].
  cbn [insert_by_distance].
  destruct (N.ltb_spec (distance h) (distance m)) as [Hlt|Hge]; [|reflexivity].
  cbn [filter] in *. rewrite IH.
  destruct (N.eqb_spec (distance h) d) as [Eh|Nh];
    destruct (N.eqb_spec (distance m) d) as [Em|Nm]; try reflexivity.
  lia.
Qed.

Lemma sorted_by_distance_stable d l :
  filter (fun a => (distance a =? d)%N) (sorted_by_distance l) =
  filter (fun a => (distance a =? d)%N) l.
Proof.
  induction l as [|m l IH]; [reflexivity|].
  cbn [sorted_by_distance fold_right].
  rewrite insert_by_distance_stable. cbn [filter].
  fold (sorted_by_distance l). rewrite IH. reflexivity.
Qed.

Lemma StronglySorted_app_le (l1 l2 : list DMatch) :
  StronglySorted distance_le (l1 ++ l2) ->
  StronglySorted distance_le l1 /\
  forall a b, In a l1 -> In b l2 -> distance_le a b.
Proof.
  induction l1 as [|h t IH]; cbn; intros H.
  - split; [constructor | intros a b []].
  - inversion H as [|? ? Hs Hh]; subst.
    destruct (IH Hs) as [Ht Hle].
    rewrite Forall_forall in Hh.
    split.
    + constructor; [exact Ht|].
      rewrite Forall_forall. intros b Hb. apply Hh, in_or_app. now left.
    + intros a b [<- | Ha] Hb; [apply Hh, in_or_app; now right | now apply Hle].
Qed.

Lemma comprehension_getitem kp idx (matches : list DMatch) :
  (forall m, In m matches -> (idx m < length kp)%nat) ->
  comprehension (fun m => k <- getitem kp (idx m) ;; ret (pt k)) matches =
  ret (points_at kp idx matches).
Proof.
  induction matches as [|m l IH]; intros Hin; [reflexivity|].
  cbn [comprehension]. unfold getitem at 1.
  assert (Hm : (idx m < length kp)%nat) by (apply Hin; now left).
  destruct (nth_error kp (idx m)) as [k|] eqn:E.
  - cbn [bind ret]. rewrite IH by (intros; apply Hin; now right).
    cbn. unfold points_at. cbn [map].
    rewrite (nth_error_nth _ _ origin E). reflexivity.
  - apply nth_error_None in E. lia.
Qed.

Lemma comprehension_getitem_error kp idx (matches : list DMatch) e :
  comprehension (fun m => k <- getitem kp (idx m) ;; ret (pt k)) matches = raise e ->
  e = IndexError "tuple index out of range"%string.
Proof.
  induction matches as [|m l IH]; [discriminate|].
  cbn [comprehension]. unfold getitem at 1.
  destruct (nth_error kp (idx m)) as [k|].
  - cbn [bind ret].
    destruct (comprehension _ l) as [e'|pts] eqn:E; cbn.
    + intros H. injection H as <-. now apply IH.
    + discriminate.
  - cbn. intros H. now injection H as <-.
Qed.

Lemma estimate_and_warp_not_insufficient cv primary secondary kp1 kp2 all :
  estimate_and_warp cv primary secondary kp1 kp2 all <> raise InsufficientMatchesError.
Proof.
  unfold estimate_and_warp.
  set (kept := firstn 300 (sorted_by_distance all)).
  destruct (comprehension (fun m => k <- getitem kp1 (queryIdx m) ;; ret (pt k)) kept)
    as [e1|src] eqn:E1; cbn [bind].
  - apply comprehension_getitem_error in E1. subst. discriminate.
  - destruct (comprehension (fun m => k <- getitem kp2 (trainIdx m) ;; ret (pt k)) kept)
      as [e2|dst] eqn:E2; cbn [bind].
    + apply comprehension_getitem_error in E2. subst. discriminate.
    + destruct (findHomography cv dst src RANSAC 5); discriminate.
Qed.

Lemma comprehension_getitem_inv kp idx (matches : list DMatch) pts :
  comprehension (fun m => k <- getitem kp (idx m) ;; ret (pt k)) matches = ret pts ->
  (forall m, In m matches -> (idx m < length kp)%nat) /\
  pts = points_at kp idx matches.
Proof.
  revert pts. induction matches as [|m l IH]; intros pts.
  - cbn. intros H. injection H as <-. split; [intros m []|reflexivity].
  - cbn [comprehension]. unfold getitem at 1.
    destruct (nth_error kp (idx m)) as [k|] eqn:E; [|discriminate].
    cbn [bind ret].
    destruct (comprehension _ l) as [e|pts'] eqn:El; [discriminate|].
    cbn [bind ret]. intros H. injection H as <-.
    destruct (IH pts' eq_refl) as [Hin ->].
    assert (Hm : (idx m < length kp)%nat).
    { apply nth_error_Some. congruence. }
    split.
    + intros m' [<-|Hm']; [exact Hm | now apply Hin].
    + unfold points_at. cbn [map].
      rewrite (nth_error_nth _ _ origin E). reflexivity.
Qed.

Lemma comprehension_getitem_raises kp idx (matches : list DMatch) e :
  comprehension (fun m => k <- getitem kp (idx m) ;; ret (pt k)) matches = raise e ->
  e = KeyPointIndexError /\ exists m, In m matches /\ (length kp <= idx m)%nat.
Proof.
  induction matches as [|m l IH]; [discriminate|].
  cbn [comprehension]. unfold getitem at 1.
  destruct (nth_error kp (idx m)) as [k|] eqn:E.
  - cbn [bind ret].
    destruct (comprehension _ l) as [e'|pts] eqn:El; cbn; [|discriminate].
    intros H. injection H as <-.
    destruct (IH eq_refl) as [-> (m' & Hm' & Hle)].
    split; [reflexivity|]. exists m'. split; [now right | exact Hle].
  - cbn. intros H. injection H as <-.
    split; [reflexivity|]. exists m. split; [now left|].
    now apply nth_error_None.
Qed.

(** What [estimate_and_warp] does, case by case. *)
Lemma estimate_and_warp_cases cv primary secondary kp1 kp2 (all : list DMatch) :
  let kept := firstn 300 (sorted_by_distance all) in
  let r := estimate_and_warp cv primary secondary kp1 kp2 all in
  (r = raise KeyPointIndexError /\
   exists m, In m kept /\
     ((length kp1 <= queryIdx m)%nat \/ (length kp2 <= trainIdx m)%nat)) \/
  ((forall m, In m kept ->
      (queryIdx m < length kp1)%nat /\ (trainIdx m < length kp2)%nat) /\
   r = match findHomography cv (points_at kp2 trainIdx kept)
               (points_at kp1 queryIdx kept) RANSAC 5%float with
       | None => raise HomographyError
       | Some H =>
           ret (warpPerspective cv secondary H (shape1 primary, shape0 primary), H)
       end).
Proof.
  intros kept r. subst r. unfold estimate_and_warp. fold kept.
  destruct (comprehension (fun m => k <- getitem kp1 (queryIdx m) ;; ret (pt k)) kept)
    as [e1|src] eqn:E1; cbn [bind].
  { apply comprehension_getitem_raises in E1. destruct E1 as [-> (m & Hm & Hle)].
    left. split; [reflexivity|]. exists m. auto. }
  destruct (comprehension (fun m => k <- getitem kp2 (trainIdx m) ;; ret (pt k)) kept)
    as [e2|dst] eqn:E2; cbn [bind].
  { apply comprehension_getitem_raises in E2. destruct E2 as [-> (m & Hm & Hle)].
    left. split; [reflexivity|]. exists m. auto. }
  apply comprehension_getitem_inv in E1, E2.
  destruct E1 as [H1 ->], E2 as [H2 ->].
  right. split; [|reflexivity].
  intros m Hm. split; [now apply H1 | now apply H2].
Qed.

(** C5 (amended). When the detector gives no descriptors for one of the
    images, the aligner raises the descriptor error before any matching.
    When both images have descriptors, it raises the insufficient-matches
    error exactly when the cross-checked matching returns fewer than 12
    matches; with 12 or more it goes on to the homography estimation: apart
    from the IndexError of a kept match whose index is out of range, its
    outcome is decided by [findHomography] on the points of the best 300
    matches. *)
Theorem align_secondary_insufficient_matches_iff
    (cv : OpenCV) (primary secondary : image) :
  (descriptors_of cv primary = None \/ descriptors_of cv secondary = None ->
   align_secondary cv primary secondary = raise InsufficientFeaturesError) /\
  (forall des1 des2 : descriptors,
     descriptors_of cv primary = Some des1 ->
     descriptors_of cv secondary = Some des2 ->
     let kp1 := keypoints_of cv primary in
     let kp2 := keypoints_of cv secondary in
     let matches := BFMatcher_match cv NORM_HAMMING true des1 des2 in
     let kept := firstn 300 (sorted_by_distance matches) in
     (align_secondary cv primary secondary = raise InsufficientMatchesError <->
      (length matches < 12)%nat) /\
     ((12 <= length matches)%nat ->
      (align_secondary cv primary secondary = raise KeyPointIndexError /\
       exists m, In m kept /\
         ((length kp1 <= queryIdx m)%nat \/ (length kp2 <= trainIdx m)%nat)) \/
      align_secondary cv primary secondary =
        match findHomography cv (points_at kp2 trainIdx kept)
                (points_at kp1 queryIdx kept) RANSAC 5%float with
        | None => raise HomographyError
        | Some H =>
            ret (warpPerspective cv secondary H (shape1 primary, shape0 primary), H)
        end)).
Proof.
  unfold align_secondary, descriptors_of, keypoints_of.
  destruct (ORB_detectAndCompute cv 5000 (cvtColor_BGR2GRAY cv primary)) as [kp1 d1].
  destruct (ORB_detectAndCompute cv 5000 (cvtColor_BGR2GRAY cv secondary)) as [kp2 d2].
  cbn [fst snd]. split.
  - intros [-> | ->]; [reflexivity|]. destruct d1; reflexivity.
  - intros des1 des2 -> ->. cbv zeta.
    set (matches := BFMatcher_match cv NORM_HAMMING true des1 des2).
    destruct (Nat.ltb_spec (length matches) 12) as [Hlt|Hge].
    + split; [split; [intros _; exact Hlt | reflexivity] | lia].
    + split.
      * split; [|lia].
        intros H. now apply estimate_and_warp_not_insufficient in H.
      * intros _.
        destruct (estimate_and_warp_cases cv primary secondary kp1 kp2 matches)
          as [[E Hm] | [_ E]]; [left | right]; [split; assumption | exact E].
Qed.

(** C6. With at least 12 matches whose indices are in range, the matches
    are sorted by ascending distance (stably) and the best 300 are kept;
    the homography is estimated by RANSAC with threshold 5.0 from the points
    of the secondary image (source) to the points of the primary image
    (destination), and the secondary image is warped with it. *)
Theorem align_secondary_homography_estimation
    (cv : OpenCV) (primary secondary : image)
    (kp1 kp2 : list KeyPoint) (des1 des2 : descriptors) :
  ORB_detectAndCompute cv 5000 (cvtColor_BGR2GRAY cv primary) = (kp1, Some des1) ->
  ORB_detectAndCompute cv 5000 (cvtColor_BGR2GRAY cv secondary) = (kp2, Some des2) ->
  let matches := BFMatcher_match cv NORM_HAMMING true des1 des2 in
  (12 <= length matches)%nat ->
  (forall m, In m matches ->
     (queryIdx m < length kp1)%nat /\ (trainIdx m < length kp2)%nat) ->
  let kept := firstn 300 (sorted_by_distance matches) in
  let dropped := skipn 300 (sorted_by_distance matches) in
  Permutation (kept ++ dropped) matches /\
  StronglySorted distance_le kept /\
  (forall a b, In a kept -> In b dropped -> distance_le a b) /\
  length kept = Nat.min 300 (length matches) /\
  (forall d, filter (fun a => (distance a =? d)%N) (kept ++ dropped) =
             filter (fun a => (distance a =? d)%N) matches) /\
  align_secondary cv primary secondary =
    match findHomography cv (points_at kp2 trainIdx kept) (points_at kp1 queryIdx kept)
            RANSAC 5%float with
    | None => raise HomographyError
    | Some H =>
        ret (warpPerspective cv secondary H (shape1 primary, shape0 primary), H)
    end.
Proof.
  intros H1 H2 matches Hlen Hidx kept dropped.
  assert (Hsplit : kept ++ dropped = sorted_by_distance matches)
    by apply firstn_skipn.
  assert (Hperm : Permutation (kept ++ dropped) matches)
    by (rewrite Hsplit; apply sorted_by_distance_perm).
  assert (Hsorted := sorted_by_distance_sorted matches).
  rewrite <- Hsplit in Hsorted. apply StronglySorted_app_le in Hsorted.
  destruct Hsorted as [Hs Hle].
  assert (Hkept : forall m, In m kept -> In m matches).
  { intros m Hm. apply (Permutation_in _ Hperm), in_or_app. now left. }
  repeat split; try assumption.
  - unfold kept. rewrite length_firstn.
    rewrite (Permutation_length (sorted_by_distance_perm matches)). reflexivity.
  - intros d. rewrite Hsplit. apply sorted_by_distance_stable.
  - unfold align_secondary. rewrite H1, H2. fold matches.
    destruct (Nat.ltb_spec (length matches) 12) as [Hlt|_]; [lia|].
    unfold estimate_and_warp. fold kept.
    rewrite (comprehension_getitem kp1 queryIdx kept)
      by (intros m Hm; apply Hidx, Hkept, Hm).
    cbn [bind ret].
    rewrite (comprehension_getitem kp2 trainIdx kept)
      by (intros m Hm; apply Hidx, Hkept, Hm).
    reflexivity.
Qed.

(** C5: on two blank images the detector returns no descriptors, so there
    is no match at all, which is fewer than 12; the aligner raises the
    descriptor error and not the insufficient-matches error. *)
Lemma align_secondary_blank_images :
  descriptors_of featureless_cv blank_image = None /\
  align_secondary featureless_cv blank_image blank_image =
    raise (RuntimeError "Failed to compute ORB descriptors for alignment") /\
  align_secondary featureless_cv blank_image blank_image <>
    raise InsufficientMatchesError.
Proof.
  split; [reflexivity|]. split; [reflexivity|]. discriminate.
Qed.

Lemma align_secondary_insufficient_matches_iff_witness :
  let matches := BFMatcher_match demo_cv NORM_HAMMING true [[x00]] [[x00]] in
  let kept := firstn 300 (sorted_by_distance matches) in
  (align_secondary demo_cv [[(x03, x03, x03)]] [[(x00, x00, x00)]] =
     raise InsufficientMatchesError <->
   (length matches < 12)%nat) /\
  ((12 <= length matches)%nat ->
   (align_secondary demo_cv [[(x03, x03, x03)]] [[(x00, x00, x00)]] =
      raise KeyPointIndexError /\
    exists m, In m kept /\
      ((length demo_keypoints <= queryIdx m)%nat \/
       (length demo_keypoints <= trainIdx m)%nat)) \/
   align_secondary demo_cv [[(x03, x03, x03)]] [[(x00, x00, x00)]] =
     match findHomography demo_cv (points_at demo_keypoints trainIdx kept)
             (points_at demo_keypoints queryIdx kept) RANSAC 5%float with
     | None => raise HomographyError
     | Some H =>
         ret (warpPerspective demo_cv [[(x00, x00, x00)]] H
                (shape1 [[(x03, x03, x03)]], shape0 [[(x03, x03, x03)]]), H)
     end).
Proof.
  apply (proj2 (align_secondary_insufficient_matches_iff demo_cv
                  [[(x03, x03, x03)]] [[(x00, x00, x00)]]) [[x00]] [[x00]]);
    reflexivity.
Defined.

Lemma align_secondary_homography_estimation_witness :
  let matches := BFMatcher_match demo_cv NORM_HAMMING true [[x00]] [[x00]] in
  let kept := firstn 300 (sorted_by_distance matches) in
  let dropped := skipn 300 (sorted_by_distance matches) in
  Permutation (kept ++ dropped) matches /\
  StronglySorted distance_le kept /\
  (forall a b, In a kept -> In b dropped -> distance_le a b) /\
  length kept = Nat.min 300 (length matches) /\
  (forall d, filter (fun a => (distance a =? d)%N) (kept ++ dropped) =
             filter (fun a => (distance a =? d)%N) matches) /\
  align_secondary demo_cv [[(x03, x03, x03)]] [[(x00, x00, x00)]] =
    match findHomography demo_cv (points_at demo_keypoints trainIdx kept)
            (points_at demo_keypoints queryIdx kept) RANSAC 5%float with
    | None => raise HomographyError
    | Some H =>
        ret (warpPerspective demo_cv [[(x00, x00, x00)]] H
               (shape1 [[(x03, x03, x03)]], shape0 [[(x03, x03, x03)]]), H)
    end.
Proof.
  apply (align_secondary_homography_estimation demo_cv
           [[(x03, x03, x03)]] [[(x00, x00, x00)]]
           demo_keypoints demo_keypoints [[x00]] [[x00]]);
    try reflexivity; try (apply Nat.leb_le; reflexivity).
  intros m Hm. cbn in Hm.
  repeat (destruct Hm as [<- | Hm]; [split; apply Nat.ltb_lt; reflexivity|]).
  destruct Hm.
Defined.

End AlignFacts.

(** ** binary32 arithmetic *)

Module F32Round.

Import F32Spec.
Local Open Scope Z_scope.
Local Set Implicit Arguments.

Lemma fexp32_eq e : fexp32 e = Z.max (e - 24) (-149).
Proof. reflexivity. Qed.

Lemma pow2_pos k : 0 < 2 ^ k \/ k < 0.
Proof. destruct (Z.lt_ge_cases k 0); [now right | left; now apply Z.pow_pos_nonneg]. Qed.

Lemma pow2_gt0 k : 0 <= k -> 0 < 2 ^ k.
Proof. intros. now apply Z.pow_pos_nonneg. Qed.

Lemma pow2_succ k : 0 <= k -> 2 ^ (k + 1) = 2 * 2 ^ k.
Proof. intros. rewrite Z.pow_add_r by lia. lia. Qed.

Lemma digits2_pos_bounds p :
  2 ^ (Zpos (digits2_pos p) - 1) <= Zpos p < 2 ^ Zpos (digits2_pos p).
Proof.
  induction p as [p IH|p IH|]; cbn [digits2_pos].
  - rewrite Pos2Z.inj_succ.
    replace (Z.succ (Zpos (digits2_pos p)) - 1) with (Zpos (digits2_pos p) - 1 + 1) by lia.
    rewrite Z.pow_succ_r by lia. rewrite pow2_succ by lia. lia.
  - rewrite Pos2Z.inj_succ.
    replace (Z.succ (Zpos (digits2_pos p)) - 1) with (Zpos (digits2_pos p) - 1 + 1) by lia.
    rewrite Z.pow_succ_r by lia. rewrite pow2_succ by lia. lia.
  - cbn. lia.
Qed.

Lemma digits_bounds n : 0 < n -> 2 ^ (digits n - 1) <= n < 2 ^ digits n.
Proof. destruct n as [|p|p]; try lia. intros _. apply digits2_pos_bounds. Qed.

Lemma digits_pos n : 0 < n -> 0 < digits n.
Proof. destruct n; cbn; lia. Qed.

Lemma digits_0 : digits 0 = 0.
Proof. reflexivity. Qed.

Lemma digits_nonneg n : 0 <= digits n.
Proof. destruct n; cbn; lia. Qed.

Lemma digits_unique n d : 0 < n -> 2 ^ (d - 1) <= n < 2 ^ d -> digits n = d.
Proof.
  intros Hn [Hlo Hhi].
  pose proof (digits_bounds Hn) as [Dlo Dhi].
  pose proof (digits_pos Hn) as Dp.
  assert (0 < d).
  { destruct (Z.lt_ge_cases 0 d); [assumption|].
    destruct (Z.eq_dec d 0) as [->|]; [cbn in Hhi; lia|].
    rewrite (Z.pow_neg_r 2 d) in Hhi by lia. lia. }
  destruct (Z.lt_trichotomy (digits n) d) as [Hlt|[Heq|Hgt]]; [|exact Heq|].
  - assert (2 ^ digits n <= 2 ^ (d - 1)) by (apply Z.pow_le_mono_r; lia). lia.
  - assert (2 ^ d <= 2 ^ (digits n - 1)) by (apply Z.pow_le_mono_r; lia). lia.
Qed.

Lemma digits_le n d : 0 <= n -> 0 <= d -> n < 2 ^ d -> digits n <= d.
Proof.
  intros Hn0 Hd Hn. destruct (Z.lt_ge_cases 0 n) as [Hp|Hp].
  - pose proof (digits_bounds Hp) as [Dlo _].
    destruct (Z.le_gt_cases (digits n) d); [assumption|].
    assert (2 ^ d <= 2 ^ (digits n - 1)) by (apply Z.pow_le_mono_r; lia). lia.
  - replace n with 0 by lia. cbn. lia.
Qed.

Lemma digits_ge n d : 0 < n -> 2 ^ (d - 1) <= n -> d <= digits n.
Proof.
  intros Hp Hn. pose proof (digits_bounds Hp) as [_ Dhi].
  destruct (Z.le_gt_cases d (digits n)); [assumption|].
  assert (2 ^ digits n <= 2 ^ (d - 1)) by (apply Z.pow_le_mono_r; lia). lia.
Qed.

Lemma digits_mono a b : 0 <= a <= b -> digits a <= digits b.
Proof.
  intros [Ha Hab]. destruct (Z.eq_dec a 0) as [->|].
  - apply digits_nonneg.
  - apply digits_le; [lia|apply digits_nonneg|].
    assert (0 < b) by lia. pose proof (digits_bounds H). lia.
Qed.

Lemma digits_mul_pow2 n k : 0 < n -> 0 <= k -> digits (n * 2 ^ k) = digits n + k.
Proof.
  intros Hn Hk. pose proof (digits_bounds Hn) as [Dlo Dhi].
  pose proof (pow2_gt0 Hk).
  apply digits_unique; [nia|].
  replace (digits n + k - 1) with ((digits n - 1) + k) by lia.
  pose proof (digits_pos Hn).
  rewrite !Z.pow_add_r by lia. nia.
Qed.

Lemma digits_div_pow2 n k :
  0 <= n -> 0 <= k -> digits (n / 2 ^ k) = Z.max (digits n - k) 0.
Proof.
  intros Hn Hk. pose proof (pow2_gt0 Hk) as Hp.
  destruct (Z.eq_dec n 0) as [->|Hn0].
  { rewrite Z.div_0_l by lia. cbn. lia. }
  assert (Hnp : 0 < n) by lia.
  pose proof (digits_bounds Hnp) as [Dlo Dhi].
  pose proof (digits_pos Hnp) as Dp.
  destruct (Z.le_gt_cases (digits n) k) as [Hle|Hgt].
  - assert (n < 2 ^ k).
    { assert (2 ^ digits n <= 2 ^ k) by (apply Z.pow_le_mono_r; lia). lia. }
    rewrite Z.div_small by lia. cbn. lia.
  - rewrite Z.max_l by lia.
    assert (E1 : 2 ^ digits n = 2 ^ (digits n - k) * 2 ^ k).
    { rewrite <- Z.pow_add_r by lia. f_equal. lia. }
    assert (E2 : 2 ^ (digits n - 1) = 2 ^ (digits n - k - 1) * 2 ^ k).
    { rewrite <- Z.pow_add_r by lia. f_equal. lia. }
    assert (Hq : 2 ^ (digits n - k - 1) <= n / 2 ^ k < 2 ^ (digits n - k)).
    { split.
      - apply Z.div_le_lower_bound; [lia|]. lia.
      - apply Z.div_lt_upper_bound; [lia|]. lia. }
    apply digits_unique; [|exact Hq].
    assert (0 < 2 ^ (digits n - k - 1)) by (apply pow2_gt0; lia). lia.
Qed.

(** *** Shifting a mantissa to the right *)

Lemma shr_1_nonneg m r s :
  0 <= m -> shr_1 {| shr_m := m; shr_r := r; shr_s := s |} =
            {| shr_m := m / 2; shr_r := Z.odd m; shr_s := r || s |}.
Proof.
  intros Hm. destruct m as [|p|p]; [reflexivity| |lia].
  destruct p as [p|p|]; cbn [shr_1].
  - f_equal. apply Z.div_unique with (r := 1); lia.
  - f_equal. apply Z.div_unique with (r := 0); lia.
  - reflexivity.
Qed.

Lemma div_mod_double N D :
  0 <= N -> 0 < D ->
  N / (2 * D) = N / D / 2 /\ N mod (2 * D) = (N / D mod 2) * D + N mod D.
Proof.
  intros HN HD.
  pose proof (Z.div_mod N D ltac:(lia)) as E.
  pose proof (Z.mod_pos_bound N D HD) as B.
  pose proof (Z.div_mod (N / D) 2 ltac:(lia)) as E2.
  pose proof (Z.mod_pos_bound (N / D) 2 ltac:(lia)) as B2.
  apply Z.div_mod_unique with (b := 2 * D).
  - left. apply Z.mod_pos_bound. lia.
  - left. nia.
  - rewrite <- Z.div_mod by lia. nia.
Qed.

Lemma shr_1_rec_of N D : 0 <= N -> 0 < D -> shr_1 (rec_of N D) = rec_of N (2 * D).
Proof.
  intros HN HD. unfold rec_of.
  rewrite shr_1_nonneg by (apply Z.div_pos; lia).
  destruct (div_mod_double HN HD) as [Eq Er]. rewrite Eq, Er.
  pose proof (Z.mod_pos_bound N D HD) as B.
  pose proof (Z.mod_pos_bound (N / D) 2 ltac:(lia)) as B2.
  rewrite (Zmod_odd (N / D)).
  f_equal.
  - destruct (Z.odd (N / D)).
    + symmetry. apply Z.leb_le. lia.
    + symmetry. apply Z.leb_gt. lia.
  - destruct (Z.odd (N / D));
      destruct (Z.leb_spec D (2 * (N mod D)));
      destruct (Z.eqb_spec (N mod D) 0);
      destruct (Z.eqb_spec (2 * (N mod D)) D);
      cbn [negb andb orb];
      repeat match goal with
             | |- context [Z.eqb ?a ?b] => destruct (Z.eqb_spec a b)
             end; cbn [negb andb]; try reflexivity; lia.
Qed.

Lemma iter_pos_shr_1 p N D :
  0 <= N -> 0 < D -> iter_pos shr_1 p (rec_of N D) = rec_of N (D * 2 ^ Zpos p).
Proof.
  intros HN. revert D.
  induction p as [p IH|p IH|]; intros D HD; cbn [iter_pos].
  - rewrite shr_1_rec_of by assumption.
    assert (0 < 2 ^ Zpos p) by (apply pow2_gt0; lia).
    rewrite IH by lia. rewrite IH by nia.
    f_equal. rewrite (Pos2Z.inj_xI p).
    replace (2 * Z.pos p + 1) with (Z.pos p + Z.pos p + 1) by lia.
    rewrite (Z.pow_add_r 2 (Z.pos p + Z.pos p) 1) by lia.
    rewrite (Z.pow_add_r 2 (Z.pos p) (Z.pos p)) by lia. lia.
  - assert (0 < 2 ^ Zpos p) by (apply pow2_gt0; lia).
    rewrite IH by lia. rewrite IH by nia.
    f_equal. rewrite (Pos2Z.inj_xO p).
    replace (2 * Z.pos p) with (Z.pos p + Z.pos p) by lia.
    rewrite (Z.pow_add_r 2 (Z.pos p) (Z.pos p)) by lia. lia.
  - rewrite shr_1_rec_of by assumption. f_equal. change (2 ^ 1) with 2. lia.
Qed.

Lemma shr_rec_of N D e n :
  0 <= N -> 0 < D ->
  shr (rec_of N D) e n = (rec_of N (D * 2 ^ Z.max 0 n), e + Z.max 0 n).
Proof.
  intros HN HD. destruct n as [|p|p]; cbn [shr].
  - cbn. rewrite Z.mul_1_r, Z.add_0_r. reflexivity.
  - rewrite iter_pos_shr_1 by assumption.
    rewrite Z.max_r by lia. reflexivity.
  - rewrite Z.max_l by lia. cbn. rewrite Z.mul_1_r, Z.add_0_r. reflexivity.
Qed.

Lemma shr_record_of_loc_rec rc :
  shr_record_of_loc (shr_m rc) (loc_of_shr_record rc) = rc.
Proof. destruct rc as [m [] []]; reflexivity. Qed.

Lemma rec_of_exact m : shr_record_of_loc m loc_Exact = rec_of m 1.
Proof.
  unfold rec_of. rewrite Z.div_1_r, Z.mod_1_r. reflexivity.
Qed.

(** *** Rounding to the nearest integer, ties to even *)

Lemma round_nearest_even_rec_of N D :
  0 <= N -> 0 < D ->
  round_nearest_even (shr_m (rec_of N D)) (loc_of_shr_record (rec_of N D)) = RNE N D.
Proof.
  intros HN HD. unfold rec_of, RNE. cbn [shr_m loc_of_shr_record].
  pose proof (Z.mod_pos_bound N D HD) as B.
  destruct (Z.leb_spec D (2 * (N mod D)));
    destruct (Z.eqb_spec (N mod D) 0);
    destruct (Z.eqb_spec (2 * (N mod D)) D);
    destruct (Z.ltb_spec (2 * (N mod D)) D);
    destruct (Z.ltb_spec D (2 * (N mod D)));
    cbn [negb andb round_nearest_even]; try reflexivity; lia.
Qed.

(** *** What [binary_round_aux] computes *)

Lemma RNE_nonneg N D : 0 <= N -> 0 < D -> 0 <= RNE N D.
Proof.
  intros HN HD. unfold RNE.
  assert (0 <= N / D) by (apply Z.div_pos; lia).
  destruct (_ <? _); [lia|]. destruct (_ <? _); [lia|]. destruct (Z.even _); lia.
Qed.

Theorem binary_round_aux_rec_of sx mx ex lx N D :
  0 <= N -> 0 < D ->
  shr_record_of_loc mx lx = rec_of N D ->
  binary_round_aux F32.prec F32.emax sx mx ex lx = round_core sx N D ex.
Proof.
  intros HN HD Hrec.
  assert (Hm : mx = N / D).
  { apply (f_equal shr_m) in Hrec. destruct lx as [|[]]; exact Hrec. }
  unfold binary_round_aux, shr_fexp. rewrite Hrec.
  rewrite shr_rec_of by assumption.
  set (k1 := Z.max 0 _).
  assert (Hk1 : k1 = round_shift (N / D) ex) by (subst k1 mx; reflexivity).
  assert (0 <= k1) by (subst k1; lia).
  assert (0 < D * 2 ^ k1) by (pose proof (pow2_gt0 H); nia).
  rewrite round_nearest_even_rec_of by assumption.
  rewrite rec_of_exact.
  rewrite shr_rec_of by (try apply RNE_nonneg; lia).
  unfold round_core, finish. cbv zeta. rewrite <- Hk1.
  cbn [shr_m rec_of]. rewrite Z.mul_1_l.
  reflexivity.
Qed.

(** *** Properties of rounding to the nearest integer *)

Lemma RNE_cases N D :
  0 < D ->
  (RNE N D = N / D /\ 2 * (N mod D) <= D) \/
  (RNE N D = N / D + 1 /\ D <= 2 * (N mod D)).
Proof.
  intros HD. unfold RNE.
  destruct (Z.ltb_spec (2 * (N mod D)) D); [left; split; lia|].
  destruct (Z.ltb_spec D (2 * (N mod D))); [right; split; lia|].
  destruct (Z.even (N / D)); [left | right]; split; lia.
Qed.

Lemma div_le_cross N1 D1 N2 D2 :
  0 < D1 -> 0 < D2 -> N1 * D2 <= N2 * D1 -> N1 / D1 <= N2 / D2.
Proof.
  intros H1 H2 H.
  pose proof (Z.div_mod N1 D1 ltac:(lia)).
  pose proof (Z.mod_pos_bound N1 D1 H1).
  pose proof (Z.div_mod N2 D2 ltac:(lia)).
  pose proof (Z.mod_pos_bound N2 D2 H2).
  destruct (Z.le_gt_cases (N1 / D1) (N2 / D2)); [assumption|].
  assert (N2 / D2 + 1 <= N1 / D1) by lia.
  assert ((N2 / D2 + 1) * D1 <= N1) by nia.
  assert (N2 < (N2 / D2 + 1) * D2) by nia.
  assert ((N2 / D2 + 1) * D1 * D2 <= N1 * D2) by nia.
  assert (N2 * D1 < (N2 / D2 + 1) * D2 * D1) by nia.
  nia.
Qed.

Lemma RNE_mono N1 D1 N2 D2 :
  0 < D1 -> 0 < D2 -> N1 * D2 <= N2 * D1 -> RNE N1 D1 <= RNE N2 D2.
Proof.
  intros H1 H2 H.
  pose proof (div_le_cross N1 N2 H1 H2 H) as Hq.
  pose proof (Z.div_mod N1 D1 ltac:(lia)) as E1.
  pose proof (Z.mod_pos_bound N1 D1 H1) as B1.
  pose proof (Z.div_mod N2 D2 ltac:(lia)) as E2.
  pose proof (Z.mod_pos_bound N2 D2 H2) as B2.
  destruct (Z.eq_dec (N1 / D1) (N2 / D2)) as [Eq|Ne].
  - assert (Hr : (N1 mod D1) * D2 <= (N2 mod D2) * D1) by nia.
    unfold RNE. rewrite Eq.
    destruct (Z.ltb_spec (2 * (N1 mod D1)) D1);
      destruct (Z.ltb_spec (2 * (N2 mod D2)) D2);
      destruct (Z.ltb_spec D1 (2 * (N1 mod D1)));
      destruct (Z.ltb_spec D2 (2 * (N2 mod D2)));
      destruct (Z.even (N2 / D2)); try lia; nia.
  - destruct (RNE_cases N1 H1) as [[-> _]|[-> _]];
      destruct (RNE_cases N2 H2) as [[-> _]|[-> _]]; lia.
Qed.

Lemma RNE_ext N1 D1 N2 D2 :
  0 < D1 -> 0 < D2 -> N1 * D2 = N2 * D1 -> RNE N1 D1 = RNE N2 D2.
Proof.
  intros H1 H2 H. apply Z.le_antisymm; apply RNE_mono; lia.
Qed.

Lemma RNE_exact m D : 0 < D -> RNE (m * D) D = m.
Proof.
  intros HD. unfold RNE. rewrite Z.div_mul, Z.mod_mul by lia.
  destruct (Z.ltb_spec (2 * 0) D); [reflexivity | lia].
Qed.

Lemma RNE_le_int N D m : 0 < D -> N <= m * D -> RNE N D <= m.
Proof.
  intros HD H. rewrite <- (RNE_exact m HD). apply RNE_mono; nia.
Qed.

Lemma RNE_ge_int N D m : 0 < D -> m * D <= N -> m <= RNE N D.
Proof.
  intros HD H. rewrite <- (RNE_exact m HD). apply RNE_mono; nia.
Qed.

(** The distance between a rational and its rounding is at most one half. *)
Lemma RNE_error N D : 0 < D -> 2 * Z.abs (RNE N D * D - N) <= D.
Proof.
  intros HD.
  pose proof (Z.div_mod N D ltac:(lia)) as E.
  pose proof (Z.mod_pos_bound N D HD) as B.
  destruct (RNE_cases N HD) as [[-> Hr]|[-> Hr]]; nia.
Qed.

(** *** Rounding a value counted in units of 2^-149 *)

Lemma rnd_shift_nonneg q : 0 <= rnd_shift q.
Proof. unfold rnd_shift. lia. Qed.

Lemma rnd_shift_mono a b : 0 <= a <= b -> rnd_shift a <= rnd_shift b.
Proof. intros H. unfold rnd_shift. pose proof (digits_mono H). lia. Qed.

Lemma rnd_ext N1 D1 N2 D2 :
  0 < D1 -> 0 < D2 -> N1 * D2 = N2 * D1 -> rnd N1 D1 = rnd N2 D2.
Proof.
  intros H1 H2 H. unfold rnd.
  assert (Eq : N1 / D1 = N2 / D2).
  { apply Z.le_antisymm; apply div_le_cross; lia. }
  rewrite Eq. set (k := rnd_shift (N2 / D2)).
  pose proof (pow2_gt0 (rnd_shift_nonneg (N2 / D2))). fold k in H0.
  f_equal. apply RNE_ext; nia.
Qed.

Lemma rnd_int_bounds N D k :
  0 <= N -> 0 < D -> k = rnd_shift (N / D) ->
  (0 < k -> 2 ^ 23 * (D * 2 ^ k) <= N) /\ N < 2 ^ 24 * (D * 2 ^ k).
Proof.
  intros HN HD Hk0.
  assert (Hq : 0 <= N / D) by (apply Z.div_pos; lia).
  pose proof (Z.div_mod N D ltac:(lia)) as E.
  pose proof (Z.mod_pos_bound N D HD) as B.
  pose proof (pow2_gt0 (rnd_shift_nonneg (N / D))) as Hk. rewrite <- Hk0 in Hk.
  unfold rnd_shift in Hk0.
  destruct (Z.eq_dec (N / D) 0) as [E0|Hq0].
  - assert (k = 0) by (rewrite Hk0, E0; cbn; lia).
    subst k. rewrite H. split; [lia|]. change (2 ^ 0) with 1.
    change (2 ^ 24) with 16777216. nia.
  - assert (Hqp : 0 < N / D) by lia.
    pose proof (digits_bounds Hqp) as [Dlo Dhi].
    pose proof (digits_pos Hqp) as Dp.
    destruct (Z.le_gt_cases (digits (N / D)) 24) as [Hle|Hgt].
    + assert (H : k = 0) by lia. rewrite H. split; [lia|].
      assert (2 ^ digits (N / D) <= 2 ^ 24) by (apply Z.pow_le_mono_r; lia).
      change (2 ^ 0) with 1. nia.
    + assert (Ek : digits (N / D) = k + 24) by lia.
      rewrite Ek in Dhi, Dlo.
      replace (k + 24 - 1) with (23 + k) in Dlo by lia.
      rewrite Z.pow_add_r in Dlo, Dhi by lia.
      split; [intros _|]; nia.
Qed.

Theorem rnd_mono N1 D1 N2 D2 :
  0 <= N1 -> 0 < D1 -> 0 < D2 -> N1 * D2 <= N2 * D1 -> rnd N1 D1 <= rnd N2 D2.
Proof.
  intros HN1 H1 H2 H.
  assert (HN2 : 0 <= N2) by nia.
  pose proof (div_le_cross N1 N2 H1 H2 H) as Hq.
  assert (Hq1 : 0 <= N1 / D1) by (apply Z.div_pos; lia).
  pose proof (rnd_shift_mono (conj Hq1 Hq)) as Hk.
  pose proof (rnd_int_bounds HN1 H1 eq_refl) as [_ Hhi1].
  pose proof (rnd_int_bounds HN2 H2 eq_refl) as [Hlo2 _].
  unfold rnd. cbv zeta in *.
  set (k1 := rnd_shift (N1 / D1)) in *. set (k2 := rnd_shift (N2 / D2)) in *.
  pose proof (rnd_shift_nonneg (N1 / D1)) as K1. fold k1 in K1.
  pose proof (pow2_gt0 K1) as P1.
  assert (K2 : 0 <= k2) by lia. pose proof (pow2_gt0 K2) as P2.
  destruct (Z.eq_dec k1 k2) as [Ek|Nk].
  - rewrite Ek in *. apply Z.mul_le_mono_nonneg_r; [lia|].
    apply RNE_mono; nia.
  - assert (Hlt : k1 < k2) by lia.
    assert (Hlo : 2 ^ 23 * (D2 * 2 ^ k2) <= N2) by (apply Hlo2; lia).
    assert (E : 2 ^ k2 = 2 ^ (k2 - k1 - 1) * 2 * 2 ^ k1).
    { replace k2 with ((k2 - k1 - 1) + 1 + k1) at 1 by lia.
      rewrite !Z.pow_add_r by lia. reflexivity. }
    assert (P3 : 0 < 2 ^ (k2 - k1 - 1)) by (apply pow2_gt0; lia).
    assert (A : RNE N1 (D1 * 2 ^ k1) <= 2 ^ 24) by (apply RNE_le_int; nia).
    assert (B : 2 ^ 23 <= RNE N2 (D2 * 2 ^ k2)) by (apply RNE_ge_int; nia).
    change (2 ^ 24) with 16777216 in A. change (2 ^ 23) with 8388608 in B.
    remember (RNE N1 (D1 * 2 ^ k1)) as a. remember (RNE N2 (D2 * 2 ^ k2)) as b.
    assert (a * 2 ^ k1 <= 16777216 * 2 ^ k1) by nia.
    assert (8388608 * 2 ^ k2 <= b * 2 ^ k2) by nia.
    assert (16777216 * 2 ^ k1 <= 8388608 * 2 ^ k2) by nia.
    lia.
Qed.

(** *** Non-negative binary32 numbers and their values *)

Lemma bounded_inv m e :
  bounded F32.prec F32.emax m e = true ->
  Z.max (digits (Zpos m) + e - 24) (-149) = e /\ e <= 104.
Proof.
  unfold bounded, canonical_mantissa. intros H.
  apply andb_true_iff in H. destruct H as [H1 H2].
  apply Z.eqb_eq in H1. apply Z.leb_le in H2.
  split; [exact H1 | exact H2].
Qed.

Lemma bounded_intro m e :
  Z.max (digits (Zpos m) + e - 24) (-149) = e -> e <= 104 ->
  bounded F32.prec F32.emax m e = true.
Proof.
  intros H1 H2. unfold bounded, canonical_mantissa.
  apply andb_true_iff. split; [apply Z.eqb_eq; exact H1 | apply Z.leb_le; exact H2].
Qed.

Lemma finite_value m e :
  bounded F32.prec F32.emax m e = true ->
  let V := Zpos m * 2 ^ (e + 149) in
  0 < V /\ digits V = digits (Zpos m) + e + 149 /\ rnd_shift V = e + 149.
Proof.
  intros H V. apply bounded_inv in H. destruct H as [Hc He].
  assert (Ha : 0 <= e + 149) by lia.
  pose proof (pow2_gt0 Ha).
  assert (Hd : digits V = digits (Zpos m) + e + 149).
  { unfold V. rewrite digits_mul_pow2 by lia. lia. }
  split; [unfold V; nia|]. split; [exact Hd|].
  unfold rnd_shift. rewrite Hd. lia.
Qed.

Lemma Z2B_B2Z v : nonneg v = true -> Z2B (B2Z v) = v.
Proof.
  destruct v as [[]|[]| |[] m e]; try discriminate; [reflexivity|].
  cbn [nonneg B2Z]. intros H.
  destruct (@finite_value m e H) as (Hpos & Hd & Hk).
  apply bounded_inv in H. destruct H as [Hc He].
  unfold Z2B. rewrite Hk.
  rewrite Z.div_mul by (apply Z.pow_nonzero; lia).
  replace (e + 149 - 149) with e by lia.
  unfold finish. apply Z.leb_le in He. rewrite He. reflexivity.
Qed.

Lemma B2Z_nonneg v : 0 <= B2Z v.
Proof.
  destruct v as [s|s| |[] m e]; cbn [B2Z]; lia.
Qed.

Lemma pow2_277_split e : 0 <= e + 149 -> e <= 104 -> 2 ^ 277 = 2 ^ (104 - e) * 2 ^ 24 * 2 ^ (e + 149).
Proof.
  intros. rewrite <- !Z.pow_add_r by lia. f_equal. lia.
Qed.

Lemma repr_B2Z v : nonneg v = true -> repr (B2Z v).
Proof.
  destruct v as [[]|[]| |[] m e]; try discriminate.
  - intros _. split; [cbn; lia | reflexivity].
  - cbn [nonneg B2Z]. intros H.
    destruct (@finite_value m e H) as (Hpos & Hd & Hk). cbv zeta in *.
    apply bounded_inv in H. destruct H as [Hc He].
    split; [|rewrite Hk; apply Z.mod_mul, Z.pow_nonzero; lia].
    split; [lia|].
    assert (Ha : 0 <= e + 149) by lia.
    pose proof (digits_bounds (Pos2Z.is_pos m)) as [_ Dm].
    assert (digits (Zpos m) <= 24) by lia.
    assert (2 ^ digits (Zpos m) <= 2 ^ 24)
      by (apply Z.pow_le_mono_r; [lia | assumption]).
    rewrite (pow2_277_split Ha He).
    pose proof (pow2_gt0 Ha).
    assert (0 < 2 ^ (104 - e)) by (apply pow2_gt0; lia).
    nia.
Qed.

Lemma Z2B_0 : Z2B 0 = S754_zero false.
Proof. reflexivity. Qed.

Lemma repr_pos_split V :
  repr V -> 0 < V ->
  let k := rnd_shift V in
  let m := V / 2 ^ k in
  V = m * 2 ^ k /\ 0 < m /\ digits m = digits V - k /\ k <= 253.
Proof.
  intros [[H0 Hlt] Hmod] Hpos k m.
  pose proof (rnd_shift_nonneg V) as Hk. fold k in Hk.
  pose proof (pow2_gt0 Hk) as Pk.
  assert (E : V = m * 2 ^ k).
  { unfold m. pose proof (Z.div_mod V (2 ^ k) ltac:(lia)). fold k in Hmod. lia. }
  assert (Hm : 0 < m) by nia.
  pose proof (digits_pos Hpos) as Dp.
  assert (Dk : digits V <= 277) by (apply digits_le; lia).
  split; [exact E|]. split; [exact Hm|]. split.
  - unfold m. rewrite digits_div_pow2 by lia.
    unfold k, rnd_shift. lia.
  - unfold k, rnd_shift. lia.
Qed.

Lemma Z2B_repr V : repr V -> nonneg (Z2B V) = true /\ B2Z (Z2B V) = V.
Proof.
  intros HV. destruct (Z.eq_dec V 0) as [->|Hne]; [split; reflexivity|].
  assert (Hpos : 0 < V) by (destruct HV as [[? ?] _]; lia).
  destruct (repr_pos_split HV Hpos) as (E & Hm & Hd & Hk). cbv zeta in *.
  unfold Z2B. set (k := rnd_shift V) in *. set (m := V / 2 ^ k) in *.
  destruct m as [|p|p] eqn:Em; try lia.
  unfold finish.
  assert (Hle : (k - 149 <=? 104) = true) by (apply Z.leb_le; lia).
  rewrite Hle. cbn [nonneg B2Z].
  pose proof (rnd_shift_nonneg V) as K0. fold k in K0.
  split.
  - apply bounded_intro; [|lia].
    rewrite Hd. unfold k, rnd_shift. lia.
  - replace (k - 149 + 149) with k by lia. lia.
Qed.

Lemma nonneg_Z2B V : repr V -> nonneg (Z2B V) = true.
Proof. intros H. apply (Z2B_repr H). Qed.

Lemma B2Z_Z2B V : repr V -> B2Z (Z2B V) = V.
Proof. intros H. apply (Z2B_repr H). Qed.

(** *** From [binary_round_aux] to [rnd] *)

Lemma round_shift_eq q ex :
  round_shift q ex = Z.max 0 (Z.max (digits q - 24) (-149 - ex)).
Proof.
  unfold round_shift, fexp32, fexp, emin, F32.prec, F32.emax. lia.
Qed.

Lemma finish_Z2B m1 e1 :
  0 <= m1 -> -149 <= e1 -> m1 = 0 \/ 24 <= digits m1 \/ e1 = -149 ->
  finish false (m1 / 2 ^ round_shift m1 e1) (e1 + round_shift m1 e1) =
  Z2B (m1 * 2 ^ (e1 + 149)).
Proof.
  intros Hm He Hc.
  destruct (Z.eq_dec m1 0) as [->|Hne]; [reflexivity|].
  assert (Hp : 0 < m1) by lia.
  assert (Hd : 24 <= digits m1 \/ e1 = -149) by (destruct Hc as [?|[?|?]]; [lia|now left|now right]).
  unfold Z2B.
  assert (Ha : 0 <= e1 + 149) by lia.
  assert (Hk : rnd_shift (m1 * 2 ^ (e1 + 149)) = round_shift m1 e1 + (e1 + 149)).
  { unfold rnd_shift. rewrite digits_mul_pow2 by lia. rewrite round_shift_eq.
    pose proof (digits_pos Hp). lia. }
  rewrite Hk.
  assert (Hr : 0 <= round_shift m1 e1) by (rewrite round_shift_eq; lia).
  rewrite (Z.pow_add_r 2 (round_shift m1 e1) (e1 + 149)) by lia.
  rewrite Z.div_mul_cancel_r by (apply Z.pow_nonzero; lia).
  f_equal. lia.
Qed.

Lemma digits_div_scale N D a :
  0 < D -> 0 < N / D -> 0 <= a -> digits (N * 2 ^ a / D) = digits (N / D) + a.
Proof.
  intros HD Hq Ha.
  pose proof (digits_bounds Hq) as [Dlo Dhi].
  pose proof (digits_pos Hq) as Dp.
  pose proof (Z.div_mod N D ltac:(lia)) as E.
  pose proof (Z.mod_pos_bound N D HD) as B.
  pose proof (pow2_gt0 Ha) as Pa.
  assert (P1 : 0 < 2 ^ (digits (N / D) - 1)) by (apply pow2_gt0; lia).
  assert (Hq' : 2 ^ (digits (N / D) + a - 1) <= N * 2 ^ a / D < 2 ^ (digits (N / D) + a)).
  { replace (digits (N / D) + a - 1) with ((digits (N / D) - 1) + a) by lia.
    rewrite !Z.pow_add_r by lia.
    assert (A1 : D * 2 ^ (digits (N / D) - 1) <= N) by nia.
    assert (A2 : N < D * 2 ^ digits (N / D)) by nia.
    split.
    - apply Z.div_le_lower_bound; [lia|].
      rewrite Z.mul_assoc. apply Z.mul_le_mono_nonneg_r; lia.
    - apply Z.div_lt_upper_bound; [lia|].
      rewrite Z.mul_assoc. apply Z.mul_lt_mono_pos_r; lia. }
  apply digits_unique; [|exact Hq'].
  assert (0 < 2 ^ (digits (N / D) + a - 1)) by (apply pow2_gt0; lia). lia.
Qed.

Lemma RNE_ge_23 N D k :
  0 <= N -> 0 < D -> k = rnd_shift (N / D) -> 24 <= digits (N / D) ->
  24 <= digits (RNE N (D * 2 ^ k)).
Proof.
  intros HN HD Hk Hd.
  pose proof (rnd_shift_nonneg (N / D)) as K0. rewrite <- Hk in K0.
  pose proof (pow2_gt0 K0) as Pk.
  assert (Hlo : 2 ^ 23 * (D * 2 ^ k) <= N).
  { destruct (Z.eq_dec k 0) as [E0|Hne].
    - rewrite E0. change (2 ^ 0) with 1.
      assert (Hq : 0 < N / D).
      { destruct (Z.eq_dec (N / D) 0) as [E|]; [rewrite E in Hd; cbn in Hd; lia|].
        assert (0 <= N / D) by (apply Z.div_pos; lia). lia. }
      pose proof (digits_bounds Hq) as [Dlo _].
      assert (2 ^ 23 <= 2 ^ (digits (N / D) - 1)) by (apply Z.pow_le_mono_r; lia).
      pose proof (Z.div_mod N D ltac:(lia)) as E.
      pose proof (Z.mod_pos_bound N D HD) as B. nia.
    - apply (rnd_int_bounds HN HD Hk). lia. }
  assert (Hm : 2 ^ 23 <= RNE N (D * 2 ^ k)) by (apply RNE_ge_int; nia).
  apply digits_ge; [|exact Hm].
  change (2 ^ 23) with 8388608 in Hm. lia.
Qed.

Theorem round_core_rnd N D ex :
  0 <= N -> 0 < D -> -149 <= ex -> 24 <= digits (N / D) \/ ex = -149 ->
  round_core false N D ex = Z2B (rnd (N * 2 ^ (ex + 149)) D).
Proof.
  intros HN HD He Hc. unfold round_core. cbv zeta.
  assert (Hq0 : 0 <= N / D) by (apply Z.div_pos; lia).
  assert (Hk1 : round_shift (N / D) ex = rnd_shift (N / D)).
  { rewrite round_shift_eq. unfold rnd_shift. lia. }
  rewrite Hk1. set (k1 := rnd_shift (N / D)).
  assert (K1 : 0 <= k1) by apply rnd_shift_nonneg.
  pose proof (pow2_gt0 K1) as P1.
  set (m1 := RNE N (D * 2 ^ k1)).
  assert (Hm1 : 0 <= m1) by (apply RNE_nonneg; nia).
  rewrite finish_Z2B; try lia.
  - f_equal. unfold rnd.
    assert (Ha : 0 <= ex + 149) by lia.
    pose proof (pow2_gt0 Ha) as Pa.
    assert (Hk : rnd_shift (N * 2 ^ (ex + 149) / D) = k1 + (ex + 149)).
    { destruct Hc as [Hd | ->].
      - assert (0 < N / D).
        { destruct (Z.eq_dec (N / D) 0) as [E|]; [rewrite E in Hd; cbn in Hd; lia | lia]. }
        unfold rnd_shift. rewrite digits_div_scale by lia.
        unfold k1, rnd_shift. lia.
      - change (2 ^ (-149 + 149)) with 1. rewrite Z.mul_1_r. fold k1. lia. }
    rewrite Hk.
    replace (ex + k1 + 149) with (k1 + (ex + 149)) by lia.
    apply (f_equal (fun z => z * 2 ^ (k1 + (ex + 149)))).
    assert (Pk : 0 < 2 ^ (k1 + (ex + 149))) by (apply pow2_gt0; lia).
    unfold m1. apply RNE_ext; [nia | nia |].
    rewrite (Z.pow_add_r 2 k1 (ex + 149)) by lia. ring.
  - destruct Hc as [Hd | ->].
    + right. left. apply RNE_ge_23; [assumption..|reflexivity|assumption].
    + destruct (Z.eq_dec k1 0) as [E0|Hne]; [right; right; lia|].
      right. left. apply RNE_ge_23; [assumption..|reflexivity|].
      unfold k1, rnd_shift in Hne. lia.
Qed.

Theorem round_core_rnd_low N D ex :
  0 <= N -> 0 < D -> ex < -149 ->
  round_core false N D ex = Z2B (rnd N (D * 2 ^ (-149 - ex))).
Proof.
  intros HN HD He. unfold round_core. cbv zeta.
  assert (Hq0 : 0 <= N / D) by (apply Z.div_pos; lia).
  set (b := -149 - ex). assert (Hb : 0 < b) by (unfold b; lia).
  pose proof (pow2_gt0 (Z.lt_le_incl _ _ Hb)) as Pb.
  assert (Hq : N / (D * 2 ^ b) = N / D / 2 ^ b) by (rewrite Z.div_div by lia; reflexivity).
  assert (Hk : round_shift (N / D) ex = rnd_shift (N / (D * 2 ^ b)) + b).
  { rewrite round_shift_eq, Hq. unfold rnd_shift.
    rewrite digits_div_pow2 by lia. fold b. lia. }
  rewrite Hk. set (k := rnd_shift (N / (D * 2 ^ b))).
  assert (K0 : 0 <= k) by apply rnd_shift_nonneg.
  pose proof (pow2_gt0 K0) as Pk.
  assert (ED : D * 2 ^ (k + b) = D * 2 ^ b * 2 ^ k).
  { rewrite Z.pow_add_r by lia. lia. }
  rewrite ED. set (m1 := RNE N (D * 2 ^ b * 2 ^ k)).
  assert (Hm1 : 0 <= m1) by (apply RNE_nonneg; nia).
  rewrite finish_Z2B; try lia.
  - f_equal. unfold rnd. fold k. fold m1. f_equal. f_equal. unfold b. lia.
  - destruct (Z.eq_dec k 0) as [E0|Hne]; [right; right; unfold b; lia|].
    right. left. apply RNE_ge_23; [lia|nia|reflexivity|].
    unfold k, rnd_shift in Hne. lia.
Qed.

(** *** Numbers of the format are fixed by the rounding *)

Lemma rnd_nonneg N D : 0 <= N -> 0 < D -> 0 <= rnd N D.
Proof.
  intros HN HD. unfold rnd.
  pose proof (pow2_gt0 (rnd_shift_nonneg (N / D))).
  assert (0 <= RNE N (D * 2 ^ rnd_shift (N / D))) by (apply RNE_nonneg; nia).
  nia.
Qed.

Lemma pow2_divides V c j k : 0 <= j <= k -> V = c * 2 ^ k -> V mod 2 ^ j = 0.
Proof.
  intros Hjk ->.
  replace k with ((k - j) + j) by lia. rewrite Z.pow_add_r by lia.
  rewrite Z.mul_assoc. apply Z.mod_mul, Z.pow_nonzero; lia.
Qed.

Theorem rnd_repr N D : 0 <= N -> 0 < D -> rnd N D < 2 ^ 277 -> repr (rnd N D).
Proof.
  intros HN HD Hlt.
  split; [split; [now apply rnd_nonneg | exact Hlt]|].
  unfold rnd in *. set (k := rnd_shift (N / D)) in *.
  assert (K0 : 0 <= k) by apply rnd_shift_nonneg.
  pose proof (pow2_gt0 K0) as Pk.
  pose proof (rnd_int_bounds HN HD eq_refl) as [_ Hhi]. fold k in Hhi.
  set (m := RNE N (D * 2 ^ k)) in *.
  assert (Hm0 : 0 <= m) by (apply RNE_nonneg; nia).
  assert (Hm : m <= 2 ^ 24) by (apply RNE_le_int; nia).
  destruct (Z.eq_dec m 0) as [E0|Hne]; [rewrite E0; reflexivity|].
  destruct (Z.eq_dec m (2 ^ 24)) as [E24|Hne24].
  - rewrite E24. rewrite <- Z.pow_add_r by lia.
    apply pow2_divides with (c := 1) (k := 24 + k); [|lia].
    unfold rnd_shift.
    rewrite <- (Z.mul_1_l (2 ^ (24 + k))), digits_mul_pow2 by lia.
    change (digits 1) with 1. lia.
  - apply pow2_divides with (c := m) (k := k); [|reflexivity].
    unfold rnd_shift. rewrite digits_mul_pow2 by lia.
    assert (digits m <= 24) by (apply digits_le; lia). lia.
Qed.

Theorem rnd_id V D : repr V -> 0 < D -> rnd (V * D) D = V.
Proof.
  intros HV HD. unfold rnd. rewrite Z.div_mul by lia.
  destruct (Z.eq_dec V 0) as [->|Hne].
  { replace (0 * D) with (0 * (D * 2 ^ rnd_shift 0)) by ring.
    rewrite RNE_exact; [reflexivity|]. change (2 ^ rnd_shift 0) with 1. lia. }
  assert (Hpos : 0 < V) by (destruct HV as [[? ?] _]; lia).
  destruct (repr_pos_split HV Hpos) as (E & Hm & _). cbv zeta in *.
  set (k := rnd_shift V) in *.
  assert (K0 : 0 <= k) by apply rnd_shift_nonneg.
  pose proof (pow2_gt0 K0) as Pk.
  rewrite E at 1.
  replace (V / 2 ^ k * 2 ^ k * D) with (V / 2 ^ k * (D * 2 ^ k)) by lia.
  rewrite RNE_exact by nia. lia.
Qed.

(** *** The operations on non-negative numbers *)

Lemma pow2_mul a b : 0 <= a -> 0 <= b -> 2 ^ a * 2 ^ b = 2 ^ (a + b).
Proof. intros. rewrite Z.pow_add_r by lia. reflexivity. Qed.

Lemma rnd_0 D : 0 < D -> rnd 0 D = 0.
Proof. intros HD. apply (rnd_id (V := 0) (D := D)); [|exact HD]. split; [cbn; lia | reflexivity]. Qed.

Lemma iter_xO m d : Zpos (Pos.iter xO m d) = Zpos m * 2 ^ Zpos d.
Proof.
  induction d as [|d IH] using Pos.peano_ind.
  - cbn [Pos.iter]. rewrite (Pos2Z.inj_xO m). change (2 ^ 1) with 2. lia.
  - rewrite Pos.iter_succ, (Pos2Z.inj_xO (Pos.iter xO m d)), IH.
    rewrite Pos2Z.inj_succ, Z.pow_succ_r by lia. lia.
Qed.

Lemma shl_align_spec m e e' :
  e' <= e ->
  Zpos (fst (shl_align m e e')) = Zpos m * 2 ^ (e - e') /\
  snd (shl_align m e e') = e'.
Proof.
  intros H. unfold shl_align.
  destruct (e' - e) as [|d|d] eqn:E; try lia; cbn [fst snd].
  - replace (e - e') with 0 by lia. change (2 ^ 0) with 1. lia.
  - rewrite iter_xO. replace (e - e') with (Zpos d) by lia. lia.
Qed.

Lemma shl_align_id m e e' : e <= e' -> shl_align m e e' = (m, e).
Proof.
  intros H. unfold shl_align.
  destruct (e' - e) as [|d|d] eqn:E; try lia; reflexivity.
Qed.

Theorem binary_round_rnd M ez :
  -149 <= ez ->
  binary_round F32.prec F32.emax false M ez = Z2B (rnd (Zpos M * 2 ^ (ez + 149)) 1).
Proof.
  intros He. unfold binary_round.
  change (Zpos (digits2_pos M)) with (digits (Zpos M)).
  change (fexp F32.prec F32.emax) with fexp32.
  set (e' := fexp32 (digits (Zpos M) + ez)).
  assert (He' : e' = Z.max (digits (Zpos M) + ez - 24) (-149)) by reflexivity.
  pose proof (digits_pos (Pos2Z.is_pos M)) as Dp.
  destruct (Z.le_gt_cases ez e') as [Hle|Hgt].
  - rewrite shl_align_id by assumption.
    rewrite (@binary_round_aux_rec_of false (Zpos M) ez loc_Exact (Zpos M) 1)
      by (try apply rec_of_exact; lia).
    rewrite round_core_rnd; try lia; [reflexivity|].
    rewrite Z.div_1_r. lia.
  - destruct (@shl_align_spec M ez e' ltac:(lia)) as [Hm Hs].
    destruct (shl_align M ez e') as [mz ez']. cbn [fst snd] in Hm, Hs. subst ez'.
    assert (Hs : 0 <= ez - e') by lia. pose proof (pow2_gt0 Hs).
    rewrite (@binary_round_aux_rec_of false (Zpos mz) e' loc_Exact (Zpos mz) 1)
      by (try apply rec_of_exact; lia).
    rewrite round_core_rnd; try lia.
    + f_equal. f_equal. rewrite Hm, <- Z.mul_assoc, pow2_mul by lia.
      f_equal. f_equal. lia.
    + rewrite Z.div_1_r, Hm, digits_mul_pow2 by lia. lia.
Qed.

Lemma aligned_value m e ez :
  -149 <= ez <= e ->
  Zpos (fst (shl_align m e ez)) * 2 ^ (ez + 149) = Zpos m * 2 ^ (e + 149).
Proof.
  intros H. destruct (@shl_align_spec m e ez ltac:(lia)) as [-> _].
  rewrite <- Z.mul_assoc, pow2_mul by lia. f_equal. f_equal. lia.
Qed.

Lemma nonneg_finite_inv m e :
  nonneg (S754_finite false m e) = true ->
  -149 <= e <= 104 /\ digits (Zpos m) <= 24 /\ (-149 < e -> digits (Zpos m) = 24).
Proof.
  cbn [nonneg]. intros H. apply bounded_inv in H. lia.
Qed.

Theorem add_rnd x y :
  nonneg x = true -> nonneg y = true ->
  F32.add x y = Z2B (rnd (B2Z x + B2Z y) 1).
Proof.
  intros Hx Hy.
  pose proof (repr_B2Z _ Hx) as Rx. pose proof (repr_B2Z _ Hy) as Ry.
  destruct x as [[]|[]| |[] mx ex]; try discriminate;
    destruct y as [[]|[]| |[] my ey]; try discriminate.
  - reflexivity.
  - cbn [F32.add SFadd]. rewrite Z.add_0_l.
    rewrite <- (Z.mul_1_r (B2Z _)), rnd_id by (assumption || lia).
    symmetry. now apply Z2B_B2Z.
  - cbn [F32.add SFadd]. rewrite Z.add_0_r.
    rewrite <- (Z.mul_1_r (B2Z _)), rnd_id by (assumption || lia).
    symmetry. now apply Z2B_B2Z.
  - destruct (nonneg_finite_inv _ _ Hx) as (Ex & _). destruct (nonneg_finite_inv _ _ Hy) as (Ey & _).
    unfold F32.add, SFadd. cbv zeta. cbn [cond_Zopp Z.add binary_normalize].
    rewrite binary_round_rnd by lia.
    f_equal. f_equal. rewrite Pos2Z.inj_add, Z.mul_add_distr_r.
    rewrite !aligned_value by lia. reflexivity.
Qed.

Theorem sub_rnd x y :
  nonneg x = true -> nonneg y = true -> B2Z y <= B2Z x ->
  F32.sub x y = Z2B (rnd (B2Z x - B2Z y) 1).
Proof.
  intros Hx Hy Hle.
  pose proof (repr_B2Z _ Hx) as Rx. pose proof (repr_B2Z _ Hy) as Ry.
  destruct x as [[]|[]| |[] mx ex]; try discriminate;
    destruct y as [[]|[]| |[] my ey]; try discriminate.
  - reflexivity.
  - exfalso. destruct (@finite_value my ey Hy) as (Hp & _). cbn [B2Z] in Hle. lia.
  - cbn [F32.sub SFsub]. rewrite Z.sub_0_r.
    rewrite <- (Z.mul_1_r (B2Z _)), rnd_id by (assumption || lia).
    symmetry. now apply Z2B_B2Z.
  - destruct (nonneg_finite_inv _ _ Hx) as (Ex & _). destruct (nonneg_finite_inv _ _ Hy) as (Ey & _).
    unfold F32.sub, SFsub. cbv zeta. cbn [cond_Zopp].
    set (ez := Z.min ex ey).
    assert (Ez : 0 <= ez + 149) by (unfold ez; lia). pose proof (pow2_gt0 Ez) as Pz.
    assert (Ediff : (Zpos (fst (shl_align mx ex ez)) - Zpos (fst (shl_align my ey ez)))
                    * 2 ^ (ez + 149) = B2Z (S754_finite false mx ex) - B2Z (S754_finite false my ey)).
    { rewrite Z.mul_sub_distr_r, !aligned_value by (unfold ez; lia). reflexivity. }
    rewrite <- Ediff.
    destruct (Zpos (fst (shl_align mx ex ez)) - Zpos (fst (shl_align my ey ez)))
      as [|p|p] eqn:E; cbn [binary_normalize].
    + reflexivity.
    + apply binary_round_rnd. unfold ez. lia.
    + exfalso. try rewrite E in Ediff. cbn [B2Z] in Hle, Ediff. nia.
Qed.

Lemma digits_mul_ge a b : 0 < a -> 0 < b -> digits a + digits b - 1 <= digits (a * b).
Proof.
  intros Ha Hb.
  pose proof (digits_bounds Ha) as [A _]. pose proof (digits_bounds Hb) as [B _].
  pose proof (digits_pos Ha). pose proof (digits_pos Hb).
  apply digits_ge; [nia|].
  replace (digits a + digits b - 1 - 1) with ((digits a - 1) + (digits b - 1)) by lia.
  rewrite Z.pow_add_r by lia.
  assert (0 < 2 ^ (digits a - 1)) by (apply pow2_gt0; lia).
  assert (0 < 2 ^ (digits b - 1)) by (apply pow2_gt0; lia).
  nia.
Qed.

Theorem mul_rnd x y :
  nonneg x = true -> nonneg y = true ->
  F32.mul x y = Z2B (rnd (B2Z x * B2Z y) (2 ^ 149)).
Proof.
  intros Hx Hy.
  assert (P149 : 0 < 2 ^ 149) by (apply pow2_gt0; lia).
  destruct x as [[]|[]| |[] mx ex]; try discriminate;
    destruct y as [[]|[]| |[] my ey]; try discriminate;
    try (cbn [F32.mul SFmul B2Z xorb]; rewrite ?Z.mul_0_l, ?Z.mul_0_r, rnd_0 by lia; reflexivity).
  destruct (nonneg_finite_inv _ _ Hx) as (Ex & Dx & Nx).
  destruct (nonneg_finite_inv _ _ Hy) as (Ey & Dy & Ny).
  unfold F32.mul, SFmul. cbn [xorb B2Z].
  rewrite (@binary_round_aux_rec_of false (Zpos (mx * my)) (ex + ey) loc_Exact (Zpos (mx * my)) 1)
    by (try apply rec_of_exact; lia).
  rewrite Pos2Z.inj_mul.
  assert (Ax : 0 <= ex + 149) by lia. assert (Ay : 0 <= ey + 149) by lia.
  pose proof (pow2_gt0 Ax). pose proof (pow2_gt0 Ay).
  destruct (Z.le_gt_cases (-149) (ex + ey)) as [Hge|Hlt].
  - rewrite round_core_rnd; try lia.
    + f_equal. apply rnd_ext; try lia.
      rewrite Z.mul_1_r.
      replace (Zpos mx * 2 ^ (ex + 149) * (Zpos my * 2 ^ (ey + 149)))
        with (Zpos mx * Zpos my * (2 ^ (ex + 149) * 2 ^ (ey + 149))) by ring.
      rewrite pow2_mul by lia. rewrite <- !Z.mul_assoc. f_equal. f_equal.
      rewrite pow2_mul by lia. f_equal. lia.
    + left. rewrite Z.div_1_r.
      pose proof (@digits_mul_ge (Zpos mx) (Zpos my) ltac:(lia) ltac:(lia)).
      pose proof (digits_pos (Pos2Z.is_pos mx)). pose proof (digits_pos (Pos2Z.is_pos my)).
      destruct (Z.eq_dec ex (-149)); [|lia].
      assert (digits (Zpos my) = 24) by (apply Ny; lia). lia.
  - rewrite round_core_rnd_low; try lia.
    f_equal. apply rnd_ext; try lia.
    rewrite Z.mul_1_l.
    replace (Zpos mx * 2 ^ (ex + 149) * (Zpos my * 2 ^ (ey + 149)) * 2 ^ (-149 - (ex + ey)))
      with (Zpos mx * Zpos my * (2 ^ (ex + 149) * 2 ^ (ey + 149) * 2 ^ (-149 - (ex + ey)))) by ring.
    rewrite !pow2_mul by lia. f_equal. f_equal. lia.
Qed.

Lemma div_eucl_div_mod a b : Z.div_eucl a b = (a / b, a mod b).
Proof. unfold Z.div, Z.modulo. destruct (Z.div_eucl a b). reflexivity. Qed.

Lemma new_location_rec_of q N D :
  0 < D -> q = N / D ->
  shr_record_of_loc q (new_location D (N mod D)) = rec_of N D.
Proof.
  intros HD ->. unfold rec_of.
  pose proof (Z.mod_pos_bound N D HD) as B.
  set (r := N mod D) in *.
  unfold new_location.
  destruct (Z.even D) eqn:Ev.
  - unfold new_location_even.
    destruct (Z.eqb_spec r 0) as [E0|N0].
    + rewrite E0. cbn [shr_record_of_loc Z.mul Z.eqb negb andb].
      f_equal. symmetry. apply Z.leb_gt. lia.
    + destruct (Z.compare_spec (2 * r) D) as [E|L|G]; cbn [shr_record_of_loc];
        f_equal;
        repeat match goal with
               | |- context [Z.leb ?a ?b] => destruct (Z.leb_spec a b)
               | |- context [Z.eqb ?a ?b] => destruct (Z.eqb_spec a b)
               end; cbn [negb andb]; try reflexivity; lia.
  - assert (Hodd : Z.odd D = true) by (rewrite <- Z.negb_even, Ev; reflexivity).
    apply Z.odd_spec in Hodd. destruct Hodd as [c Hc].
    unfold new_location_odd.
    destruct (Z.eqb_spec r 0) as [E0|N0].
    + rewrite E0. cbn [shr_record_of_loc Z.mul Z.eqb negb andb].
      f_equal. symmetry. apply Z.leb_gt. lia.
    + destruct (Z.compare_spec (2 * r + 1) D) as [E|L|G]; cbn [shr_record_of_loc];
        f_equal;
        repeat match goal with
               | |- context [Z.leb ?a ?b] => destruct (Z.leb_spec a b)
               | |- context [Z.eqb ?a ?b] => destruct (Z.eqb_spec a b)
               end; cbn [negb andb]; try reflexivity; lia.
Qed.

Lemma digits_div_ge a b : 0 < a -> 0 < b -> digits a - digits b <= digits (a / b).
Proof.
  intros Ha Hb.
  pose proof (digits_bounds Ha) as [A _]. pose proof (digits_bounds Hb) as [_ B].
  pose proof (digits_pos Ha). pose proof (digits_pos Hb).
  destruct (Z.le_gt_cases (digits a) (digits b)) as [Hle|Hgt].
  - pose proof (digits_nonneg (a / b)). lia.
  - assert (P : 0 < 2 ^ (digits a - 1 - digits b)) by (apply pow2_gt0; lia).
    assert (E : 2 ^ (digits a - 1) = 2 ^ (digits a - 1 - digits b) * 2 ^ digits b).
    { rewrite pow2_mul by lia. f_equal. lia. }
    assert (Q : 2 ^ (digits a - 1 - digits b) <= a / b).
    { apply Z.div_le_lower_bound; [lia|]. nia. }
    apply digits_ge; [lia|].
    replace (digits a - digits b - 1) with (digits a - 1 - digits b) by lia. exact Q.
Qed.

Lemma shifted_mantissa m s :
  0 <= s ->
  match s with
  | Zpos _ => Z.shiftl (Zpos m) s
  | Z0 => Zpos m
  | Zneg _ => 0
  end = Zpos m * 2 ^ s.
Proof.
  intros Hs. destruct s as [|p|p]; try lia.
  apply Z.shiftl_mul_pow2. lia.
Qed.

Theorem div_rnd x y :
  nonneg x = true -> nonneg y = true -> 0 < B2Z y ->
  F32.div x y = Z2B (rnd (B2Z x * 2 ^ 149) (B2Z y)).
Proof.
  intros Hx Hy Hpos.
  destruct y as [[]|[]| |[] my ey]; try discriminate.
  destruct x as [[]|[]| |[] mx ex]; try discriminate.
  - cbn [F32.div SFdiv xorb]. change (B2Z (S754_zero false)) with 0.
    rewrite Z.mul_0_l, (rnd_0 Hpos). reflexivity.
  - destruct (nonneg_finite_inv _ _ Hx) as (Ex & Dx & Nx).
    destruct (nonneg_finite_inv _ _ Hy) as (Ey & Dy & Ny).
    pose proof (digits_pos (Pos2Z.is_pos mx)) as Px.
    pose proof (digits_pos (Pos2Z.is_pos my)) as Py.
    unfold F32.div, SFdiv, SFdiv_core_binary. cbv zeta. cbn [xorb B2Z].
    change (Zdigits2 (Zpos mx)) with (digits (Zpos mx)).
    change (Zdigits2 (Zpos my)) with (digits (Zpos my)).
    change (fexp F32.prec F32.emax) with fexp32.
    set (d1 := digits (Zpos mx)) in *. set (d2 := digits (Zpos my)) in *.
    set (e' := Z.min (fexp32 (d1 + ex - (d2 + ey))) (ex - ey)).
    assert (He' : e' = Z.min (Z.max (d1 + ex - (d2 + ey) - 24) (-149)) (ex - ey))
      by reflexivity.
    set (s := ex - ey - e').
    assert (Hs : 0 <= s) by (unfold s; lia).
    rewrite (shifted_mantissa mx Hs).
    set (m' := Zpos mx * 2 ^ s).
    pose proof (pow2_gt0 Hs) as Ps.
    assert (Hm' : 0 < m') by (unfold m'; nia).
    rewrite div_eucl_div_mod.
    rewrite (@binary_round_aux_rec_of false (m' / Zpos my) e'
               (new_location (Zpos my) (m' mod Zpos my)) m' (Zpos my))
      by (try apply new_location_rec_of; lia).
    assert (Ax : 0 <= ex + 149) by lia. assert (Ay : 0 <= ey + 149) by lia.
    pose proof (pow2_gt0 Ax). pose proof (pow2_gt0 Ay).
    destruct (Z.le_gt_cases (-149) e') as [Hge|Hlt].
    + rewrite round_core_rnd; try lia.
      * f_equal. apply rnd_ext; try nia.
        unfold m'.
        replace (Zpos mx * 2 ^ s * 2 ^ (e' + 149) * (Zpos my * 2 ^ (ey + 149)))
          with (Zpos mx * Zpos my * (2 ^ s * 2 ^ (e' + 149) * 2 ^ (ey + 149))) by ring.
        replace (Zpos mx * 2 ^ (ex + 149) * 2 ^ 149 * Zpos my)
          with (Zpos mx * Zpos my * (2 ^ (ex + 149) * 2 ^ 149)) by ring.
        rewrite !pow2_mul by lia. f_equal. f_equal. unfold s. lia.
      * destruct (Z.eq_dec e' (-149)) as [E|NE]; [now right | left].
        pose proof (@digits_div_ge m' (Zpos my) Hm' ltac:(lia)) as Hd.
        unfold m' in Hd at 1. rewrite digits_mul_pow2 in Hd by lia.
        fold d1 d2 in Hd. unfold s in Hd. lia.
    + rewrite round_core_rnd_low; try lia.
      f_equal.
      assert (0 < 2 ^ (-149 - e')) by (apply pow2_gt0; lia).
      apply rnd_ext; try nia.
      unfold m'.
      replace (Zpos mx * 2 ^ s * (Zpos my * 2 ^ (ey + 149)))
        with (Zpos mx * Zpos my * (2 ^ s * 2 ^ (ey + 149))) by ring.
      replace (Zpos mx * 2 ^ (ex + 149) * 2 ^ 149 * (Zpos my * 2 ^ (-149 - e')))
        with (Zpos mx * Zpos my * (2 ^ (ex + 149) * 2 ^ 149 * 2 ^ (-149 - e'))) by ring.
      rewrite !pow2_mul by lia. f_equal. f_equal. unfold s. lia.
Qed.

(** *** Comparisons *)

Lemma finite_lt_by_exponent m1 e1 m2 e2 :
  nonneg (S754_finite false m1 e1) = true ->
  nonneg (S754_finite false m2 e2) = true ->
  e1 < e2 ->
  Zpos m1 * 2 ^ (e1 + 149) < Zpos m2 * 2 ^ (e2 + 149).
Proof.
  intros H1 H2 Hlt.
  destruct (nonneg_finite_inv _ _ H1) as (E1 & D1 & _).
  destruct (nonneg_finite_inv _ _ H2) as (E2 & _ & N2).
  assert (Hd2 : digits (Zpos m2) = 24) by (apply N2; lia).
  pose proof (digits_bounds (Pos2Z.is_pos m1)) as [_ B1].
  pose proof (digits_bounds (Pos2Z.is_pos m2)) as [B2 _].
  rewrite Hd2 in B2. change (2 ^ (24 - 1)) with 8388608 in B2.
  assert (Zpos m1 < 16777216).
  { assert (2 ^ digits (Zpos m1) <= 2 ^ 24) by (apply Z.pow_le_mono_r; lia).
    change (2 ^ 24) with 16777216 in *. lia. }
  assert (A1 : 0 <= e1 + 149) by lia.
  pose proof (pow2_gt0 A1) as P1.
  assert (E : 2 ^ (e2 + 149) = 2 ^ (e2 - e1 - 1) * 2 * 2 ^ (e1 + 149)).
  { replace (e2 + 149) with ((e2 - e1 - 1) + 1 + (e1 + 149)) by lia.
    rewrite !Z.pow_add_r by lia. reflexivity. }
  assert (P3 : 0 < 2 ^ (e2 - e1 - 1)) by (apply pow2_gt0; lia).
  rewrite E. nia.
Qed.

Theorem compare_B2Z x y :
  nonneg x = true -> nonneg y = true ->
  SFcompare x y = Some (B2Z x ?= B2Z y).
Proof.
  intros Hx Hy.
  destruct x as [[]|[]| |[] mx ex]; try discriminate;
    destruct y as [[]|[]| |[] my ey]; try discriminate.
  - reflexivity.
  - destruct (@finite_value my ey Hy) as (Hp & _). cbn [SFcompare B2Z].
    f_equal. symmetry. apply Z.compare_lt_iff. exact Hp.
  - destruct (@finite_value mx ex Hx) as (Hp & _). cbn [SFcompare B2Z].
    f_equal. symmetry. apply Z.compare_gt_iff. exact Hp.
  - cbn [SFcompare B2Z]. f_equal.
    destruct (Z.compare_spec ex ey) as [E|L|G].
    + subst ey. destruct (nonneg_finite_inv _ _ Hx) as (Ex & _).
      assert (A : 0 <= ex + 149) by lia. pose proof (pow2_gt0 A) as P.
      change (Pos.compare_cont Eq mx my) with (Zpos mx ?= Zpos my).
      destruct (Z.compare_spec (Zpos mx) (Zpos my)); symmetry;
        [apply Z.compare_eq_iff | apply Z.compare_lt_iff | apply Z.compare_gt_iff]; nia.
    + symmetry. apply Z.compare_lt_iff. now apply finite_lt_by_exponent.
    + symmetry. apply Z.compare_gt_iff. now apply finite_lt_by_exponent.
Qed.

Theorem leb_B2Z x y :
  nonneg x = true -> nonneg y = true -> F32.leb x y = (B2Z x <=? B2Z y).
Proof.
  intros Hx Hy. unfold F32.leb, SFleb. rewrite (compare_B2Z _ _ Hx Hy).
  unfold Z.leb. destruct (B2Z x ?= B2Z y); reflexivity.
Qed.

Theorem ltb_B2Z x y :
  nonneg x = true -> nonneg y = true -> F32.ltb x y = (B2Z x <? B2Z y).
Proof.
  intros Hx Hy. unfold F32.ltb, SFltb. rewrite (compare_B2Z _ _ Hx Hy).
  unfold Z.ltb. destruct (B2Z x ?= B2Z y); reflexivity.
Qed.

(** *** Bounds that follow from monotonicity *)

Lemma rnd_le_repr N D V :
  0 <= N -> 0 < D -> repr V -> N <= V * D -> rnd N D <= V.
Proof.
  intros HN HD HV H. rewrite <- (rnd_id HV HD). apply rnd_mono; nia.
Qed.

Lemma rnd_ge_repr N D V :
  0 < D -> repr V -> V * D <= N -> V <= rnd N D.
Proof.
  intros HD HV H. rewrite <- (rnd_id HV HD) at 1.
  destruct HV as [[? ?] _]. apply rnd_mono; nia.
Qed.

(** The rounding error is at most half of the last digit kept. *)
Lemma rnd_error N D :
  0 <= N -> 0 < D -> 2 * Z.abs (rnd N D * D - N) <= D * 2 ^ rnd_shift (N / D).
Proof.
  intros HN HD. unfold rnd.
  pose proof (pow2_gt0 (rnd_shift_nonneg (N / D))) as P.
  set (k := rnd_shift (N / D)) in *.
  pose proof (@RNE_error N (D * 2 ^ k) ltac:(nia)) as H.
  replace (RNE N (D * 2 ^ k) * 2 ^ k * D) with (RNE N (D * 2 ^ k) * (D * 2 ^ k)) by ring.
  exact H.
Qed.

Lemma rnd_shift_le V d : 0 <= V < 2 ^ d -> 24 <= d -> rnd_shift V <= d - 24.
Proof.
  intros [H0 H] Hd. unfold rnd_shift.
  assert (digits V <= d) by (apply digits_le; lia). lia.
Qed.

Lemma rnd_error_int X d :
  0 <= X < 2 ^ d -> 25 <= d -> Z.abs (rnd X 1 - X) <= 2 ^ (d - 25).
Proof.
  intros HX Hd'. assert (Hd : 24 <= d) by lia.
  pose proof (@rnd_error X 1 ltac:(lia) ltac:(lia)) as H.
  rewrite Z.div_1_r, Z.mul_1_r, Z.mul_1_l in H.
  pose proof (rnd_shift_le HX Hd) as Hk.
  pose proof (rnd_shift_nonneg X) as K0.
  assert (2 ^ rnd_shift X <= 2 ^ (d - 24)) by (apply Z.pow_le_mono_r; lia).
  replace (d - 24) with ((d - 25) + 1) in H0 by lia.
  rewrite Z.pow_add_r in H0 by lia. change (2 ^ 1) with 2 in H0. lia.
Qed.

(** *** The constants of the blender, in units of 2^-149 *)

Lemma B2Z_one : B2Z one = U.
Proof. reflexivity. Qed.

Lemma nonneg_one : nonneg one = true.
Proof. reflexivity. Qed.

Lemma nonneg_eps : nonneg eps = true.
Proof. reflexivity. Qed.

Lemma nonneg_one_eps : nonneg one_eps = true.
Proof. reflexivity. Qed.

Lemma B2Z_eps_pos : 0 < B2Z eps.
Proof. reflexivity. Qed.

Lemma B2Z_one_eps : B2Z one_eps = rnd (U + B2Z eps) 1.
Proof. vm_compute. reflexivity. Qed.

(** [1 + 1e-6] computed on Python floats and then rounded to float32 is the
    float32 sum of 1 and [1e-6]. *)
Lemma one_eps_from_double : F32.of_float (1 + 1e-6)%float = one_eps.
Proof. vm_compute. reflexivity. Qed.

(** The float32 value of [1e-6] is 8796093 * 2^-43; it lies below the
    decimal 10^-6 by less than 3e-15. *)
Lemma eps_value :
  eps = S754_finite false 8796093 (-43) /\
  B2Z eps * 10 ^ 6 < U /\ U * (10 ^ 9 - 3) < B2Z eps * 10 ^ 15.
Proof. vm_compute. repeat split. Qed.

Lemma repr_pow2 k : 0 <= k < 277 -> repr (2 ^ k).
Proof.
  intros Hk. split.
  - split; [apply Z.pow_nonneg; lia | apply Z.pow_lt_mono_r; lia].
  - apply pow2_divides with (c := 1) (k := k); [|lia].
    unfold rnd_shift.
    rewrite <- (Z.mul_1_l (2 ^ k)), digits_mul_pow2 by lia.
    change (digits 1) with 1. lia.
Qed.

Lemma repr_U : repr U.
Proof. apply repr_pow2. lia. Qed.

Lemma Z2B_U : Z2B U = one.
Proof. vm_compute. reflexivity. Qed.

(** *** weight + (1 - weight) = 1 *)

Lemma rnd_near_U S : U - 2 ^ 124 <= S <= U + 2 ^ 124 -> rnd S 1 = U.
Proof.
  intros [Hlo Hhi].
  assert (L : rnd (U - 2 ^ 124) 1 = U) by (vm_compute; reflexivity).
  assert (H : rnd (U + 2 ^ 124) 1 = U) by (vm_compute; reflexivity).
  assert (0 <= U - 2 ^ 124) by (vm_compute; discriminate).
  apply Z.le_antisymm.
  - rewrite <- H. apply rnd_mono; lia.
  - rewrite <- L at 1. apply rnd_mono; lia.
Qed.

Theorem complement_sums_to_one W :
  0 <= W <= U -> rnd (W + rnd (U - W) 1) 1 = U.
Proof.
  intros [H0 H1].
  destruct (Z.eq_dec W 0) as [->|Hne].
  - rewrite Z.sub_0_r, Z.add_0_l.
    rewrite <- (Z.mul_1_r U) at 1. rewrite (rnd_id repr_U) by lia.
    rewrite <- (Z.mul_1_r U) at 1. apply (rnd_id repr_U). lia.
  - assert (HX : 0 <= U - W < 2 ^ 149) by (fold U; lia).
    pose proof (@rnd_error_int (U - W) 149 HX ltac:(lia)) as Herr.
    change (2 ^ (149 - 25)) with (2 ^ 124) in Herr.
    apply rnd_near_U. lia.
Qed.

(** *** Sharpness values and weights *)

Lemma unit_interval_inv v :
  unit_interval v = true ->
  v = S754_zero true \/ (nonneg v = true /\ B2Z v <= U).
Proof.
  unfold unit_interval. intros H.
  apply andb_true_iff in H. destruct H as [H H3].
  apply andb_true_iff in H. destruct H as [H1 H2].
  destruct v as [[]|[]| |[] m e]; try discriminate.
  - now left.
  - right. split; [reflexivity | cbn; lia].
  - right. cbn [SpecFloat.valid_binary] in H1.
    assert (Hn : nonneg (S754_finite false m e) = true) by exact H1.
    split; [exact Hn|].
    rewrite (leb_B2Z _ _ Hn nonneg_one) in H3. rewrite B2Z_one in H3.
    apply Z.leb_le in H3. exact H3.
Qed.

Theorem add_eps_in_range v :
  unit_interval v = true -> in_sharpness_range (F32.add v eps).
Proof.
  intros H. destruct (unit_interval_inv _ H) as [-> | [Hn Hle]].
  - split; [reflexivity|]. vm_compute. split; discriminate.
  - rewrite (add_rnd _ _ Hn nonneg_eps).
    pose proof (B2Z_nonneg v) as Hv. pose proof B2Z_eps_pos as He.
    assert (Hhi : rnd (B2Z v + B2Z eps) 1 <= B2Z one_eps).
    { rewrite B2Z_one_eps. apply rnd_mono; lia. }
    assert (Hlo : B2Z eps <= rnd (B2Z v + B2Z eps) 1).
    { apply rnd_ge_repr; [lia | apply repr_B2Z, nonneg_eps | lia]. }
    assert (Hr : repr (rnd (B2Z v + B2Z eps) 1)).
    { apply rnd_repr; try lia.
      eapply Z.le_lt_trans; [exact Hhi|]. vm_compute. reflexivity. }
    split; [apply nonneg_Z2B, Hr|].
    rewrite (B2Z_Z2B Hr). lia.
Qed.

Lemma sharpness_bound : B2Z one_eps <= 2 ^ 150.
Proof. vm_compute. discriminate. Qed.

Lemma nonneg_Z2B_rnd N D V :
  0 <= N -> 0 < D -> rnd N D <= V -> V < 2 ^ 277 ->
  nonneg (Z2B (rnd N D)) = true /\ B2Z (Z2B (rnd N D)) = rnd N D.
Proof.
  intros HN HD Hle Hlt. apply Z2B_repr, rnd_repr; lia.
Qed.

Theorem weight_primary_unit sp ss :
  in_sharpness_range sp -> in_sharpness_range ss ->
  nonneg (weight_primary sp ss) = true /\ B2Z (weight_primary sp ss) <= U.
Proof.
  intros [Hp [Lp Up]] [Hs [Ls Us]].
  pose proof sharpness_bound as SB. pose proof B2Z_eps_pos as EP.
  unfold weight_primary. rewrite (add_rnd _ _ Hp Hs).
  set (SP := B2Z sp) in *. set (SS := B2Z ss) in *.
  assert (R151 : repr (2 ^ 151)) by (apply repr_pow2; lia).
  assert (E151 : 2 ^ 151 = 2 * 2 ^ 150) by reflexivity.
  assert (Tle : rnd (SP + SS) 1 <= 2 ^ 151)
    by (apply rnd_le_repr; [lia | lia | exact R151 | lia]).
  assert (Tge : SP <= rnd (SP + SS) 1).
  { apply rnd_ge_repr; [lia | apply repr_B2Z, Hp | lia]. }
  assert (L277 : 2 ^ 151 < 2 ^ 277) by (apply Z.pow_lt_mono_r; lia).
  destruct (@nonneg_Z2B_rnd (SP + SS) 1 (2 ^ 151)) as [Tn Tv]; try lia.
  set (T := rnd (SP + SS) 1) in *.
  rewrite (div_rnd _ _ Hp Tn) by (rewrite Tv; lia).
  rewrite Tv. fold SP.
  assert (P149 : 0 < 2 ^ 149) by (apply pow2_gt0; lia).
  assert (Wle : rnd (SP * 2 ^ 149) T <= U).
  { apply rnd_le_repr; [nia | lia | apply repr_U | unfold U; nia]. }
  assert (LU : U < 2 ^ 277) by (apply Z.pow_lt_mono_r; lia).
  destruct (@nonneg_Z2B_rnd (SP * 2 ^ 149) T U) as [Wn Wv]; try lia.
  split; [exact Wn | rewrite Wv; exact Wle].
Qed.

Theorem complement_weights w :
  nonneg w = true -> B2Z w <= U ->
  nonneg (F32.sub one w) = true /\
  B2Z (F32.sub one w) = rnd (U - B2Z w) 1 /\
  B2Z (F32.sub one w) <= U /\
  F32.add w (F32.sub one w) = one.
Proof.
  intros Hw Hle. pose proof (B2Z_nonneg w) as H0.
  assert (LU : U < 2 ^ 277) by (apply Z.pow_lt_mono_r; lia).
  rewrite (sub_rnd _ _ nonneg_one Hw) by (rewrite B2Z_one; exact Hle).
  rewrite B2Z_one.
  assert (Ale : rnd (U - B2Z w) 1 <= U) by (apply rnd_le_repr; [lia | lia | apply repr_U | lia]).
  destruct (@nonneg_Z2B_rnd (U - B2Z w) 1 U) as [An Av]; try lia.
  repeat split; try assumption; [rewrite Av; exact Ale|].
  rewrite (add_rnd _ _ Hw An), Av.
  rewrite complement_sums_to_one by lia. apply Z2B_U.
Qed.

(** *** Equal sharpness gives the weight one half *)

Lemma repr_double V : repr V -> 2 * V < 2 ^ 277 -> repr (2 * V).
Proof.
  intros HV Hlt.
  destruct (Z.eq_dec V 0) as [->|Hne]; [exact HV|].
  assert (Hpos : 0 < V) by (destruct HV as [[? ?] _]; lia).
  destruct (repr_pos_split HV Hpos) as (E & Hm & Hd & Hk). cbv zeta in *.
  split; [lia|].
  set (k := rnd_shift V) in *.
  pose proof (rnd_shift_nonneg V) as K0. fold k in K0.
  apply pow2_divides with (c := V / 2 ^ k) (k := k + 1).
  - unfold rnd_shift.
    replace (2 * V) with (V * 2 ^ 1) by (change (2 ^ 1) with 2; lia).
    rewrite digits_mul_pow2 by lia. unfold k, rnd_shift. lia.
  - rewrite Z.pow_add_r by lia. change (2 ^ 1) with 2. lia.
Qed.

Lemma Z2B_half : Z2B (2 ^ 148) = half.
Proof. vm_compute. reflexivity. Qed.

Theorem equal_sharpness_half s :
  in_sharpness_range s -> weight_primary s s = half.
Proof.
  intros [Hs [Ls Us]].
  pose proof sharpness_bound as SB. pose proof B2Z_eps_pos as EP.
  unfold weight_primary. rewrite (add_rnd _ _ Hs Hs).
  set (S := B2Z s) in *.
  assert (L : 2 ^ 151 < 2 ^ 277) by (apply Z.pow_lt_mono_r; lia).
  assert (E151 : 2 ^ 151 = 2 * 2 ^ 150) by reflexivity.
  assert (R2 : repr (2 * S)) by (apply repr_double; [apply repr_B2Z, Hs | lia]).
  replace (S + S) with (2 * S * 1) by lia.
  rewrite (rnd_id R2) by lia.
  destruct (Z2B_repr R2) as [Tn Tv].
  rewrite (div_rnd _ _ Hs Tn) by (rewrite Tv; lia).
  rewrite Tv. fold S.
  assert (R148 : repr (2 ^ 148)) by (apply repr_pow2; lia).
  rewrite (@rnd_ext (S * 2 ^ 149) (2 * S) (2 ^ 148 * 1) 1)
    by (try lia; change (2 ^ 149) with (2 * 2 ^ 148); ring).
  rewrite (rnd_id R148) by lia. apply Z2B_half.
Qed.

Lemma complement_half : F32.sub one half = half.
Proof. reflexivity. Qed.

(** *** One channel of one blended pixel: lines 148 to 151 *)

Lemma blend_channel_same_half p : blend_channel p p half half = p.
Proof. destruct p; vm_compute; reflexivity. Qed.

Lemma uint8_value_range b : 0 <= uint8_value b <= 255.
Proof. destruct b; vm_compute; split; discriminate. Qed.

Lemma of_uint8_value b :
  nonneg (F32.of_uint8 b) = true /\ B2Z (F32.of_uint8 b) = uint8_value b * U.
Proof. destruct b; vm_compute; split; reflexivity. Qed.

Lemma uint8_of_Z_value t : 0 <= t <= 255 -> uint8_value (F32.uint8_of_Z t) = t.
Proof.
  intros Ht. unfold F32.uint8_of_Z, uint8_value.
  rewrite Z.mod_small by lia.
  destruct (Byte.of_N (Z.to_N t)) as [b|] eqn:E.
  - apply Byte.to_of_N in E. rewrite E. lia.
  - apply Byte.of_N_None_iff in E. lia.
Qed.

Theorem trunc_nonneg v : nonneg v = true -> F32.trunc v = B2Z v / U.
Proof.
  destruct v as [[]|[]| |[] m e]; try discriminate; [reflexivity|].
  intros H. destruct (nonneg_finite_inv _ _ H) as (He & _).
  cbn [F32.trunc cond_Zopp B2Z]. unfold U.
  destruct (Z.leb_spec 0 e) as [Hp|Hn].
  - rewrite Z.pow_add_r by lia. rewrite Z.mul_assoc, Z.div_mul; [reflexivity|].
    apply Z.pow_nonzero; lia.
  - replace 149 with ((e + 149) + (- e)) at 2 by lia.
    rewrite (Z.pow_add_r 2 (e + 149) (- e)) by lia.
    rewrite (Z.mul_comm (2 ^ (e + 149)) (2 ^ (- e))).
    rewrite Z.div_mul_cancel_r; [reflexivity | |]; apply Z.pow_nonzero; lia.
Qed.

Lemma mul_uint8_rnd b w :
  nonneg w = true ->
  F32.mul (F32.of_uint8 b) w = Z2B (rnd (uint8_value b * B2Z w) 1).
Proof.
  intros Hw. destruct (of_uint8_value b) as [Hb Vb].
  rewrite (mul_rnd _ _ Hb Hw), Vb. f_equal.
  apply rnd_ext; [apply pow2_gt0; lia | lia |]. unfold U. ring.
Qed.

Lemma scaled_weight_bound c W :
  0 <= c <= 255 -> 0 <= W <= U ->
  let T := rnd (c * W) 1 in
  nonneg (Z2B T) = true /\ B2Z (Z2B T) = T /\ 0 <= T /\ T <= c * W + 2 ^ 132.
Proof.
  intros Hc HW T.
  assert (EU : U = 2 ^ 149) by reflexivity.
  assert (E157 : 2 ^ 157 = 256 * 2 ^ 149) by reflexivity.
  assert (HX : 0 <= c * W < 2 ^ 157) by nia.
  pose proof (@rnd_error_int (c * W) 157 HX ltac:(lia)) as Herr.
  change (2 ^ (157 - 25)) with (2 ^ 132) in Herr. fold T in Herr.
  assert (R157 : repr (2 ^ 157)) by (apply repr_pow2; lia).
  assert (Tle : T <= 2 ^ 157) by (apply rnd_le_repr; [lia | lia | exact R157 | lia]).
  assert (L : 2 ^ 157 < 2 ^ 277) by (apply Z.pow_lt_mono_r; lia).
  destruct (@nonneg_Z2B_rnd (c * W) 1 (2 ^ 157)) as [Tn Tv]; try lia.
  fold T in Tn, Tv.
  assert (0 <= T) by (apply rnd_nonneg; lia).
  repeat split; try assumption. lia.
Qed.

Lemma repr_255_5 : repr (511 * 2 ^ 148).
Proof.
  split; [split; [vm_compute; discriminate | vm_compute; reflexivity]|].
  vm_compute. reflexivity.
Qed.

Theorem blend_value_range p q w :
  nonneg w = true -> B2Z w <= U ->
  let v := blend_value p q w (F32.sub one w) in
  nonneg v = true /\ 0 <= B2Z v < 256 * U.
Proof.
  intros Hw Hle v. pose proof (B2Z_nonneg w) as H0.
  destruct (complement_weights _ Hw Hle) as (An & Av & Ale & _).
  pose proof (B2Z_nonneg (F32.sub one w)) as A0.
  set (W := B2Z w) in *. set (A := B2Z (F32.sub one w)) in *.
  assert (EU : U = 2 ^ 149) by reflexivity.
  assert (HWA : W + A <= U + 2 ^ 124).
  { destruct (Z.eq_dec W 0) as [E0|Hne].
    - assert (0 <= 2 ^ 124) by (apply Z.pow_nonneg; lia). lia.
    - assert (HX : 0 <= U - W < 2 ^ 149) by lia.
      pose proof (@rnd_error_int (U - W) 149 HX ltac:(lia)) as Herr.
      change (2 ^ (149 - 25)) with (2 ^ 124) in Herr. rewrite <- Av in Herr. lia. }
  pose proof (uint8_value_range p) as Rp. pose proof (uint8_value_range q) as Rq.
  destruct (@scaled_weight_bound (uint8_value p) W Rp ltac:(lia)) as (N1 & V1 & P1 & B1).
  destruct (@scaled_weight_bound (uint8_value q) A Rq ltac:(lia)) as (N2 & V2 & P2 & B2).
  unfold v, blend_value.
  rewrite (mul_uint8_rnd p _ Hw), (mul_uint8_rnd q _ An). fold W A.
  set (T1 := rnd (uint8_value p * W) 1) in *.
  set (T2 := rnd (uint8_value q * A) 1) in *.
  rewrite (add_rnd _ _ N1 N2), V1, V2.
  assert (Hsum : T1 + T2 <= 511 * 2 ^ 148).
  { assert (uint8_value p * W <= 255 * W) by nia.
    assert (uint8_value q * A <= 255 * A) by nia.
    assert (E1 : 2 ^ 148 = 16777216 * 2 ^ 124) by reflexivity.
    assert (E2 : 2 ^ 132 = 256 * 2 ^ 124) by reflexivity.
    assert (E3 : U = 33554432 * 2 ^ 124) by reflexivity.
    assert (0 < 2 ^ 124) by (apply pow2_gt0; lia).
    lia. }
  assert (Vle : rnd (T1 + T2) 1 <= 511 * 2 ^ 148)
    by (apply rnd_le_repr; [lia | lia | exact repr_255_5 | lia]).
  assert (L : 511 * 2 ^ 148 < 2 ^ 277) by (vm_compute; reflexivity).
  destruct (@nonneg_Z2B_rnd (T1 + T2) 1 (511 * 2 ^ 148)) as [Vn Vv]; try lia.
  split; [exact Vn|]. rewrite Vv.
  assert (0 <= rnd (T1 + T2) 1) by (apply rnd_nonneg; lia).
  assert (E4 : 2 * 2 ^ 148 = U) by reflexivity.
  lia.
Qed.

(** The blended channel is the integer part of the blended value. *)
Theorem blend_channel_trunc p q w :
  nonneg w = true -> B2Z w <= U ->
  let v := blend_value p q w (F32.sub one w) in
  0 <= F32.trunc v <= 255 /\
  uint8_value (blend_channel p q w (F32.sub one w)) = F32.trunc v.
Proof.
  intros Hw Hle v.
  destruct (blend_value_range p q _ Hw Hle) as [Vn [V0 V1]]. fold v in Vn, V0, V1.
  assert (PU : 0 < U) by (apply pow2_gt0; lia).
  assert (Ht : 0 <= F32.trunc v <= 255).
  { rewrite (trunc_nonneg _ Vn). split.
    - apply Z.div_pos; lia.
    - assert (B2Z v / U < 256) by (apply Z.div_lt_upper_bound; lia). lia. }
  split; [exact Ht|].
  unfold blend_channel, F32.to_uint8. fold v. now apply uint8_of_Z_value.
Qed.

(** *** The conversion the specification describes *)

Lemma truncation_is_not_rounding :
  weight_primary eps eps = half /\ weight_secondary eps eps = half /\
  blend_channel x03 x00 half half = x01 /\
  round_clamp_uint8 (blend_value x03 x00 half half) = x02.
Proof. vm_compute. repeat split. Qed.

End F32Round.

(** ** binary32 arithmetic: weights of positive sharpness values *)

Module F32Weights.

Import F32Spec F32Round.
Local Open Scope Z_scope.

Lemma pos_finite_inv v : pos_finite v = true -> nonneg v = true /\ 0 < B2Z v.
Proof.
  destruct v as [| | |[] m e]; try discriminate. intros H.
  split; [exact H|]. cbn [B2Z]. now destruct (finite_value _ _ H) as [H0 _].
Qed.

Lemma pos_finite_intro v : nonneg v = true -> 0 < B2Z v -> pos_finite v = true.
Proof.
  destruct v as [[]| | |[] m e]; try discriminate; cbn [B2Z]; try lia.
  intros H _. exact H.
Qed.

Lemma pos_finite_nonzero v : pos_finite v = true -> finite_nonzero v = true.
Proof. destruct v as [| | |[] m e]; try discriminate. intros H; exact H. Qed.

Lemma Z2B_overflow V : 2 ^ 277 <= V -> Z2B V = S754_infinity false.
Proof.
  intros H. pose proof (pow2_gt0 (k := 277) ltac:(lia)) as P.
  assert (Hpos : 0 < V) by lia.
  pose proof (digits_bounds Hpos) as [Lo Hi].
  assert (Hd : 278 <= digits V).
  { apply digits_ge; [exact Hpos|]. exact H. }
  unfold Z2B, rnd_shift. rewrite Z.max_l by lia.
  set (k := digits V - 24).
  assert (Hq : 2 ^ 23 <= V / 2 ^ k).
  { apply Z.div_le_lower_bound; [apply pow2_gt0; lia|].
    rewrite Z.mul_comm, <- Z.pow_add_r by lia.
    replace (23 + k) with (digits V - 1) by lia. exact Lo. }
  assert (P23 : 0 < 2 ^ 23) by (apply pow2_gt0; lia).
  destruct (V / 2 ^ k) as [|p|p] eqn:E; try lia.
  unfold finish. destruct (Z.leb_spec (k - 149) 104); [lia | reflexivity].
Qed.

Lemma rnd_pow2_277 : rnd (2 ^ 277) 1 = 2 ^ 277.
Proof. vm_compute. reflexivity. Qed.

Lemma rnd_overflow N : 2 ^ 277 <= N -> 2 ^ 277 <= rnd N 1.
Proof.
  intros H. rewrite <- rnd_pow2_277.
  pose proof (pow2_gt0 (k := 277) ltac:(lia)) as P.
  apply rnd_mono; lia.
Qed.

(** The sum of two positive numbers: finite, or an infinity. *)
Lemma add_positive x y :
  pos_finite x = true -> pos_finite y = true ->
  let T := rnd (B2Z x + B2Z y) 1 in
  F32.add x y = Z2B T /\ B2Z x <= T /\ B2Z y <= T /\
  (T < 2 ^ 277 -> pos_finite (Z2B T) = true /\ B2Z (Z2B T) = T) /\
  (2 ^ 277 <= T -> Z2B T = S754_infinity false).
Proof.
  intros Hx Hy T.
  destruct (pos_finite_inv _ Hx) as [Nx Px]. destruct (pos_finite_inv _ Hy) as [Ny Py].
  split; [apply (add_rnd _ _ Nx Ny)|].
  assert (Tx : B2Z x <= T) by (apply rnd_ge_repr; [lia | apply repr_B2Z, Nx | lia]).
  assert (Ty : B2Z y <= T) by (apply rnd_ge_repr; [lia | apply repr_B2Z, Ny | lia]).
  split; [exact Tx|]. split; [exact Ty|]. split.
  - intros Hlt.
    assert (R : repr T) by (apply rnd_repr; lia).
    destruct (Z2B_repr R) as [Tn Tv].
    split; [apply pos_finite_intro; [exact Tn | lia] | exact Tv].
  - apply Z2B_overflow.
Qed.

(** The weight of the primary image is a number between 0 and 1 as soon as
    the two sharpness values are positive. *)
Theorem weight_primary_positive sp ss :
  pos_finite sp = true -> pos_finite ss = true ->
  nonneg (weight_primary sp ss) = true /\ B2Z (weight_primary sp ss) <= U.
Proof.
  intros Hp Hs.
  destruct (add_positive _ _ Hp Hs) as (E & Tp & Ts & Hfin & Hinf). cbv zeta in *.
  destruct (pos_finite_inv _ Hp) as [Np Pp].
  unfold weight_primary. rewrite E.
  set (T := rnd (B2Z sp + B2Z ss) 1) in *.
  destruct (Z_lt_le_dec T (2 ^ 277)) as [Hlt|Hge].
  - destruct (Hfin Hlt) as [Tpos Tv].
    destruct (pos_finite_inv _ Tpos) as [Tn _].
    rewrite (div_rnd _ _ Np Tn) by (rewrite Tv; lia).
    rewrite Tv.
    assert (P149 : 0 < 2 ^ 149) by (apply pow2_gt0; lia).
    assert (Wle : rnd (B2Z sp * 2 ^ 149) T <= U).
    { apply rnd_le_repr; [nia | lia | apply repr_U | unfold U; nia]. }
    assert (LU : U < 2 ^ 277) by (apply Z.pow_lt_mono_r; lia).
    destruct (@nonneg_Z2B_rnd (B2Z sp * 2 ^ 149) T U) as [Wn Wv]; try lia.
    split; [exact Wn | rewrite Wv; exact Wle].
  - rewrite (Hinf Hge).
    destruct sp as [| | |[] m e]; try discriminate.
    split; [reflexivity|]. change (0 <= U). unfold U. apply Z.pow_nonneg. lia.
Qed.

(** Equal positive sharpness values give the weight one half, or zero when
    their sum is beyond the largest float32. *)
Theorem equal_positive_sharpness s :
  pos_finite s = true ->
  (2 * B2Z s < 2 ^ 277 /\ weight_primary s s = half) \/
  (2 ^ 277 <= 2 * B2Z s /\ weight_primary s s = zero).
Proof.
  intros Hs. destruct (pos_finite_inv _ Hs) as [Ns Ps].
  unfold weight_primary. rewrite (add_rnd _ _ Ns Ns).
  set (S := B2Z s) in *.
  destruct (Z_lt_le_dec (2 * S) (2 ^ 277)) as [Hlt|Hge]; [left | right];
    (split; [assumption|]).
  - assert (R2 : repr (2 * S)) by (apply repr_double; [apply repr_B2Z, Ns | lia]).
    replace (S + S) with (2 * S * 1) by lia.
    rewrite (rnd_id R2) by lia.
    destruct (Z2B_repr R2) as [Tn Tv].
    rewrite (div_rnd _ _ Ns Tn) by (rewrite Tv; lia).
    rewrite Tv. fold S.
    assert (R148 : repr (2 ^ 148)) by (apply repr_pow2; lia).
    rewrite (@rnd_ext (S * 2 ^ 149) (2 * S) (2 ^ 148 * 1) 1)
      by (try lia; change (2 ^ 149) with (2 * 2 ^ 148); ring).
    rewrite (rnd_id R148) by lia. apply Z2B_half.
  - rewrite Z2B_overflow by (apply rnd_overflow; lia).
    destruct s as [| | |[] m e]; try discriminate. reflexivity.
Qed.

(** The sign of the number that [binary_round_aux] returns. *)
Lemma binary_round_aux_opp mx ex lx :
  binary_round_aux F32.prec F32.emax true mx ex lx =
  SFopp (binary_round_aux F32.prec F32.emax false mx ex lx).
Proof.
  unfold binary_round_aux.
  destruct (shr_fexp F32.prec F32.emax mx ex lx) as [mrs' e'].
  destruct (shr_fexp F32.prec F32.emax _ e' loc_Exact) as [mrs'' e''].
  destruct (shr_m mrs''); [reflexivity | | reflexivity].
  destruct (e'' <=? F32.emax - F32.prec); reflexivity.
Qed.

Lemma add_opp_same m e :
  F32.add (S754_finite true m e) (S754_finite true m e) =
  SFopp (F32.add (S754_finite false m e) (S754_finite false m e)).
Proof.
  unfold F32.add, SFadd. rewrite Z.min_id.
  destruct (shl_align m e e) as [m' e'] eqn:E. cbn [fst cond_Zopp Z.opp Z.add].
  cbn [binary_normalize]. unfold binary_round.
  destruct (shl_align (m' + m') _ _) as [mz ez].
  apply binary_round_aux_opp.
Qed.

Lemma div_opp_opp m e r :
  F32.div (S754_finite true m e) (SFopp r) = F32.div (S754_finite false m e) r.
Proof. destruct r as [[]|[]| |[] m' e']; reflexivity. Qed.

(** The weight of two equal sharpness values does not depend on their sign. *)
Lemma weight_primary_opp m e :
  weight_primary (S754_finite true m e) (S754_finite true m e) =
  weight_primary (S754_finite false m e) (S754_finite false m e).
Proof.
  unfold weight_primary. rewrite add_opp_same. apply div_opp_opp.
Qed.

Theorem equal_sharpness_weights s :
  finite_nonzero s = true ->
  (weight_primary s s = half /\ weight_secondary s s = half) \/
  (weight_primary s s = zero /\ weight_secondary s s = one).
Proof.
  intros Hs.
  assert (H : weight_primary s s = half \/ weight_primary s s = zero).
  { destruct s as [| | |[] m e]; try discriminate.
    - rewrite weight_primary_opp.
      destruct (equal_positive_sharpness (S754_finite false m e) Hs) as [[_ E]|[_ E]];
        auto.
    - destruct (equal_positive_sharpness (S754_finite false m e) Hs) as [[_ E]|[_ E]];
        auto. }
  unfold weight_secondary.
  destruct H as [-> | ->]; [left | right]; split; reflexivity.
Qed.

Lemma blend_channel_same_zero_one p : blend_channel p p zero one = p.
Proof. destruct p; vm_compute; reflexivity. Qed.

Lemma nonneg_valid v : nonneg v = true -> SpecFloat.valid_binary F32.prec F32.emax v = true.
Proof. destruct v as [[]| | |[] m e]; try discriminate; intros H; [reflexivity | exact H]. Qed.

Lemma B2Z_256 : nonneg (F32.of_float 256) = true /\ B2Z (F32.of_float 256) = 256 * U.
Proof. split; reflexivity. Qed.

(** A value of the 8-bit range is stored as its integer part. *)
Theorem uint8_range_trunc v :
  in_uint8_range v = true ->
  0 <= F32.trunc v <= 255 /\ uint8_value (F32.to_uint8 v) = F32.trunc v.
Proof.
  unfold in_uint8_range. intros H.
  apply andb_true_iff in H. destruct H as [H H3].
  apply andb_true_iff in H. destruct H as [H1 H2].
  assert (R : 0 <= F32.trunc v <= 255).
  { destruct v as [[]|[]| |[] m e]; try discriminate; try (cbn; lia).
    assert (Hn : nonneg (S754_finite false m e) = true) by exact H1.
    destruct B2Z_256 as [N256 V256].
    rewrite (ltb_B2Z _ _ Hn N256), V256 in H3. apply Z.ltb_lt in H3.
    rewrite (trunc_nonneg _ Hn).
    pose proof (B2Z_nonneg (S754_finite false m e)) as H0.
    assert (PU : 0 < U) by (apply pow2_gt0; lia).
    split; [apply Z.div_pos; lia|].
    assert (B2Z (S754_finite false m e) / U < 256); [|lia].
    apply Z.div_lt_upper_bound; lia. }
  split; [exact R|]. unfold F32.to_uint8. now apply uint8_of_Z_value.
Qed.

Theorem blend_value_in_uint8_range p q w :
  nonneg w = true -> B2Z w <= U ->
  in_uint8_range (blend_value p q w (F32.sub one w)) = true.
Proof.
  intros Hw Hle.
  destruct (blend_value_range p q _ Hw Hle) as [Vn [V0 V1]].
  unfold in_uint8_range.
  rewrite (nonneg_valid _ Vn).
  destruct B2Z_256 as [N256 V256].
  rewrite (leb_B2Z zero _ eq_refl Vn), (ltb_B2Z _ _ Vn N256), V256.
  change (B2Z zero) with 0.
  apply andb_true_iff. split; [apply Z.leb_le | apply Z.ltb_lt]; assumption.
Qed.

End F32Weights.

(** ** combine_board_images.py: sharpness and blending *)

Module BlendFacts.

Import Py Fusion F32Spec F32Round BlendSpec.

(** *** Arrays of two axes *)

Lemma same_shape_refl {A : Type} (a : list (list A)) : same_shape a a.
Proof. induction a; constructor; auto. Qed.

Lemma same_shape_sym {A B : Type} (a : list (list A)) (b : list (list B)) :
  same_shape a b -> same_shape b a.
Proof. induction 1; constructor; auto. Qed.

Lemma same_shape_trans {A B C : Type}
    (a : list (list A)) (b : list (list B)) (c : list (list C)) :
  same_shape a b -> same_shape b c -> same_shape a c.
Proof.
  unfold same_shape. intros H. revert c.
  induction H as [|ra rb a b Hr H IH]; intros c Hc.
  - inversion Hc. constructor.
  - inversion Hc as [|? rc ? c' Hr' Hc']; subst.
    constructor; [congruence | apply IH; assumption].
Qed.

Lemma same_shape_map2d {A B : Type} (f : A -> B) (a : list (list A)) :
  same_shape (map2d f a) a.
Proof.
  induction a as [|r a IH]; constructor; [apply length_map | exact IH].
Qed.

Lemma length_map2 {A B C : Type} (f : A -> B -> C) a b :
  length a = length b -> length (map2 f a b) = length a.
Proof.
  intros H. unfold map2. rewrite length_map, length_combine, <- H. apply Nat.min_id.
Qed.

Lemma same_shape_zip2d {A B C : Type} (f : A -> B -> C) a b :
  same_shape a b -> same_shape (zip2d f a b) a.
Proof.
  induction 1 as [|ra rb a b Hr H IH]; [constructor|].
  constructor; [now apply length_map2 | exact IH].
Qed.

Lemma nth_error_map2 {A B C : Type} (f : A -> B -> C) a b j :
  nth_error (map2 f a b) j = lift2 (nth_error a j) (nth_error b j) f.
Proof.
  revert b j. induction a as [|x a IH]; intros [|y b] [|j]; cbn; try reflexivity.
  - destruct (nth_error a j); reflexivity.
  - apply IH.
Qed.

Lemma at2_map2d {A B : Type} (f : A -> B) m i j :
  at2 (map2d f m) i j = option_map f (at2 m i j).
Proof.
  unfold at2, map2d. rewrite nth_error_map.
  destruct (nth_error m i) as [row|]; [apply nth_error_map | reflexivity].
Qed.

Lemma at2_zip2d {A B C : Type} (f : A -> B -> C) a b i j :
  at2 (zip2d f a b) i j = lift2 (at2 a i j) (at2 b i j) f.
Proof.
  unfold at2, zip2d. rewrite nth_error_map2.
  destruct (nth_error a i) as [ra|]; [|reflexivity].
  destruct (nth_error b i) as [rb|]; cbn.
  - apply nth_error_map2.
  - destruct (nth_error ra j); reflexivity.
Qed.

Lemma same_shape_at2 {A B : Type} (a : list (list A)) (b : list (list B)) i j x :
  same_shape a b -> at2 a i j = Some x -> exists y, at2 b i j = Some y.
Proof.
  intros H. revert i. induction H as [|ra rb a b Hr H IH]; intros [|i]; cbn; try discriminate.
  - intros Hx.
    assert (Hj : (j < length rb)%nat).
    { rewrite <- Hr. apply nth_error_Some. congruence. }
    destruct (nth_error rb j) as [y|] eqn:E; [eauto|].
    apply nth_error_None in E. lia.
  - apply IH.
Qed.

Lemma at2_In {A : Type} (m : list (list A)) i j v :
  at2 m i j = Some v -> In v (concat m).
Proof.
  unfold at2. destruct (nth_error m i) as [row|] eqn:E; [|discriminate].
  intros H. apply in_concat. exists row.
  split; [eapply nth_error_In; eassumption | eapply nth_error_In; eassumption].
Qed.

Lemma In_at2 {A : Type} (m : list (list A)) v :
  In v (concat m) -> exists i j, at2 m i j = Some v.
Proof.
  intros H. apply in_concat in H. destruct H as (row & Hr & Hv).
  apply In_nth_error in Hr. destruct Hr as [i Hi].
  apply In_nth_error in Hv. destruct Hv as [j Hj].
  exists i, j. unfold at2. rewrite Hi. exact Hj.
Qed.

Lemma at2_forallb {A : Type} (f : A -> bool) (m : list (list A)) i j v :
  forallb (forallb f) m = true -> at2 m i j = Some v -> f v = true.
Proof.
  intros H Hv. apply at2_In in Hv. apply in_concat in Hv.
  destruct Hv as (row & Hrow & Hin).
  rewrite forallb_forall in H. specialize (H row Hrow).
  rewrite forallb_forall in H. now apply H.
Qed.

Lemma rows_equal {A : Type} (l l' : list A) :
  (forall j, nth_error l j = nth_error l' j) -> l = l'.
Proof.
  revert l'. induction l as [|x l IH]; intros [|y l'] H.
  - reflexivity.
  - specialize (H 0%nat). discriminate.
  - specialize (H 0%nat). discriminate.
  - pose proof (H 0%nat) as H0. cbn in H0. injection H0 as ->.
    f_equal. apply IH. intros j. exact (H (S j)).
Qed.

Lemma arrays_equal {A : Type} (a b : list (list A)) :
  same_shape a b -> (forall i j, at2 a i j = at2 b i j) -> a = b.
Proof.
  induction 1 as [|ra rb a b Hr H IH]; intros Hat; [reflexivity|].
  f_equal.
  - apply rows_equal. intros j. exact (Hat 0%nat j).
  - apply IH. intros i j. exact (Hat (S i) j).
Qed.

(** *** Elementwise operations on arrays of one shape *)

Lemma broadcast_same_length {A B C : Type} (f : A -> B -> result C) a b :
  length a = length b -> broadcast f a b = zip_with f a b.
Proof. intros H. unfold broadcast. rewrite H, Nat.eqb_refl. reflexivity. Qed.

Lemma zip_with_pointwise {A B C : Type} (f : A -> B -> result C) (g : A -> B -> C)
    (P : A -> B -> Prop) a b :
  (forall x y, P x y -> f x y = ret (g x y)) -> Forall2 P a b ->
  zip_with f a b = ret (map2 g a b).
Proof.
  intros Hf. induction 1 as [|x y a b Hxy H IH]; [reflexivity|].
  cbn [zip_with]. rewrite (Hf _ _ Hxy), IH. reflexivity.
Qed.

Lemma Forall2_same_length {A B : Type} (a : list A) (b : list B) :
  length a = length b -> Forall2 (fun _ _ => True) a b.
Proof.
  revert b. induction a as [|x a IH]; intros [|y b] H; try discriminate; constructor; auto.
Qed.

Theorem elementwise_same_shape {A B C : Type} (f : A -> B -> C) a b :
  same_shape a b -> elementwise f a b = ret (zip2d f a b).
Proof.
  intros H. unfold elementwise.
  rewrite broadcast_same_length by (eapply Forall2_length; exact H).
  apply zip_with_pointwise with (P := fun ra rb => length ra = length rb); [|exact H].
  intros ra rb Hr. rewrite broadcast_same_length by exact Hr.
  apply zip_with_pointwise with (P := fun _ _ => True); [reflexivity|].
  now apply Forall2_same_length.
Qed.

(** *** The shapes of the maps *)

Section Blender.

Variable cv : OpenCV.
Hypothesis contract : OpenCV_contract cv.

Lemma sharpness_shape img sigma : same_shape (laplacian_sharpness cv img sigma) img.
Proof.
  unfold laplacian_sharpness.
  eapply same_shape_trans; [apply same_shape_map2d|].
  eapply same_shape_trans; [apply (normalize_shape _ contract)|].
  eapply same_shape_trans; [apply (GaussianBlur_shape _ contract)|].
  eapply same_shape_trans; [apply same_shape_map2d|].
  eapply same_shape_trans; [apply (Laplacian_shape _ contract)|].
  eapply same_shape_trans; [apply same_shape_map2d|].
  apply (cvtColor_shape _ contract).
Qed.

Lemma weight_maps_shape sp ss :
  same_shape sp ss ->
  same_shape (fst (weight_maps sp ss)) sp /\ same_shape (snd (weight_maps sp ss)) sp.
Proof.
  intros H. unfold weight_maps. cbn [fst snd].
  assert (H1 : same_shape (zip2d F32.div sp (zip2d F32.add sp ss)) sp).
  { apply same_shape_zip2d, same_shape_sym, same_shape_zip2d, H. }
  split; [exact H1|].
  eapply same_shape_trans; [apply same_shape_map2d | exact H1].
Qed.

Lemma blend_weights_eq primary secondary :
  same_shape primary secondary ->
  blend_weights cv primary secondary =
  ret (weight_maps (laplacian_sharpness cv primary 1.5)
                   (laplacian_sharpness cv secondary 1.5)).
Proof.
  intros H. unfold blend_weights.
  set (sp := laplacian_sharpness cv primary 1.5).
  set (ss := laplacian_sharpness cv secondary 1.5).
  assert (Hs : same_shape sp ss).
  { eapply same_shape_trans; [apply sharpness_shape|].
    eapply same_shape_trans; [exact H|]. apply same_shape_sym, sharpness_shape. }
  rewrite (elementwise_same_shape _ _ _ Hs). cbn [bind ret].
  rewrite elementwise_same_shape
    by (apply same_shape_sym, same_shape_zip2d, Hs).
  reflexivity.
Qed.

Lemma blend_images_eq primary secondary :
  same_shape primary secondary ->
  blend_images cv primary secondary =
  ret (blended primary secondary
         (weight_maps (laplacian_sharpness cv primary 1.5)
                      (laplacian_sharpness cv secondary 1.5))).
Proof.
  intros H. unfold blend_images. rewrite (blend_weights_eq _ _ H). cbn [bind ret].
  set (sp := laplacian_sharpness cv primary 1.5).
  set (ss := laplacian_sharpness cv secondary 1.5).
  assert (Hp : same_shape sp primary) by apply sharpness_shape.
  assert (Hs : same_shape sp ss).
  { eapply same_shape_trans; [exact Hp|].
    eapply same_shape_trans; [exact H|]. apply same_shape_sym, sharpness_shape. }
  destruct (weight_maps_shape _ _ Hs) as [W1 W2].
  destruct (weight_maps sp ss) as [wp ws] eqn:E. cbn [fst snd] in W1, W2.
  assert (P1 : same_shape primary wp).
  { apply same_shape_sym. eapply same_shape_trans; [exact W1 | exact Hp]. }
  assert (P2 : same_shape secondary ws).
  { apply same_shape_sym. eapply same_shape_trans; [exact W2|].
    eapply same_shape_trans; [exact Hp | exact H]. }
  rewrite (elementwise_same_shape _ _ _ P1). cbn [bind ret].
  rewrite (elementwise_same_shape _ _ _ P2). cbn [bind ret].
  rewrite elementwise_same_shape.
  - reflexivity.
  - eapply same_shape_trans; [apply same_shape_zip2d, P1|].
    eapply same_shape_trans; [exact H|].
    apply same_shape_sym, same_shape_zip2d, P2.
Qed.

Lemma weight_maps_at2 sp ss i j a b :
  at2 sp i j = Some a -> at2 ss i j = Some b ->
  at2 (fst (weight_maps sp ss)) i j = Some (weight_primary a b) /\
  at2 (snd (weight_maps sp ss)) i j = Some (weight_secondary a b).
Proof.
  intros Ha Hb. unfold weight_maps. cbn [fst snd].
  rewrite at2_map2d, !at2_zip2d, Ha, Hb. split; reflexivity.
Qed.

Lemma weight_maps_at2_inv sp ss i j w :
  at2 (fst (weight_maps sp ss)) i j = Some w ->
  exists a b, at2 sp i j = Some a /\ at2 ss i j = Some b /\ w = weight_primary a b.
Proof.
  unfold weight_maps. cbn [fst]. rewrite !at2_zip2d.
  destruct (at2 sp i j) as [a|]; [|discriminate].
  destruct (at2 ss i j) as [b|]; [|discriminate].
  cbn. intros H. injection H as <-. eauto.
Qed.

End Blender.

End BlendFacts.

Module BlendClaims.

Import Py Fusion Demo F32Spec F32Round F32Weights BlendSpec BlendFacts.

(** *** The claims about the sharpness estimator and the blender *)

Lemma eqb_B2Z x y :
  nonneg x = true -> nonneg y = true -> F32.eqb x y = (B2Z x =? B2Z y)%Z.
Proof.
  intros Hx Hy. unfold F32.eqb, SFeqb. rewrite (compare_B2Z _ _ Hx Hy).
  rewrite Z.eqb_compare. reflexivity.
Qed.

Lemma demo_cv_contract : OpenCV_contract demo_cv.
Proof.
  constructor; cbn; intros.
  - apply same_shape_map2d.
  - apply same_shape_map2d.
  - apply same_shape_refl.
  - apply same_shape_map2d.
Qed.

Lemma rescale_shape m : same_shape (rescale m) m.
Proof.
  unfold rescale. destruct (concat m); [apply same_shape_refl | apply same_shape_map2d].
Qed.

Lemma sample_cv_contract : OpenCV_contract sample_cv.
Proof.
  constructor; cbn; intros.
  - apply same_shape_map2d.
  - apply same_shape_refl.
  - apply same_shape_refl.
  - apply rescale_shape.
Qed.

Lemma skewed_cv_contract skew : OpenCV_contract (skewed_cv skew).
Proof.
  constructor; cbn; intros.
  - apply same_shape_map2d.
  - apply same_shape_refl.
  - apply same_shape_refl.
  - eapply same_shape_trans; [apply same_shape_map2d | apply rescale_shape].
Qed.

Section Claims.

Variable cv : OpenCV.
Hypothesis contract : OpenCV_contract cv.


Lemma blended_at2 primary secondary wp ws i j pb pg pr qb qg qr a b :
  at2 primary i j = Some (pb, pg, pr) ->
  at2 secondary i j = Some (qb, qg, qr) ->
  at2 wp i j = Some a -> at2 ws i j = Some b ->
  at2 (blended primary secondary (wp, ws)) i j =
  Some (blend_channel pb qb a b, blend_channel pg qg a b, blend_channel pr qr a b).
Proof.
  intros Hp Hq Ha Hb. unfold blended. cbn [fst snd].
  rewrite at2_map2d, !at2_zip2d, Hp, Hq, Ha, Hb. reflexivity.
Qed.

Lemma blended_shape primary secondary wp ws :
  same_shape primary secondary -> same_shape wp primary -> same_shape ws primary ->
  same_shape (blended primary secondary (wp, ws)) primary.
Proof.
  intros H W1 W2. unfold blended. cbn [fst snd].
  eapply same_shape_trans; [apply same_shape_map2d|].
  assert (P1 : same_shape primary wp) by apply same_shape_sym, W1.
  assert (P2 : same_shape secondary ws).
  { apply same_shape_sym. eapply same_shape_trans; [exact W2 | exact H]. }
  eapply same_shape_trans; [apply same_shape_zip2d|].
  - eapply same_shape_trans; [apply same_shape_zip2d, P1|].
    eapply same_shape_trans; [exact H|].
    apply same_shape_sym, same_shape_zip2d, P2.
  - apply same_shape_zip2d, P1.
Qed.

(** C2. Blending an image with itself returns that image, whenever every
    value of its sharpness map is a finite number other than zero, of either
    sign: the weights are then 0.5 and 0.5, or 0 and 1 when the sum of the
    two equal values is beyond the largest float32. (A sharpness of zero, an
    infinity or a NaN would make the weight 0/0 or inf/inf, a NaN.) *)
Theorem blend_identical_images (img : image) :
  (forall v, In v (concat (laplacian_sharpness cv img 1.5)) ->
             finite_nonzero v = true) ->
  blend_images cv img img = ret img.
Proof.
  intros Hfin.
  rewrite (blend_images_eq cv contract _ _ (same_shape_refl img)).
  set (S := laplacian_sharpness cv img 1.5) in *.
  assert (HS : same_shape S img) by apply (sharpness_shape cv contract).
  destruct (weight_maps_shape S S (same_shape_refl S)) as [W1 W2].
  destruct (weight_maps S S) as [wp ws] eqn:E. cbn [fst snd] in W1, W2.
  assert (W1' : same_shape wp img) by (eapply same_shape_trans; eassumption).
  assert (W2' : same_shape ws img) by (eapply same_shape_trans; eassumption).
  f_equal. apply arrays_equal.
  - apply blended_shape; [apply same_shape_refl | assumption..].
  - intros i j. destruct (at2 img i j) as [[[b g] r]|] eqn:Hpix.
    + destruct (same_shape_at2 img S i j _ (same_shape_sym _ _ HS) Hpix) as [s Hs].
      destruct (weight_maps_at2 S S i j s s Hs Hs) as [A1 A2].
      rewrite E in A1, A2. cbn [fst snd] in A1, A2.
      pose proof (Hfin s (at2_In _ _ _ _ Hs)) as Fs.
      destruct (equal_sharpness_weights s Fs) as [[E1 E2] | [E1 E2]];
        rewrite E1 in A1; rewrite E2 in A2.
      * rewrite (blended_at2 img img wp ws i j b g r b g r half half Hpix Hpix A1 A2).
        rewrite !blend_channel_same_half. reflexivity.
      * rewrite (blended_at2 img img wp ws i j b g r b g r zero one Hpix Hpix A1 A2).
        rewrite !blend_channel_same_zero_one. reflexivity.
    + unfold blended. cbn [fst snd].
      rewrite at2_map2d, !at2_zip2d, Hpix. reflexivity.
Qed.

(** C3 (amended). For inputs of one shape, each channel of an output pixel
    is computed from the float32 value
    primary * weight_primary + secondary * weight_secondary, with one weight
    pair for the three channels; a value of the 8-bit range, from 0 up to
    256, is stored as its integer part, truncated and not rounded. The
    value is in that range at every pixel where both sharpness values are
    positive finite numbers. *)
Theorem blend_pixel_truncated (primary secondary : image) :
  same_shape primary secondary ->
  exists (weight_primary_map weight_secondary_map : fmap) (out : image),
    blend_weights cv primary secondary =
      ret (weight_primary_map, weight_secondary_map) /\
    blend_images cv primary secondary = ret out /\
    same_shape out primary /\
    forall (i j : nat) (pb pg pr qb qg qr : byte),
      at2 primary i j = Some (pb, pg, pr) ->
      at2 secondary i j = Some (qb, qg, qr) ->
      exists sp ss wp ws : f32,
        at2 (laplacian_sharpness cv primary 1.5) i j = Some sp /\
        at2 (laplacian_sharpness cv secondary 1.5) i j = Some ss /\
        at2 weight_primary_map i j = Some wp /\
        at2 weight_secondary_map i j = Some ws /\
        at2 out i j = Some (F32.to_uint8 (blend_value pb qb wp ws),
                            F32.to_uint8 (blend_value pg qg wp ws),
                            F32.to_uint8 (blend_value pr qr wp ws)) /\
        forall p q : byte,
          (in_uint8_range (blend_value p q wp ws) = true ->
           (0 <= F32.trunc (blend_value p q wp ws) <= 255)%Z /\
           uint8_value (F32.to_uint8 (blend_value p q wp ws)) =
             F32.trunc (blend_value p q wp ws)) /\
          (pos_finite sp = true -> pos_finite ss = true ->
           in_uint8_range (blend_value p q wp ws) = true).
Proof.
  intros Hshape.
  set (SP := laplacian_sharpness cv primary 1.5).
  set (SS := laplacian_sharpness cv secondary 1.5).
  assert (Hp : same_shape SP primary) by apply (sharpness_shape cv contract).
  assert (Hs : same_shape SS secondary) by apply (sharpness_shape cv contract).
  assert (Hps : same_shape SP SS).
  { eapply same_shape_trans; [exact Hp|].
    eapply same_shape_trans; [exact Hshape | apply same_shape_sym, Hs]. }
  destruct (weight_maps_shape SP SS Hps) as [W1 W2].
  pose proof (blend_weights_eq cv contract _ _ Hshape) as EW.
  pose proof (blend_images_eq cv contract _ _ Hshape) as EI.
  fold SP SS in EW, EI.
  destruct (weight_maps SP SS) as [wpm wsm] eqn:E. cbn [fst snd] in W1, W2.
  assert (W1' : same_shape wpm primary) by (eapply same_shape_trans; eassumption).
  assert (W2' : same_shape wsm primary) by (eapply same_shape_trans; eassumption).
  exists wpm, wsm, (blended primary secondary (wpm, wsm)).
  split; [exact EW|]. split; [exact EI|].
  split; [now apply blended_shape|].
  intros i j pb pg pr qb qg qr Hpix Hqix.
  destruct (same_shape_at2 primary SP i j _ (same_shape_sym _ _ Hp) Hpix) as [sp Hsp].
  destruct (same_shape_at2 SP SS i j sp Hps Hsp) as [ss Hss].
  destruct (weight_maps_at2 SP SS i j sp ss Hsp Hss) as [A1 A2].
  rewrite E in A1, A2. cbn [fst snd] in A1, A2.
  exists sp, ss, (weight_primary sp ss), (weight_secondary sp ss).
  split; [exact Hsp|]. split; [exact Hss|].
  split; [exact A1|]. split; [exact A2|].
  split; [exact (blended_at2 primary secondary wpm wsm i j pb pg pr qb qg qr _ _
                   Hpix Hqix A1 A2)|].
  intros p q. split.
  - apply uint8_range_trunc.
  - intros Pp Ps.
    destruct (weight_primary_positive sp ss Pp Ps) as [Wn Wle].
    exact (blend_value_in_uint8_range p q _ Wn Wle).
Qed.

End Claims.

(** C3: at a pixel of value 3 blended with a pixel of value 0 under equal
    sharpness the blended value is 1.5; the code stores 1, where rounding
    to the nearest integer gives 2. *)
Lemma blend_truncates_instead_of_rounding :
  blend_weights demo_cv [[(x03, x03, x03)]] [[(x00, x00, x00)]] =
    ret ([[F32.of_float 0.5]], [[F32.of_float 0.5]]) /\
  blend_value x03 x00 (F32.of_float 0.5) (F32.of_float 0.5) = F32.of_float 1.5 /\
  blend_images demo_cv [[(x03, x03, x03)]] [[(x00, x00, x00)]] =
    ret [[(x01, x01, x01)]] /\
  F32.to_uint8 (F32.of_float 1.5) = x01 /\
  round_clamp_uint8 (F32.of_float 1.5) = x02.
Proof. vm_compute. repeat split. Qed.


(** C4. The code adds 1e-6 to what NORM_MINMAX returns and checks nothing:
    on the two-pixel image with the grey levels 49 and 64, with a NORM_MINMAX
    output that is lower than the exact rescaling by 0.019031077, the
    sharpness values are -0.019030077 and 0.98096997. The first one is below
    epsilon and below zero, and with the sharpness 0.019030077 of another
    image the denominator of the blend weight is zero. *)
Theorem sharpness_below_epsilon :
  let cv := skewed_cv (F32.of_float 0.019031077) in
  let img := [[(x31, x31, x31); (x40, x40, x40)]] in
  let low := F32.of_float (-0.019030077382922173) in
  laplacian_sharpness cv img 1.5 = [[low; F32.of_float 0.98096996545791626]] /\
  F32.leb (F32.of_float 1e-6) low = false /\
  F32.ltb low (S754_zero false) = true /\
  F32.leb (F32.of_float 0.019030077382922173)
    (F32.add (F32.of_float 1) (F32.of_float 1e-6)) = true /\
  F32.eqb (F32.add low (F32.of_float 0.019030077382922173)) (S754_zero false) = true.
Proof. vm_compute. repeat split. Qed.


Lemma blend_identical_images_witness :
  let cv := skewed_cv (F32.of_float 0.019031077) in
  let img := [[(x31, x31, x31); (x40, x40, x40)]] in
  blend_images cv img img = ret img.
Proof.
  intros cv img.
  apply (blend_identical_images cv (skewed_cv_contract _) img).
  intros v Hv. vm_compute in Hv.
  repeat (destruct Hv as [<- | Hv]; [reflexivity|]). destruct Hv.
Defined.

Lemma blend_pixel_truncated_witness :
  let primary := [[(x0a, x0a, x0a); (x64, x64, x64); (xc8, xc8, xc8)];
                  [(x00, x10, x20); (x30, x40, x50); (xff, xff, xff)]] in
  let secondary := [[(xc8, xc8, xc8); (x64, x14, x64); (x0a, x0a, x0a)];
                    [(x05, x06, x07); (xf0, x40, x00); (x00, x00, x00)]] in
  exists (weight_primary_map weight_secondary_map : fmap) (out : image),
    blend_weights sample_cv primary secondary =
      ret (weight_primary_map, weight_secondary_map) /\
    blend_images sample_cv primary secondary = ret out /\
    same_shape out primary /\
    forall (i j : nat) (pb pg pr qb qg qr : byte),
      at2 primary i j = Some (pb, pg, pr) ->
      at2 secondary i j = Some (qb, qg, qr) ->
      exists wp ws : f32,
        at2 weight_primary_map i j = Some wp /\
        at2 weight_secondary_map i j = Some ws /\
        at2 out i j = Some (F32.to_uint8 (blend_value pb qb wp ws),
                            F32.to_uint8 (blend_value pg qg wp ws),
                            F32.to_uint8 (blend_value pr qr wp ws)) /\
        forall p q : byte,
          in_uint8_range (blend_value p q wp ws) = true /\
          (0 <= F32.trunc (blend_value p q wp ws) <= 255)%Z /\
          uint8_value (F32.to_uint8 (blend_value p q wp ws)) =
            F32.trunc (blend_value p q wp ws).
Proof.
  intros primary secondary.
  destruct (blend_pixel_truncated sample_cv sample_cv_contract primary secondary)
    as (wpm & wsm & out & EW & EI & So & H); [repeat constructor|].
  exists wpm, wsm, out.
  split; [exact EW|]. split; [exact EI|]. split; [exact So|].
  intros i j pb pg pr qb qg qr Hp Hq.
  destruct (H i j pb pg pr qb qg qr Hp Hq)
    as (sp & ss & wp & ws & Hsp & Hss & A1 & A2 & Ao & Hv).
  exists wp, ws.
  split; [exact A1|]. split; [exact A2|]. split; [exact Ao|].
  intros p q. destruct (Hv p q) as [Ht Hr].
  assert (R : in_uint8_range (blend_value p q wp ws) = true).
  { apply Hr.
    - apply (at2_forallb pos_finite _ i j sp) in Hsp; [exact Hsp|].
      vm_compute. reflexivity.
    - apply (at2_forallb pos_finite _ i j ss) in Hss; [exact Hss|].
      vm_compute. reflexivity. }
  split; [exact R | exact (Ht R)].
Defined.

(** The stand-ins on the inputs above: the sharpness values of [sample_cv]
    are positive, its weights sum to 1 and its blend stays between the
    inputs; with the lowered output the blend of the grey levels 49 and 255
    is 259.07, stored as 3. *)
Lemma stand_in_runs :
  forallb (forallb pos_finite)
    (laplacian_sharpness sample_cv
       [[(x0a, x0a, x0a); (x64, x64, x64); (xc8, xc8, xc8)];
        [(x00, x10, x20); (x30, x40, x50); (xff, xff, xff)]] 1.5) = true /\
  blend_images sample_cv
    [[(x0a, x0a, x0a); (x64, x64, x64); (xc8, xc8, xc8)]]
    [[(xc8, xc8, xc8); (x64, x14, x64); (x0a, x0a, x0a)]] =
    ret [[(xc7, xc7, xc7); (x64, x61, x64); (xc7, xc7, xc7)]] /\
  blend_images (skewed_cv (F32.of_float 0.019031077))
    [[(x31, x31, x31); (x40, x40, x40)]] [[(xff, xff, xff); (x80, x80, x80)]] =
    ret [[(x03, x03, x03); (x3e, x3e, x3e)]].
Proof. vm_compute. repeat split. Qed.

End BlendClaims.

(** * Further properties *)

(** ** binary64 arithmetic: comparisons, and the product by 1 *)

Module Float64Facts.

Import F32Spec F32Round.
Local Open Scope Z_scope.

Lemma compare_cont_antisym (m1 m2 : positive) :
  Pos.compare_cont Eq m2 m1 = CompOpp (Pos.compare_cont Eq m1 m2).
Proof. apply (Pos.compare_antisym m1 m2). Qed.

Lemma SFcompare_antisym x y :
  SFcompare y x = option_map CompOpp (SFcompare x y).
Proof.
  destruct x as [[]|[]| |[] m1 e1], y as [[]|[]| |[] m2 e2]; try reflexivity;
    cbn [SFcompare option_map]; rewrite (Z.compare_antisym e1 e2);
    destruct (e1 ?= e2); cbn [CompOpp]; try reflexivity;
    rewrite (compare_cont_antisym m1 m2);
    destruct (Pos.compare_cont Eq m1 m2); reflexivity.
Qed.

Lemma compare_cont_refl (m : positive) : Pos.compare_cont Eq m m = Eq.
Proof. apply (Pos.compare_refl m). Qed.

Lemma SFcompare_refl x : x <> S754_nan -> SFcompare x x = Some Eq.
Proof.
  destruct x as [[]|[]| |[] m e]; try reflexivity; try congruence; intros _;
    cbn [SFcompare]; rewrite Z.compare_refl, compare_cont_refl; reflexivity.
Qed.

Local Open Scope float_scope.

Lemma is_nan_spec v : is_nan v = true <-> Prim2SF v = S754_nan.
Proof.
  unfold is_nan. rewrite eqb_spec. unfold SFeqb.
  destruct (Prim2SF v) as [s|s| |s m e] eqn:E.
  - split; [discriminate | discriminate].
  - rewrite SFcompare_refl by discriminate. split; discriminate.
  - split; reflexivity.
  - rewrite SFcompare_refl by discriminate. split; discriminate.
Qed.

Lemma not_nan_spec v : is_nan v = false -> Prim2SF v <> S754_nan.
Proof.
  intros H E. apply is_nan_spec in E. congruence.
Qed.

Lemma leb_refl v : is_nan v = false -> (v <=? v) = true.
Proof.
  intros H. rewrite leb_spec. unfold SFleb.
  rewrite SFcompare_refl by now apply not_nan_spec. reflexivity.
Qed.

Lemma ltb_leb a b : (a <? b) = true -> (a <=? b) = true.
Proof.
  rewrite ltb_spec, leb_spec. unfold SFltb, SFleb.
  destruct (SFcompare (Prim2SF a) (Prim2SF b)) as [[]|]; congruence.
Qed.

Lemma SFcompare_some x y :
  x <> S754_nan -> y <> S754_nan -> exists c, SFcompare x y = Some c.
Proof.
  destruct x as [[]|[]| |[] m1 e1], y as [[]|[]| |[] m2 e2];
    try congruence; intros _ _; cbn [SFcompare]; eauto.
Qed.

Lemma not_ltb_leb a b :
  is_nan a = false -> is_nan b = false -> (b <? a) = false -> (a <=? b) = true.
Proof.
  intros Ha Hb. rewrite ltb_spec, leb_spec. unfold SFltb, SFleb.
  rewrite (SFcompare_antisym (Prim2SF a) (Prim2SF b)).
  destruct (SFcompare_some _ _ (not_nan_spec _ Ha) (not_nan_spec _ Hb)) as [c ->].
  destruct c; cbn; congruence.
Qed.

Local Open Scope Z_scope.

(** The product of a binary64 number by 1 is that number. *)
Lemma mul_one_finite s m e :
  SpecFloat.valid_binary prec emax (S754_finite s m e) = true ->
  SFmul prec emax (S754_finite s m e) (S754_finite false 4503599627370496 (-52)) =
  S754_finite s m e.
Proof.
  cbn [SpecFloat.valid_binary]. unfold bounded, canonical_mantissa.
  intros H. apply andb_true_iff in H. destruct H as [Hc He].
  apply Z.eqb_eq in Hc.
  cbn [SFmul]. rewrite xorb_false_r.
  unfold binary_round_aux, shr_fexp.
  assert (Em : Z.pos (m * 4503599627370496) = Z.pos m * 2 ^ 52) by reflexivity.
  rewrite Em.
  pose proof (@digits_mul_pow2 (Z.pos m) 52 ltac:(lia) ltac:(lia)) as Hd.
  unfold digits in Hd. rewrite Hd.
  change (Zdigits2 (Z.pos m)) with (Z.pos (digits2_pos m)).
  replace (Z.pos (digits2_pos m) + 52 + (e + -52)) with (Z.pos (digits2_pos m) + e) by lia.
  rewrite Hc.
  replace (e - (e + -52)) with 52 by lia.
  rewrite rec_of_exact.
  rewrite (@shr_rec_of (Z.pos m * 2 ^ 52) 1 (e + -52) 52) by lia.
  change (Z.max 0 52) with 52. rewrite Z.mul_1_l.
  assert (Er : rec_of (Z.pos m * 2 ^ 52) (2 ^ 52) =
               {| shr_m := Z.pos m; shr_r := false; shr_s := false |}).
  { unfold rec_of. rewrite Z.div_mul, Z.mod_mul by (apply Z.pow_nonzero; lia).
    reflexivity. }
  rewrite Er. cbn [shr_m loc_of_shr_record round_nearest_even].
  change (Zdigits2 (Z.pos m)) with (Z.pos (digits2_pos m)).
  replace (e + -52 + 52) with e by lia.
  rewrite Hc, Z.sub_diag. cbn [shr shr_record_of_loc shr_m].
  rewrite He. reflexivity.
Qed.

Local Open Scope float_scope.

(** [v * 1 + 0] on Python floats: [v], with the sign of a zero dropped. *)
Theorem mul_one_add_zero v : v * 1 + 0 = TransformSpec.drop_zero_sign v.
Proof.
  unfold TransformSpec.drop_zero_sign.
  apply Prim2SF_inj.
  rewrite add_spec, mul_spec. unfold SF64add, SF64mul.
  rewrite eqb_spec.
  change (Prim2SF 1) with (S754_finite false 4503599627370496 (-52)).
  change (Prim2SF 0) with (S754_zero false).
  pose proof (Prim2SF_valid v) as Hv.
  destruct (Prim2SF v) as [s|s| |s m e] eqn:E.
  - destruct s; reflexivity.
  - cbn. rewrite xorb_false_r. destruct s; cbn; now rewrite E.
  - cbn. now rewrite E.
  - rewrite (mul_one_finite s m e Hv). destruct s; cbn; now rewrite E.
Qed.

Lemma drop_zero_sign_eqb v :
  is_nan v = false -> (TransformSpec.drop_zero_sign v =? v) = true.
Proof.
  intros Hn. unfold TransformSpec.drop_zero_sign.
  destruct (v =? 0) eqn:E.
  - rewrite eqb_spec in *. unfold SFeqb in *.
    rewrite (SFcompare_antisym (Prim2SF v) (Prim2SF 0)).
    destruct (SFcompare (Prim2SF v) (Prim2SF 0)) as [[]|]; try discriminate.
    reflexivity.
  - rewrite eqb_spec. unfold SFeqb.
    rewrite SFcompare_refl by now apply not_nan_spec. reflexivity.
Qed.

End Float64Facts.

(** ** binary64 arithmetic: the order and the sign of a difference *)

Module Float64Order.

Import F32Spec F32Round Float64Spec Float64Facts.
Local Open Scope Z_scope.

Lemma bounded64_inv m e :
  bounded prec emax m e = true ->
  -1074 <= e <= 971 /\ digits (Zpos m) <= 53 /\
  (-1074 < e -> digits (Zpos m) = 53).
Proof.
  unfold bounded, canonical_mantissa. intros H.
  apply andb_true_iff in H. destruct H as [H1 H2].
  apply Z.eqb_eq in H1. apply Z.leb_le in H2.
  change (Z.pos (digits2_pos m)) with (digits (Zpos m)) in H1.
  unfold fexp, SpecFloat.emin, prec, emax in *.
  pose proof (@digits_pos (Zpos m) ltac:(lia)). lia.
Qed.

Lemma finite64_value m e :
  bounded prec emax m e = true -> 0 < Zpos m * 2 ^ (e + 1074) < 2 ^ 2098.
Proof.
  intros H. destruct (bounded64_inv _ _ H) as (He & Hd & _).
  assert (A : 0 <= e + 1074) by lia. pose proof (pow2_gt0 A) as P.
  pose proof (digits_bounds (Pos2Z.is_pos m)) as [_ B].
  assert (Zpos m < 2 ^ 53).
  { assert (2 ^ digits (Zpos m) <= 2 ^ 53) by (apply Z.pow_le_mono_r; lia). lia. }
  assert (2 ^ (e + 1074) <= 2 ^ 2045) by (apply Z.pow_le_mono_r; lia).
  assert (E : 2 ^ 2098 = 2 ^ 53 * 2 ^ 2045) by (rewrite <- Z.pow_add_r by lia; reflexivity).
  assert (0 < 2 ^ 53) by (apply pow2_gt0; lia).
  split; [nia|]. rewrite E. nia.
Qed.

Lemma finite64_lt_by_exponent m1 e1 m2 e2 :
  bounded prec emax m1 e1 = true -> bounded prec emax m2 e2 = true ->
  e1 < e2 ->
  Zpos m1 * 2 ^ (e1 + 1074) < Zpos m2 * 2 ^ (e2 + 1074).
Proof.
  intros H1 H2 Hlt.
  destruct (bounded64_inv _ _ H1) as (E1 & D1 & _).
  destruct (bounded64_inv _ _ H2) as (E2 & _ & N2).
  assert (Hd2 : digits (Zpos m2) = 53) by (apply N2; lia).
  pose proof (digits_bounds (Pos2Z.is_pos m1)) as [_ B1].
  pose proof (digits_bounds (Pos2Z.is_pos m2)) as [B2 _].
  rewrite Hd2 in B2. change (53 - 1) with 52 in B2.
  assert (Zpos m1 < 2 * 2 ^ 52).
  { assert (2 ^ digits (Zpos m1) <= 2 ^ 53) by (apply Z.pow_le_mono_r; lia).
    change (2 ^ 53) with (2 * 2 ^ 52) in *. lia. }
  assert (A1 : 0 <= e1 + 1074) by lia.
  pose proof (pow2_gt0 A1) as P1.
  assert (E : 2 ^ (e2 + 1074) = 2 ^ (e2 - e1 - 1) * 2 * 2 ^ (e1 + 1074)).
  { replace (e2 + 1074) with ((e2 - e1 - 1) + 1 + (e1 + 1074)) by lia.
    rewrite !Z.pow_add_r by lia. reflexivity. }
  assert (P3 : 0 < 2 ^ (e2 - e1 - 1)) by (apply pow2_gt0; lia).
  assert (P52 : 0 < 2 ^ 52) by (apply pow2_gt0; lia).
  rewrite E. nia.
Qed.

Lemma compare_same_sign mx ex my ey :
  bounded prec emax mx ex = true -> bounded prec emax my ey = true ->
  match ex ?= ey with
  | Eq => Pos.compare_cont Eq mx my
  | Lt => Lt
  | Gt => Gt
  end = (Zpos mx * 2 ^ (ex + 1074) ?= Zpos my * 2 ^ (ey + 1074)).
Proof.
  intros Hx Hy.
  destruct (Z.compare_spec ex ey) as [E|L|G].
  - subst ey. destruct (bounded64_inv _ _ Hx) as (Ex & _).
    assert (A : 0 <= ex + 1074) by lia. pose proof (pow2_gt0 A) as P.
    change (Pos.compare_cont Eq mx my) with (Zpos mx ?= Zpos my).
    destruct (Z.compare_spec (Zpos mx) (Zpos my)); symmetry;
      [apply Z.compare_eq_iff | apply Z.compare_lt_iff | apply Z.compare_gt_iff]; nia.
  - symmetry. apply Z.compare_lt_iff. now apply finite64_lt_by_exponent.
  - symmetry. apply Z.compare_gt_iff. now apply finite64_lt_by_exponent.
Qed.

Lemma compare_opp a b : CompOpp (a ?= b) = (- a ?= - b).
Proof. rewrite Z.compare_opp. rewrite <- Z.compare_antisym. reflexivity. Qed.

(** The comparison of two binary64 numbers is the comparison of their
    places. *)
Theorem compare_ord x y :
  SpecFloat.valid_binary prec emax x = true ->
  SpecFloat.valid_binary prec emax y = true ->
  x <> S754_nan -> y <> S754_nan ->
  SFcompare x y = Some (ord x ?= ord y).
Proof.
  intros Hx Hy Nx Ny.
  assert (P : 0 < 2 ^ 2098) by (apply pow2_gt0; lia).
  destruct x as [[]|[]| |[] mx ex]; try congruence;
    destruct y as [[]|[]| |[] my ey]; try congruence;
    cbn [SpecFloat.valid_binary] in Hx, Hy;
    try (pose proof (finite64_value _ _ Hx) as Vx);
    try (pose proof (finite64_value _ _ Hy) as Vy);
    cbn [SFcompare ord cond_Zopp]; f_equal;
    try (symmetry;
         first [ apply Z.compare_eq_iff; lia
               | apply Z.compare_lt_iff; lia
               | apply Z.compare_gt_iff; lia ]).
  - rewrite <- compare_opp, <- (compare_same_sign _ _ _ _ Hx Hy).
    destruct (ex ?= ey); reflexivity.
  - apply (compare_same_sign _ _ _ _ Hx Hy).
Qed.

(** The sign of what [binary_round_aux] returns is the sign it is given. *)
Lemma binary_round_aux_sign sx mx ex lx :
  match binary_round_aux prec emax sx mx ex lx with
  | S754_zero s | S754_infinity s | S754_finite s _ _ => s = sx
  | S754_nan => True
  end.
Proof.
  unfold binary_round_aux.
  destruct (shr_fexp prec emax mx ex lx) as [mrs' e'].
  destruct (shr_fexp prec emax _ e' loc_Exact) as [mrs'' e''].
  destruct (shr_m mrs''); [reflexivity | | exact I].
  destruct (e'' <=? emax - prec); reflexivity.
Qed.

Lemma binary_round_aux_not_negative mx ex lx :
  not_negative (binary_round_aux prec emax false mx ex lx) = true.
Proof.
  pose proof (binary_round_aux_sign false mx ex lx) as H.
  destruct (binary_round_aux prec emax false mx ex lx); try reflexivity;
    subst; reflexivity.
Qed.

Lemma binary_normalize_not_negative z e :
  0 <= z -> not_negative (binary_normalize prec emax z e false) = true.
Proof.
  intros Hz. destruct z as [|p|p]; [reflexivity| |lia].
  cbn [binary_normalize]. unfold binary_round.
  destruct (shl_align p e _) as [mz ez].
  apply binary_round_aux_not_negative.
Qed.

Lemma aligned_ord s m e ez :
  ez <= e -> -1074 <= ez ->
  cond_Zopp s (Zpos (fst (shl_align m e ez))) * 2 ^ (ez + 1074) =
  cond_Zopp s (Zpos m * 2 ^ (e + 1074)).
Proof.
  intros H1 H2.
  destruct (@shl_align_spec m e ez H1) as [E _].
  assert (Ep : 2 ^ (e + 1074) = 2 ^ (e - ez) * 2 ^ (ez + 1074)).
  { rewrite <- Z.pow_add_r by lia. f_equal. lia. }
  destruct s; cbn [cond_Zopp]; rewrite E, Ep; ring.
Qed.

(** A difference [x - y] with [y] not above [x] is not negative. *)
Theorem sub_not_negative x y :
  SpecFloat.valid_binary prec emax x = true ->
  SpecFloat.valid_binary prec emax y = true ->
  ord y <= ord x ->
  not_negative (SFsub prec emax x y) = true.
Proof.
  intros Hx Hy Hle.
  assert (P : 0 < 2 ^ 2098) by (apply pow2_gt0; lia).
  destruct x as [sx|sx| |sx mx ex]; destruct y as [sy|sy| |sy my ey];
    cbn [SpecFloat.valid_binary] in Hx, Hy;
    try (pose proof (finite64_value _ _ Hx) as Vx);
    try (pose proof (finite64_value _ _ Hy) as Vy);
    cbn [ord] in Hle; cbn [SFsub]; try reflexivity.
  - destruct sx, sy; reflexivity.
  - destruct sy; [reflexivity | cbn [cond_Zopp] in Hle; lia].
  - destruct sy; [reflexivity | cbn [cond_Zopp] in Hle; lia].
  - destruct sx; [cbn [cond_Zopp] in Hle; lia | reflexivity].
  - destruct sx, sy; try reflexivity. cbn [cond_Zopp] in Hle. lia.
  - destruct sx; [|reflexivity]. destruct sy; cbn [cond_Zopp] in Hle; lia.
  - destruct sx; [cbn [cond_Zopp] in Hle; lia | reflexivity].
  - destruct sy; [reflexivity|]. destruct sx; cbn [cond_Zopp] in Hle; lia.
  - cbv zeta. apply binary_normalize_not_negative.
    destruct (bounded64_inv _ _ Hx) as (Ex & _).
    destruct (bounded64_inv _ _ Hy) as (Ey & _).
    set (ez := Z.min ex ey).
    assert (A : 0 <= ez + 1074) by (unfold ez; lia).
    pose proof (pow2_gt0 A) as Pz.
    pose proof (aligned_ord sx mx ex ez ltac:(unfold ez; lia) ltac:(unfold ez; lia)) as Ax.
    pose proof (aligned_ord sy my ey ez ltac:(unfold ez; lia) ltac:(unfold ez; lia)) as Ay.
    fold ez. nia.
Qed.

(** A positive number divided by a number that is not negative and not zero
    is not negative. *)
Theorem div_not_negative x y :
  positive x = true -> not_negative y = true ->
  SFeqb y (S754_zero false) = false ->
  not_negative (SFdiv prec emax x y) = true.
Proof.
  intros Hx Hy Hz.
  destruct x as [sx|[]| |[] mx ex]; try discriminate;
    destruct y as [sy|[]| |[] my ey]; try discriminate; try reflexivity.
  cbn [SFdiv xorb].
  destruct (SFdiv_core_binary prec emax (Z.pos mx) ex (Z.pos my) ey) as [[mz ez] lz].
  apply binary_round_aux_not_negative.
Qed.

(** *** On Python floats *)

Local Open Scope float_scope.

Lemma ltb_zero_spec v : (v <? 0) = negb (not_negative (Prim2SF v)).
Proof.
  rewrite ltb_spec. change (Prim2SF 0) with (S754_zero false).
  destruct (Prim2SF v) as [s|[]| |[] m e]; reflexivity.
Qed.

Lemma leb_zero_spec v :
  (v <=? 0) = false -> is_nan v = true \/ positive (Prim2SF v) = true.
Proof.
  rewrite leb_spec. change (Prim2SF 0) with (S754_zero false).
  intros H. destruct (Prim2SF v) as [s|[]| |[] m e] eqn:E; try discriminate H.
  - now right.
  - left. now apply is_nan_spec.
  - now right.
Qed.

Lemma leb_ord a b :
  is_nan a = false -> is_nan b = false ->
  (a <=? b) = (ord (Prim2SF a) <=? ord (Prim2SF b))%Z.
Proof.
  intros Ha Hb. rewrite leb_spec. unfold SFleb.
  rewrite (compare_ord _ _ (Prim2SF_valid a) (Prim2SF_valid b)
             (not_nan_spec _ Ha) (not_nan_spec _ Hb)).
  unfold Z.leb. destruct (ord (Prim2SF a) ?= ord (Prim2SF b))%Z; reflexivity.
Qed.

End Float64Order.

(** ** render_node_overlay.py: further properties of the transform *)

Module TransformFacts.

Import Py NodeOverlay NodeOverlaySpec NodeOverlayFacts TransformSpec Float64Facts.
Local Open Scope string_scope.
Local Open Scope float_scope.

Lemma usable_float size margin u :
  usable size margin = ret u -> exists f, float_of_int size = ret f.
Proof. intros H. destruct (usable_inv _ _ _ H) as (f & Hf & _). eauto. Qed.

Lemma span_nodes nodes (coord : Node -> float) :
  nodes <> [] ->
  exists lo hi, np_min (map coord nodes) = ret lo /\ np_max (map coord nodes) = ret hi.
Proof.
  destruct nodes as [|n rest]; [congruence|]. intros _.
  cbn [map]. rewrite np_min_cons, np_max_cons. eauto.
Qed.

(** X1. The order of the checks of [compute_transform]: with a margin that
    leaves no usable width or height, an empty node list raises the
    ValueError of numpy's reduction, and every other node list raises the
    margin ValueError, whatever the mode and whatever the extent of the
    coordinates (no division is attempted). *)
Theorem compute_transform_margin_checked_first
    (nodes : list Node) (width height : Z) (margin : float) (mode : string)
    (usable_w usable_h : float) :
  usable width margin = ret usable_w ->
  usable height margin = ret usable_h ->
  degenerate usable_w usable_h = true ->
  compute_transform nodes width height margin mode =
  match nodes with
  | [] => raise empty_reduction_error
  | _ :: _ => raise margin_error
  end.
Proof.
  intros Hw Hh Hd.
  destruct nodes as [|n rest]; [reflexivity|].
  destruct (span_nodes (n :: rest) x ltac:(discriminate)) as (lx & hx & Hx1 & Hx2).
  destruct (span_nodes (n :: rest) y ltac:(discriminate)) as (ly & hy & Hy1 & Hy2).
  erewrite compute_transform_checked by eassumption.
  rewrite Hd. reflexivity.
Qed.

Lemma compute_transform_margin_checked_first_witness :
  compute_transform [mkNode 7 3 4 []] 100 50 30 "uniform" = raise margin_error.
Proof.
  apply (compute_transform_margin_checked_first
           [mkNode 7 3 4 []] 100 50 30 "uniform" 40 (-10)); reflexivity.
Defined.

(** X2. With a node list that is not empty, a margin that leaves room and a
    mode other than "raw", [compute_transform] raises ZeroDivisionError
    exactly when the x extent or the y extent of the nodes is zero (a single
    node, or nodes on one vertical or horizontal line); it has no guard. *)
Theorem compute_transform_zero_extent
    (nodes : list Node) (width height : Z) (margin : float) (mode : string)
    (src_width src_height usable_w usable_h : float) :
  span (map x nodes) = ret src_width ->
  span (map y nodes) = ret src_height ->
  usable width margin = ret usable_w ->
  usable height margin = ret usable_h ->
  degenerate usable_w usable_h = false ->
  mode <> "raw" ->
  (compute_transform nodes width height margin mode = raise division_error <->
   (src_width =? 0) = true \/ (src_height =? 0) = true).
Proof.
  intros Hsx Hsy Hw Hh Hd Hmode.
  destruct (span_inv _ _ Hsx) as (min_x & max_x & Hx1 & Hx2 & ->).
  destruct (span_inv _ _ Hsy) as (min_y & max_y & Hy1 & Hy2 & ->).
  erewrite compute_transform_checked by eassumption.
  rewrite Hd.
  apply String.eqb_neq in Hmode. rewrite Hmode.
  destruct (usable_float _ _ _ Hw) as (fw & Fw).
  destruct (usable_float _ _ _ Hh) as (fh & Fh).
  rewrite Fw, Fh.
  unfold py_div.
  destruct (max_x - min_x =? 0) eqn:Zx; destruct (max_y - min_y =? 0) eqn:Zy;
    destruct (mode =? "stretch")%string; cbn [bind ret raise];
    (split; [intros H; first [now left | now right | discriminate H]
            | intros [H|H]; first [reflexivity | discriminate H]]).
Qed.

Lemma compute_transform_zero_extent_witness :
  compute_transform [mkNode 7 3 4 []] 100 100 0 "stretch" = raise division_error <->
  (0 =? 0) = true \/ (0 =? 0) = true.
Proof.
  apply (compute_transform_zero_extent
           [mkNode 7 3 4 []] 100 100 0 "stretch" 0 0 100 100);
    try reflexivity.
  discriminate.
Defined.

(** X3. The mode is not validated: every mode string other than "raw" and
    "stretch" is handled as "uniform". *)
Theorem compute_transform_other_mode_is_uniform
    (nodes : list Node) (width height : Z) (margin : float) (mode : string) :
  mode <> "raw" -> mode <> "stretch" ->
  compute_transform nodes width height margin mode =
  compute_transform nodes width height margin "uniform".
Proof.
  intros H1 H2. apply String.eqb_neq in H1, H2.
  unfold compute_transform. rewrite H1, H2. reflexivity.
Qed.

Lemma compute_transform_other_mode_is_uniform_witness :
  compute_transform [mkNode 1 0 0 []; mkNode 2 100 50 []] 640 480 12 "Uniform" =
  compute_transform [mkNode 1 0 0 []; mkNode 2 100 50 []] 640 480 12 "uniform".
Proof.
  apply (compute_transform_other_mode_is_uniform
           [mkNode 1 0 0 []; mkNode 2 100 50 []] 640 480 12 "Uniform");
    discriminate.
Defined.

(** X4. In the uniform mode a transform that is returned has one scale for
    both axes; the scale is the horizontal fit or the vertical fit, and when
    neither fit is a NaN it exceeds neither of them. *)
Theorem uniform_scale_is_smaller_fit
    (nodes : list Node) (width height : Z) (margin : float) (mode : string)
    (src_width src_height usable_w usable_h : float)
    (scale_x scale_y offset_x offset_y : float) :
  span (map x nodes) = ret src_width ->
  span (map y nodes) = ret src_height ->
  usable width margin = ret usable_w ->
  usable height margin = ret usable_h ->
  mode <> "raw" -> mode <> "stretch" ->
  compute_transform nodes width height margin mode =
    ret (scale_x, scale_y, offset_x, offset_y) ->
  let fit_w := usable_w / src_width in
  let fit_h := usable_h / src_height in
  scale_x = scale_y /\
  (scale_x = fit_w \/ scale_x = fit_h) /\
  (is_nan fit_w = false -> is_nan fit_h = false ->
   (scale_x <=? fit_w) = true /\ (scale_x <=? fit_h) = true).
Proof.
  intros Hsx Hsy Hw Hh Hm1 Hm2.
  destruct (span_inv _ _ Hsx) as (min_x & max_x & Hx1 & Hx2 & ->).
  destruct (span_inv _ _ Hsy) as (min_y & max_y & Hy1 & Hy2 & ->).
  erewrite compute_transform_checked by eassumption.
  apply String.eqb_neq in Hm1, Hm2. rewrite Hm1, Hm2.
  destruct (degenerate usable_w usable_h); [discriminate|].
  unfold py_div.
  destruct (max_x - min_x =? 0); [discriminate|].
  destruct (max_y - min_y =? 0); [discriminate|].
  cbn [bind ret].
  destruct (float_of_int width) as [?|fw]; [discriminate|].
  destruct (float_of_int height) as [?|fh]; [discriminate|].
  cbn [bind ret]. intros H. injection H as <- <- _ _.
  cbv zeta. set (fit_w := usable_w / (max_x - min_x)).
  set (fit_h := usable_h / (max_y - min_y)).
  split; [reflexivity|].
  unfold py_min. destruct (fit_h <? fit_w) eqn:E.
  - split; [now right|]. intros Nw Nh.
    split; [now apply ltb_leb | now apply leb_refl].
  - split; [now left|]. intros Nw Nh.
    split; [now apply leb_refl | now apply not_ltb_leb].
Qed.

Lemma uniform_scale_is_smaller_fit_witness :
  let fit_w := 1000 / 100 in
  let fit_h := 500 / 100 in
  5 = 5 /\
  (5 = fit_w \/ 5 = fit_h) /\
  (is_nan fit_w = false -> is_nan fit_h = false ->
   (5 <=? fit_w) = true /\ (5 <=? fit_h) = true).
Proof.
  apply (uniform_scale_is_smaller_fit
           [mkNode 1 0 0 []; mkNode 2 100 100 []] 1000 500 0 "uniform"
           100 100 1000 500 5 5 250 0);
    try reflexivity; discriminate.
Defined.

(** X5. In the raw mode the remapped nodes have the identifiers, the edges
    and the coordinates of the input nodes, in the same order; the one
    change is that a coordinate [-0.0] becomes [0.0], so every coordinate
    that is not a NaN compares equal to the original. *)
Theorem raw_mode_keeps_coordinates
    (nodes : list Node) (width height : Z) (margin : float)
    (scale_x scale_y offset_x offset_y : float) :
  compute_transform nodes width height margin "raw" =
    ret (scale_x, scale_y, offset_x, offset_y) ->
  let remapped := transform_nodes nodes scale_x scale_y offset_x offset_y in
  map node_id remapped = map node_id nodes /\
  map edges remapped = map edges nodes /\
  map x remapped = map (fun n => drop_zero_sign (x n)) nodes /\
  map y remapped = map (fun n => drop_zero_sign (y n)) nodes /\
  Forall2 (fun n r =>
             (is_nan (x n) = false -> (x r =? x n) = true) /\
             (is_nan (y n) = false -> (y r =? y n) = true)) nodes remapped.
Proof.
  intros H.
  assert (E : (scale_x, scale_y, offset_x, offset_y) = identity_transform).
  { destruct nodes as [|n rest]; [discriminate|].
    destruct (span_nodes (n :: rest) x ltac:(discriminate)) as (lx & hx & Hx1 & Hx2).
    destruct (span_nodes (n :: rest) y ltac:(discriminate)) as (ly & hy & Hy1 & Hy2).
    unfold compute_transform in H. rewrite Hx1, Hx2, Hy1, Hy2 in H.
    cbn [bind ret] in H.
    destruct (usable width margin) as [?|uw]; [discriminate|].
    destruct (usable height margin) as [?|uh]; [discriminate|].
    cbn [bind ret] in H.
    destruct ((uw <=? 0) || (uh <=? 0)); [discriminate|].
    cbn in H. injection H as <- <- <- <-. reflexivity. }
  unfold identity_transform in E. injection E as -> -> -> ->.
  cbv zeta. unfold transform_nodes.
  rewrite !map_map. cbn [node_id edges x y transform_node].
  repeat split.
  - apply map_ext. intros n. apply mul_one_add_zero.
  - apply map_ext. intros n. apply mul_one_add_zero.
  - clear H. induction nodes as [|n rest IH]; cbn [map]; constructor; [|exact IH].
    cbn [x y transform_node]. rewrite !mul_one_add_zero.
    split; apply drop_zero_sign_eqb.
Qed.

Lemma raw_mode_keeps_coordinates_witness :
  let nodes := [mkNode 1 (-0) 4.5 []; mkNode 2 100 50 []] in
  let remapped := transform_nodes nodes 1 1 0 0 in
  map node_id remapped = map node_id nodes /\
  map edges remapped = map edges nodes /\
  map x remapped = map (fun n => drop_zero_sign (x n)) nodes /\
  map y remapped = map (fun n => drop_zero_sign (y n)) nodes /\
  Forall2 (fun n r =>
             (is_nan (x n) = false -> (x r =? x n) = true) /\
             (is_nan (y n) = false -> (y r =? y n) = true)) nodes remapped.
Proof.
  apply (raw_mode_keeps_coordinates
           [mkNode 1 (-0) 4.5 []; mkNode 2 100 50 []] 640 480 12 1 1 0 0).
  reflexivity.
Defined.

End TransformFacts.

(** ** render_node_overlay.py: the scale is never negative *)

Module ScaleFacts.

Import Py NodeOverlay NodeOverlaySpec NodeOverlayFacts TransformSpec.
Import Float64Spec Float64Facts Float64Order.
Local Open Scope string_scope.
Local Open Scope float_scope.

(** *** The reductions of numpy *)

Lemma np_minimum_nan a b : is_nan (np_minimum a b) = is_nan a || is_nan b.
Proof.
  unfold np_minimum.
  destruct (is_nan a) eqn:Na; [rewrite orb_true_r; cbn; exact Na|].
  rewrite orb_false_r. cbn [orb].
  destruct (a <=? b) eqn:E; [|reflexivity].
  rewrite Na. symmetry.
  rewrite leb_spec in E. unfold SFleb in E.
  destruct (is_nan b) eqn:Nb; [|reflexivity].
  apply is_nan_spec in Nb. rewrite Nb in E.
  destruct (Prim2SF a); discriminate.
Qed.

Lemma np_maximum_nan a b : is_nan (np_maximum a b) = is_nan a || is_nan b.
Proof.
  unfold np_maximum.
  destruct (is_nan a) eqn:Na; [rewrite orb_true_r; cbn; exact Na|].
  rewrite orb_false_r. cbn [orb].
  destruct (b <=? a) eqn:E; [|reflexivity].
  rewrite Na. symmetry.
  rewrite leb_spec in E. unfold SFleb in E.
  destruct (is_nan b) eqn:Nb; [|reflexivity].
  apply is_nan_spec in Nb. rewrite Nb in E. discriminate.
Qed.

Lemma np_minimum_le a b :
  is_nan a = false -> is_nan b = false ->
  (ord (Prim2SF (np_minimum a b)) <= ord (Prim2SF a))%Z.
Proof.
  intros Na Nb. unfold np_minimum. rewrite Na, orb_false_r.
  destruct (a <=? b) eqn:E; [lia|].
  rewrite (leb_ord _ _ Na Nb) in E. apply Z.leb_gt in E. lia.
Qed.

Lemma np_maximum_ge a b :
  is_nan a = false -> is_nan b = false ->
  (ord (Prim2SF a) <= ord (Prim2SF (np_maximum a b)))%Z.
Proof.
  intros Na Nb. unfold np_maximum. rewrite Na, orb_false_r.
  destruct (b <=? a) eqn:E; [lia|].
  rewrite (leb_ord _ _ Nb Na) in E. apply Z.leb_gt in E. lia.
Qed.

Lemma fold_minimum_nan l a :
  is_nan (fold_left np_minimum l a) = is_nan a || existsb is_nan l.
Proof.
  revert a. induction l as [|b l IH]; intros a; cbn [fold_left existsb].
  - now rewrite orb_false_r.
  - rewrite IH, np_minimum_nan, orb_assoc. reflexivity.
Qed.

Lemma fold_maximum_nan l a :
  is_nan (fold_left np_maximum l a) = is_nan a || existsb is_nan l.
Proof.
  revert a. induction l as [|b l IH]; intros a; cbn [fold_left existsb].
  - now rewrite orb_false_r.
  - rewrite IH, np_maximum_nan, orb_assoc. reflexivity.
Qed.

Lemma fold_minimum_le l a :
  is_nan a = false -> existsb is_nan l = false ->
  (ord (Prim2SF (fold_left np_minimum l a)) <= ord (Prim2SF a))%Z.
Proof.
  revert a. induction l as [|b l IH]; intros a Na Nl; cbn [fold_left]; [lia|].
  cbn [existsb] in Nl. apply orb_false_iff in Nl. destruct Nl as [Nb Nl].
  assert (Nm : is_nan (np_minimum a b) = false)
    by (rewrite np_minimum_nan, Na, Nb; reflexivity).
  pose proof (IH _ Nm Nl). pose proof (np_minimum_le a b Na Nb). lia.
Qed.

Lemma fold_maximum_ge l a :
  is_nan a = false -> existsb is_nan l = false ->
  (ord (Prim2SF a) <= ord (Prim2SF (fold_left np_maximum l a)))%Z.
Proof.
  revert a. induction l as [|b l IH]; intros a Na Nl; cbn [fold_left]; [lia|].
  cbn [existsb] in Nl. apply orb_false_iff in Nl. destruct Nl as [Nb Nl].
  assert (Nm : is_nan (np_maximum a b) = false)
    by (rewrite np_maximum_nan, Na, Nb; reflexivity).
  pose proof (IH _ Nm Nl). pose proof (np_maximum_ge a b Na Nb). lia.
Qed.

(** The extent [max - min] of an array is never negative. *)
Theorem span_not_negative arr lo hi :
  np_min arr = ret lo -> np_max arr = ret hi ->
  not_negative (Prim2SF (hi - lo)) = true.
Proof.
  destruct arr as [|a l]; [discriminate|].
  rewrite np_min_cons, np_max_cons. intros Hlo Hhi.
  injection Hlo as <-. injection Hhi as <-.
  rewrite sub_spec. unfold SF64sub.
  destruct (is_nan a || existsb is_nan l) eqn:N.
  - pose proof (fold_maximum_nan l a) as H. rewrite N in H.
    apply is_nan_spec in H. rewrite H. reflexivity.
  - apply orb_false_iff in N. destruct N as [Na Nl].
    apply sub_not_negative; try apply Prim2SF_valid.
    pose proof (fold_minimum_le l a Na Nl). pose proof (fold_maximum_ge l a Na Nl). lia.
Qed.

(** A quotient of [compute_transform] is not negative. *)
Lemma fit_not_negative usable_v extent fit :
  (usable_v <=? 0) = false ->
  not_negative (Prim2SF extent) = true ->
  py_div usable_v extent = ret fit ->
  (fit <? 0) = false.
Proof.
  intros Hu He. unfold py_div.
  destruct (extent =? 0) eqn:Z0; [discriminate|].
  intros H. injection H as <-.
  rewrite ltb_zero_spec, div_spec. unfold SF64div.
  destruct (leb_zero_spec _ Hu) as [Hn|Hp].
  - apply is_nan_spec in Hn. rewrite Hn. reflexivity.
  - rewrite eqb_spec in Z0. change (Prim2SF 0) with (S754_zero false) in Z0.
    rewrite (div_not_negative _ _ Hp He Z0). reflexivity.
Qed.

(** X23. [compute_transform] never returns a negative scale, whatever the
    nodes, the image size, the margin and the mode: the extents of the
    coordinates are not negative and the usable sizes are positive, so the
    board is never mirrored. *)
Theorem compute_transform_scale_not_negative
    (nodes : list Node) (width height : Z) (margin : float) (mode : string)
    (scale_x scale_y offset_x offset_y : float) :
  compute_transform nodes width height margin mode =
    ret (scale_x, scale_y, offset_x, offset_y) ->
  (scale_x <? 0) = false /\ (scale_y <? 0) = false.
Proof.
  unfold compute_transform.
  destruct (np_min (map x nodes)) as [?|min_x] eqn:Hx1; [discriminate|].
  destruct (np_max (map x nodes)) as [?|max_x] eqn:Hx2; [discriminate|].
  destruct (np_min (map y nodes)) as [?|min_y] eqn:Hy1; [discriminate|].
  destruct (np_max (map y nodes)) as [?|max_y] eqn:Hy2; [discriminate|].
  cbn [bind ret].
  destruct (usable width margin) as [?|usable_w]; [discriminate|].
  destruct (usable height margin) as [?|usable_h]; [discriminate|].
  cbn [bind ret].
  destruct ((usable_w <=? 0) || (usable_h <=? 0)) eqn:Hd; [discriminate|].
  apply orb_false_iff in Hd. destruct Hd as [Uw Uh].
  pose proof (span_not_negative _ _ _ Hx1 Hx2) as Sx.
  pose proof (span_not_negative _ _ _ Hy1 Hy2) as Sy.
  destruct (mode =? "raw")%string.
  { intros H. injection H as <- <- _ _. split; reflexivity. }
  destruct (mode =? "stretch")%string.
  - destruct (py_div usable_w (max_x - min_x)) as [?|fit_w] eqn:Fw; [discriminate|].
    destruct (py_div usable_h (max_y - min_y)) as [?|fit_h] eqn:Fh; [discriminate|].
    cbn [bind ret]. intros H. injection H as <- <- _ _.
    split; [exact (fit_not_negative _ _ _ Uw Sx Fw) | exact (fit_not_negative _ _ _ Uh Sy Fh)].
  - destruct (py_div usable_w (max_x - min_x)) as [?|fit_w] eqn:Fw; [discriminate|].
    destruct (py_div usable_h (max_y - min_y)) as [?|fit_h] eqn:Fh; [discriminate|].
    cbn [bind ret].
    destruct (float_of_int width) as [?|fw]; [discriminate|].
    destruct (float_of_int height) as [?|fh]; [discriminate|].
    cbn [bind ret]. intros H. injection H as <- <- _ _.
    pose proof (fit_not_negative _ _ _ Uw Sx Fw) as Nw.
    pose proof (fit_not_negative _ _ _ Uh Sy Fh) as Nh.
    unfold py_min. destruct (fit_h <? fit_w); split; assumption.
Qed.

Lemma compute_transform_scale_not_negative_witness :
  (5 <? 0) = false /\ (5 <? 0) = false.
Proof.
  apply (compute_transform_scale_not_negative
           [mkNode 1 0 0 []; mkNode 2 100 100 []] 1000 500 0 "uniform" 5 5 250 0).
  reflexivity.
Defined.

End ScaleFacts.

(** ** combine_board_images.py: further properties of the aligner *)

Module AlignMoreFacts.

Import Py Fusion Demo AlignSpec AlignFacts.

Lemma length_points_at kp idx matches : length (points_at kp idx matches) = length matches.
Proof. unfold points_at. apply length_map. Qed.

Lemma length_kept (matches : list DMatch) :
  (12 <= length matches)%nat ->
  (12 <= length (firstn 300 (sorted_by_distance matches)) <= 300)%nat.
Proof.
  intros H. rewrite length_firstn.
  rewrite (Permutation_length (sorted_by_distance_perm matches)). lia.
Qed.

(** X6. The aligner raises the error "Failed to compute ORB descriptors for
    alignment" exactly when the detector returns no descriptors for the
    primary or for the secondary image; this check comes before the matching,
    so it does not depend on what the matcher would return. *)
Theorem align_secondary_descriptor_failure_iff
    (cv : OpenCV) (primary secondary : image) :
  align_secondary cv primary secondary = raise InsufficientFeaturesError <->
  descriptors_of cv primary = None \/ descriptors_of cv secondary = None.
Proof.
  unfold align_secondary, descriptors_of.
  destruct (ORB_detectAndCompute cv 5000 (cvtColor_BGR2GRAY cv primary)) as [kp1 des1].
  destruct (ORB_detectAndCompute cv 5000 (cvtColor_BGR2GRAY cv secondary)) as [kp2 des2].
  cbn [snd].
  destruct des1 as [d1|]; [|split; [now left | reflexivity]].
  destruct des2 as [d2|]; [|split; [now right | reflexivity]].
  split; [|intros [H|H]; discriminate H].
  intros H. exfalso.
  destruct (length (BFMatcher_match cv NORM_HAMMING true d1 d2) <? 12)%nat;
    [discriminate|].
  destruct (estimate_and_warp_cases cv primary secondary kp1 kp2
              (BFMatcher_match cv NORM_HAMMING true d1 d2))
    as [[E _] | [_ E]]; rewrite E in H; [discriminate|].
  destruct (findHomography cv _ _ RANSAC 5%float); discriminate.
Qed.

(** The image the aligner returns is the warp of the secondary image. *)
Lemma align_secondary_warped
    (cv : OpenCV) (primary secondary warped : image) (H : homography) :
  align_secondary cv primary secondary = ret (warped, H) ->
  warped = warpPerspective cv secondary H (shape1 primary, shape0 primary).
Proof.
  unfold align_secondary.
  destruct (ORB_detectAndCompute cv 5000 (cvtColor_BGR2GRAY cv primary)) as [kp1 des1].
  destruct (ORB_detectAndCompute cv 5000 (cvtColor_BGR2GRAY cv secondary)) as [kp2 des2].
  destruct des1 as [d1|]; [|discriminate].
  destruct des2 as [d2|]; [|discriminate].
  destruct (length (BFMatcher_match cv NORM_HAMMING true d1 d2) <? 12)%nat;
    [discriminate|].
  intros Hr.
  destruct (estimate_and_warp_cases cv primary secondary kp1 kp2
              (BFMatcher_match cv NORM_HAMMING true d1 d2))
    as [[E _] | [_ E]]; rewrite E in Hr; [discriminate|].
  destruct (findHomography cv _ _ RANSAC 5%float); [|discriminate].
  now injection Hr as <- <-.
Qed.

(** X7. Whenever the aligner returns, both images had descriptors, the
    matcher returned at least 12 matches, the homography was estimated from
    between 12 and 300 point pairs (the best matches, every index in range),
    and the image returned is the secondary image warped with the matrix
    returned, to a canvas of the width and height of the primary image. *)
Theorem align_secondary_returns
    (cv : OpenCV) (primary secondary warped : image) (H : homography) :
  align_secondary cv primary secondary = ret (warped, H) ->
  exists des1 des2,
    descriptors_of cv primary = Some des1 /\
    descriptors_of cv secondary = Some des2 /\
    let kp1 := keypoints_of cv primary in
    let kp2 := keypoints_of cv secondary in
    let matches := BFMatcher_match cv NORM_HAMMING true des1 des2 in
    let kept := firstn 300 (sorted_by_distance matches) in
    let src_pts := points_at kp1 queryIdx kept in
    let dst_pts := points_at kp2 trainIdx kept in
    (12 <= length matches)%nat /\
    (forall m, In m kept ->
       (queryIdx m < length kp1)%nat /\ (trainIdx m < length kp2)%nat) /\
    (12 <= length src_pts <= 300)%nat /\
    length dst_pts = length src_pts /\
    findHomography cv dst_pts src_pts RANSAC 5%float = Some H /\
    warped = warpPerspective cv secondary H (shape1 primary, shape0 primary).
Proof.
  unfold align_secondary, descriptors_of, keypoints_of.
  destruct (ORB_detectAndCompute cv 5000 (cvtColor_BGR2GRAY cv primary)) as [kp1 des1].
  destruct (ORB_detectAndCompute cv 5000 (cvtColor_BGR2GRAY cv secondary)) as [kp2 des2].
  cbn [fst snd].
  destruct des1 as [d1|]; [|discriminate].
  destruct des2 as [d2|]; [|discriminate].
  set (matches := BFMatcher_match cv NORM_HAMMING true d1 d2).
  destruct (Nat.ltb_spec (length matches) 12) as [Hlt|Hge]; [discriminate|].
  intros Hr. exists d1, d2. split; [reflexivity|]. split; [reflexivity|].
  cbv zeta. fold matches.
  destruct (estimate_and_warp_cases cv primary secondary kp1 kp2 matches)
    as [[E _] | [Hidx E]]; rewrite E in Hr; [discriminate|].
  destruct (findHomography cv _ _ RANSAC 5%float) as [H'|] eqn:EH; [|discriminate].
  injection Hr as <- <-.
  rewrite !length_points_at.
  repeat split; try assumption; try reflexivity; try (apply Hidx; assumption);
    apply length_kept; exact Hge.
Qed.

Lemma align_secondary_returns_witness :
  exists des1 des2,
    descriptors_of demo_cv [[(x03, x03, x03)]] = Some des1 /\
    descriptors_of demo_cv [[(x00, x00, x00)]] = Some des2 /\
    let kp1 := keypoints_of demo_cv [[(x03, x03, x03)]] in
    let kp2 := keypoints_of demo_cv [[(x00, x00, x00)]] in
    let matches := BFMatcher_match demo_cv NORM_HAMMING true des1 des2 in
    let kept := firstn 300 (sorted_by_distance matches) in
    let src_pts := points_at kp1 queryIdx kept in
    let dst_pts := points_at kp2 trainIdx kept in
    (12 <= length matches)%nat /\
    (forall m, In m kept ->
       (queryIdx m < length kp1)%nat /\ (trainIdx m < length kp2)%nat) /\
    (12 <= length src_pts <= 300)%nat /\
    length dst_pts = length src_pts /\
    findHomography demo_cv dst_pts src_pts RANSAC 5%float =
      Some [[1; 0; 0]; [0; 1; 0]; [0; 0; 1]]%float /\
    [[(x00, x00, x00)]] =
      warpPerspective demo_cv [[(x00, x00, x00)]] [[1; 0; 0]; [0; 1; 0]; [0; 0; 1]]%float
        (shape1 [[(x03, x03, x03)]], shape0 [[(x03, x03, x03)]]).
Proof.
  apply (align_secondary_returns demo_cv [[(x03, x03, x03)]] [[(x00, x00, x00)]]
           [[(x00, x00, x00)]] [[1; 0; 0]; [0; 1; 0]; [0; 0; 1]]%float).
  reflexivity.
Defined.

End AlignMoreFacts.

(** ** combine_board_images.py: further properties of the blender *)

Module BlendMoreFacts.

Import Py Fusion Demo F32Spec F32Round F32Weights BlendSpec BlendFacts.
Local Open Scope Z_scope.

Lemma repr_148 : repr (2 ^ 148).
Proof. apply repr_pow2. lia. Qed.

Lemma B2Z_half : B2Z half = 2 ^ 148.
Proof. reflexivity. Qed.

Lemma nonneg_half : nonneg half = true.
Proof. reflexivity. Qed.

(** The weight of the primary image, as a number of units, when the sum of
    the two sharpness values is finite. *)
Lemma weight_primary_value sp ss :
  pos_finite sp = true -> pos_finite ss = true ->
  pos_finite (F32.add sp ss) = true ->
  let T := rnd (B2Z sp + B2Z ss) 1 in
  T < 2 ^ 277 /\ B2Z sp <= T /\ B2Z ss <= T /\ 0 < T /\
  nonneg (weight_primary sp ss) = true /\
  B2Z (weight_primary sp ss) = rnd (B2Z sp * 2 ^ 149) T.
Proof.
  intros Hp Hs Hsum.
  destruct (add_positive sp ss Hp Hs) as (E & Tp & Ts & Hfin & Hinf). cbv zeta in *.
  destruct (pos_finite_inv sp Hp) as [Np Pp].
  set (T := rnd (B2Z sp + B2Z ss) 1) in *.
  assert (Hlt : T < 2 ^ 277).
  { destruct (Z_lt_le_dec T (2 ^ 277)) as [H|H]; [exact H|].
    rewrite E, (Hinf H) in Hsum. discriminate. }
  destruct (Hfin Hlt) as [Tpos Tv].
  destruct (pos_finite_inv _ Tpos) as [Tn _].
  split; [exact Hlt|]. split; [exact Tp|]. split; [exact Ts|]. split; [lia|].
  unfold weight_primary. rewrite E.
  rewrite (div_rnd _ _ Np Tn) by (rewrite Tv; lia).
  rewrite Tv.
  assert (P149 : 0 < 2 ^ 149) by (apply pow2_gt0; lia).
  assert (Wle : rnd (B2Z sp * 2 ^ 149) T <= U).
  { apply rnd_le_repr; [nia | lia | apply repr_U | unfold U; nia]. }
  assert (LU : U < 2 ^ 277) by (apply Z.pow_lt_mono_r; lia).
  destruct (@nonneg_Z2B_rnd (B2Z sp * 2 ^ 149) T U) as [Wn Wv]; try lia.
  split; assumption.
Qed.

(** The sharper source gets at least one half. *)
Lemma weight_primary_ge_half sp ss :
  pos_finite sp = true -> pos_finite ss = true ->
  pos_finite (F32.add sp ss) = true ->
  B2Z ss <= B2Z sp -> 2 ^ 148 <= B2Z (weight_primary sp ss).
Proof.
  intros Hp Hs Hsum Hle.
  destruct (weight_primary_value sp ss Hp Hs Hsum) as (Tlt & Tp & Ts & Tpos & _ & ->).
  destruct (pos_finite_inv sp Hp) as [Np Pp].
  pose proof (B2Z_nonneg ss) as S0.
  assert (Tle : rnd (B2Z sp + B2Z ss) 1 <= 2 * B2Z sp).
  { destruct (Z_lt_le_dec (2 * B2Z sp) (2 ^ 277)) as [H|H]; [|lia].
    apply rnd_le_repr; [lia | lia | | lia].
    apply repr_double; [apply repr_B2Z, Np | exact H]. }
  apply rnd_ge_repr; [lia | exact repr_148|].
  change (2 ^ 149) with (2 * 2 ^ 148). nia.
Qed.

Lemma weight_primary_le_half sp ss :
  pos_finite sp = true -> pos_finite ss = true ->
  pos_finite (F32.add sp ss) = true ->
  B2Z sp <= B2Z ss -> B2Z (weight_primary sp ss) <= 2 ^ 148.
Proof.
  intros Hp Hs Hsum Hle.
  destruct (weight_primary_value sp ss Hp Hs Hsum) as (Tlt & Tp & Ts & Tpos & _ & ->).
  destruct (pos_finite_inv sp Hp) as [Np Pp].
  pose proof (B2Z_nonneg ss) as S0.
  assert (H2 : 2 * B2Z sp < 2 ^ 277).
  { destruct (Z_lt_le_dec (B2Z sp + B2Z ss) (2 ^ 277)) as [H|H]; [lia|].
    pose proof (rnd_overflow _ H). lia. }
  assert (Tge2 : 2 * B2Z sp <= rnd (B2Z sp + B2Z ss) 1).
  { apply rnd_ge_repr; [lia | | lia].
    apply repr_double; [apply repr_B2Z, Np | exact H2]. }
  apply rnd_le_repr; [nia | lia | exact repr_148|].
  change (2 ^ 149) with (2 * 2 ^ 148). nia.
Qed.

(** The order of two weights, from the order of the sharpness values. *)
Lemma sharper_weighs_more sp ss :
  pos_finite sp = true -> pos_finite ss = true ->
  pos_finite (F32.add sp ss) = true ->
  (F32.leb ss sp = true ->
   F32.leb half (weight_primary sp ss) = true /\
   F32.leb (weight_secondary sp ss) half = true) /\
  (F32.leb sp ss = true ->
   F32.leb (weight_primary sp ss) half = true /\
   F32.leb half (weight_secondary sp ss) = true).
Proof.
  intros Pp Ps Hsum.
  destruct (weight_primary_positive sp ss Pp Ps) as [Wn Wle].
  destruct (complement_weights _ Wn Wle) as (Sn & Sv & Sle & _).
  fold (weight_secondary sp ss) in Sn, Sv, Sle.
  pose proof (B2Z_nonneg (weight_primary sp ss)) as W0.
  destruct (pos_finite_inv sp Pp) as [Hp _].
  destruct (pos_finite_inv ss Ps) as [Hs _].
  rewrite (leb_B2Z _ _ Hs Hp), (leb_B2Z _ _ Hp Hs).
  rewrite (leb_B2Z _ _ nonneg_half Wn), (leb_B2Z _ _ Wn nonneg_half).
  rewrite (leb_B2Z _ _ nonneg_half Sn), (leb_B2Z _ _ Sn nonneg_half).
  rewrite B2Z_half, Sv.
  assert (EU : U = 2 * 2 ^ 148) by reflexivity.
  split; intros Hle; apply Z.leb_le in Hle.
  - pose proof (weight_primary_ge_half sp ss Pp Ps Hsum Hle) as Hw.
    split; apply Z.leb_le; [exact Hw|].
    apply rnd_le_repr; [lia | lia | exact repr_148 | lia].
  - pose proof (weight_primary_le_half sp ss Pp Ps Hsum Hle) as Hw.
    split; apply Z.leb_le; [exact Hw|].
    apply rnd_ge_repr; [lia | exact repr_148 | lia].
Qed.

Section Blender.

Variable cv : OpenCV.
Hypothesis contract : OpenCV_contract cv.

(** The weights of a pixel, from the two sharpness values of that pixel. *)
Lemma blend_weights_at2 (primary secondary : image) :
  same_shape primary secondary ->
  exists weight_primary_map weight_secondary_map : fmap,
    blend_weights cv primary secondary =
      ret (weight_primary_map, weight_secondary_map) /\
    forall (i j : nat) (sp ss : f32),
      at2 (laplacian_sharpness cv primary 1.5) i j = Some sp ->
      at2 (laplacian_sharpness cv secondary 1.5) i j = Some ss ->
      at2 weight_primary_map i j = Some (weight_primary sp ss) /\
      at2 weight_secondary_map i j = Some (weight_secondary sp ss).
Proof.
  intros Hshape.
  pose proof (blend_weights_eq cv contract _ _ Hshape) as EW.
  destruct (weight_maps _ _) as [wpm wsm] eqn:E.
  exists wpm, wsm. split; [exact EW|].
  intros i j sp ss Hsp Hss.
  destruct (weight_maps_at2 _ _ i j sp ss Hsp Hss) as [A1 A2].
  rewrite E in A1, A2. split; assumption.
Qed.


(** X10. The sharper source gets the larger weight, at every pixel where
    both sharpness values are positive and their float32 sum is finite:
    where the primary image is at least as sharp as the secondary image its
    weight is at least 0.5 and the weight of the secondary image at most
    0.5, and the other way round. *)
Theorem sharper_source_weighs_more (primary secondary : image) :
  same_shape primary secondary ->
  exists weight_primary_map weight_secondary_map : fmap,
    blend_weights cv primary secondary =
      ret (weight_primary_map, weight_secondary_map) /\
    forall (i j : nat) (sp ss : f32),
      at2 (laplacian_sharpness cv primary 1.5) i j = Some sp ->
      at2 (laplacian_sharpness cv secondary 1.5) i j = Some ss ->
      pos_finite sp = true -> pos_finite ss = true ->
      pos_finite (F32.add sp ss) = true ->
      exists wp ws : f32,
        at2 weight_primary_map i j = Some wp /\
        at2 weight_secondary_map i j = Some ws /\
        (F32.leb ss sp = true ->
         F32.leb half wp = true /\ F32.leb ws half = true) /\
        (F32.leb sp ss = true ->
         F32.leb wp half = true /\ F32.leb half ws = true).
Proof.
  intros Hshape.
  destruct (blend_weights_at2 primary secondary Hshape) as (wpm & wsm & EW & Hat).
  exists wpm, wsm. split; [exact EW|].
  intros i j sp ss Hsp Hss Pp Ps Hsum.
  destruct (Hat i j sp ss Hsp Hss) as [A1 A2].
  exists (weight_primary sp ss), (weight_secondary sp ss).
  split; [exact A1|]. split; [exact A2|].
  exact (sharper_weighs_more sp ss Pp Ps Hsum).
Qed.

(** X11. Images of different heights, neither of them 1, are not blended:
    the sum of the two sharpness maps raises numpy's ValueError. *)
Theorem blend_images_height_mismatch (primary secondary : image) :
  length primary <> length secondary ->
  length primary <> 1%nat -> length secondary <> 1%nat ->
  is_ValueError (blend_images cv primary secondary) = true.
Proof.
  intros Hne H1 H2.
  unfold blend_images, blend_weights.
  set (sp := laplacian_sharpness cv primary 1.5).
  set (ss := laplacian_sharpness cv secondary 1.5).
  assert (Lp : length sp = length primary)
    by (eapply Forall2_length, (sharpness_shape cv contract)).
  assert (Ls : length ss = length secondary)
    by (eapply Forall2_length, (sharpness_shape cv contract)).
  unfold elementwise at 1. unfold broadcast at 1.
  destruct (Nat.eqb_spec (length sp) (length ss)) as [E|_]; [congruence|].
  destruct sp as [|r1 [|r1' sp']]; destruct ss as [|r2 [|r2' ss']];
    cbn [length] in *; try congruence; reflexivity.
Qed.

End Blender.


Lemma sharper_source_weighs_more_witness :
  let primary := [[(x0a, x0a, x0a); (x64, x64, x64); (xc8, xc8, xc8)];
                  [(x00, x10, x20); (x30, x40, x50); (xff, xff, xff)]] in
  let secondary := [[(xc8, xc8, xc8); (x64, x14, x64); (x0a, x0a, x0a)];
                    [(x05, x06, x07); (xf0, x40, x00); (x00, x00, x00)]] in
  exists weight_primary_map weight_secondary_map : fmap,
    blend_weights sample_cv primary secondary =
      ret (weight_primary_map, weight_secondary_map) /\
    forall (i j : nat) (sp ss : f32),
      at2 (laplacian_sharpness sample_cv primary 1.5) i j = Some sp ->
      at2 (laplacian_sharpness sample_cv secondary 1.5) i j = Some ss ->
      exists wp ws : f32,
        at2 weight_primary_map i j = Some wp /\
        at2 weight_secondary_map i j = Some ws /\
        (F32.leb ss sp = true ->
         F32.leb half wp = true /\ F32.leb ws half = true) /\
        (F32.leb sp ss = true ->
         F32.leb wp half = true /\ F32.leb half ws = true).
Proof.
  intros primary secondary.
  destruct (sharper_source_weighs_more sample_cv BlendClaims.sample_cv_contract
              primary secondary) as (wpm & wsm & E & H); [repeat constructor|].
  exists wpm, wsm. split; [exact E|].
  intros i j sp ss Hsp Hss.
  assert (Hsum : at2 (zip2d F32.add (laplacian_sharpness sample_cv primary 1.5)
                        (laplacian_sharpness sample_cv secondary 1.5)) i j =
                 Some (F32.add sp ss)).
  { rewrite at2_zip2d, Hsp, Hss. reflexivity. }
  assert (Pp : pos_finite sp = true).
    { apply (at2_forallb pos_finite _ i j sp) in Hsp; [exact Hsp|].
      vm_compute. reflexivity. }
  assert (Ps : pos_finite ss = true).
    { apply (at2_forallb pos_finite _ i j ss) in Hss; [exact Hss|].
      vm_compute. reflexivity. }
  assert (Pt : pos_finite (F32.add sp ss) = true).
    { apply (at2_forallb pos_finite _ i j _) in Hsum; [exact Hsum|].
      vm_compute. reflexivity. }
  exact (H i j sp ss Hsp Hss Pp Ps Pt).
Defined.

Lemma blend_images_height_mismatch_witness :
  is_ValueError
    (blend_images demo_cv
       [[(x03, x03, x03)]; [(x03, x03, x03)]]
       [[(x00, x00, x00)]; [(x00, x00, x00)]; [(x00, x00, x00)]]) = true.
Proof.
  apply (blend_images_height_mismatch demo_cv BlendClaims.demo_cv_contract);
    cbn; lia.
Defined.

(** The weights of [sample_cv] on the images above: the sharpness values are
    positive and differ, the weights are between 0 and 1, and the weight of
    the primary image is above 0.5 exactly where it is the sharper one. *)
Lemma sample_weights :
  let primary := [[(x0a, x0a, x0a); (x64, x64, x64); (xc8, xc8, xc8)];
                  [(x00, x10, x20); (x30, x40, x50); (xff, xff, xff)]] in
  let secondary := [[(xc8, xc8, xc8); (x64, x14, x64); (x0a, x0a, x0a)];
                    [(x05, x06, x07); (xf0, x40, x00); (x00, x00, x00)]] in
  let sp := laplacian_sharpness sample_cv primary 1.5 in
  let ss := laplacian_sharpness sample_cv secondary 1.5 in
  forallb (forallb pos_finite) sp = true /\
  forallb (forallb pos_finite) ss = true /\
  forallb (forallb pos_finite) (zip2d F32.add sp ss) = true /\
  zip2d F32.leb ss sp = [[false; true; true]; [true; false; true]] /\
  map2d (F32.leb half) (fst (weight_maps sp ss)) =
    [[false; true; true]; [true; false; true]].
Proof. vm_compute. repeat split. Qed.

End BlendMoreFacts.

(** ** render_node_overlay.py: loading and saving nodes *)

Module NodeFilesFacts.

Import Py NodeOverlay Builtins NodeFiles MoreSpec.
Local Open Scope string_scope.
Local Open Scope Z_scope.

(** *** The stable sort by identifier *)

Lemma insert_by_id_perm n l : Permutation (insert_by_id n l) (n :: l).
Proof.
  induction l as [|h t IH]; cbn; [reflexivity|].
  destruct (node_id h <? node_id n); [|reflexivity].
  rewrite IH. apply perm_swap.
Qed.


Lemma insert_by_id_sorted n l :
  StronglySorted id_le l -> StronglySorted id_le (insert_by_id n l).
Proof.
  induction 1 as [|h t Hs IH Hh]; cbn.
  - repeat constructor.
  - destruct (Z.ltb_spec (node_id h) (node_id n)) as [Hlt|Hge].
    + constructor; [exact IH|].
      rewrite Forall_forall in *. intros b Hb.
      apply (Permutation_in _ (insert_by_id_perm n t)) in Hb.
      destruct Hb as [<- | Hb]; [unfold id_le; lia | auto].
    + constructor; [constructor; assumption|].
      constructor; [exact Hge|].
      rewrite Forall_forall in *. intros b Hb.
      specialize (Hh b Hb). unfold id_le in *. lia.
Qed.

Lemma sorted_by_id_sorted l : StronglySorted id_le (sorted_by_id l).
Proof.
  induction l as [|n l IH]; cbn; [constructor|].
  now apply insert_by_id_sorted.
Qed.



(** A list that is sorted already is left as it is. *)
Lemma sorted_by_id_fixed l : StronglySorted id_le l -> sorted_by_id l = l.
Proof.
  induction 1 as [|h t Hs IH Hh]; [reflexivity|].
  cbn [sorted_by_id fold_right]. fold (sorted_by_id t). rewrite IH.
  destruct t as [|h' t']; [reflexivity|].
  cbn [insert_by_id].
  inversion Hh as [|? ? Hle _]; subst. unfold id_le in Hle.
  destruct (Z.ltb_spec (node_id h') (node_id h)); [lia | reflexivity].
Qed.

Lemma sorted_map_ids (f : Node -> Node) l :
  (forall n, node_id (f n) = node_id n) ->
  StronglySorted id_le l -> StronglySorted id_le (map f l).
Proof.
  intros Hf. induction 1 as [|h t Hs IH Hh]; cbn [map]; constructor; [exact IH|].
  rewrite Forall_forall in *. intros b Hb.
  apply in_map_iff in Hb. destruct Hb as (a & <- & Ha).
  unfold id_le. rewrite !Hf. now apply Hh.
Qed.

(** *** The comprehension *)


Lemma traverse_map {A B : Type} (f : A -> outcome B) (g : A -> B) l :
  (forall a, In a l -> f a = done (g a)) -> traverse f l = done (map g l).
Proof.
  induction l as [|a l IH]; intros H; [reflexivity|].
  cbn [traverse map]. rewrite (H a) by now left. cbn.
  rewrite IH by (intros; apply H; now right). reflexivity.
Qed.

Lemma traverse_first_error {A B : Type} (f : A -> outcome B) good bad rest e :
  Forall (fun a => exists b, f a = done b) good ->
  f bad = throw e ->
  traverse f (good ++ bad :: rest) = throw e.
Proof.
  intros Hgood Hbad. induction Hgood as [|a good [b Hb] _ IH]; cbn.
  - rewrite Hbad. reflexivity.
  - rewrite Hb. cbn. rewrite IH. reflexivity.
Qed.

Section Conversions.

Variable int_of_str : string -> outcome Z.
Variable float_of_str : string -> outcome float.

Abbreviation node_of_entry := (NodeFiles.node_of_entry int_of_str float_of_str).
Abbreviation load_nodes := (NodeFiles.load_nodes int_of_str float_of_str).

(** What a result of [load_nodes] is made of. *)
Lemma load_nodes_inv (data : json) (nodes : list Node) :
  load_nodes data = done nodes ->
  exists entries raw,
    iterate data = done entries /\
    traverse node_of_entry entries = done raw /\
    nodes = sorted_by_id raw.
Proof.
  unfold NodeFiles.load_nodes.
  destruct (iterate data) as [e|entries]; [discriminate|]. cbn [and_then].
  destruct (traverse node_of_entry entries) as [e|raw] eqn:E; [discriminate|].
  cbn [and_then]. intros H. injection H as <-.
  exists entries, raw. repeat split. exact E.
Qed.


(** X13. An entry that is an object without one of the keys raises KeyError
    for the first missing key, in the order id, position, x, y, edges; a
    value that is present but of the wrong kind is converted first, so its
    error comes before the KeyError of a later key. *)
Theorem node_of_entry_missing_key (fields : list (string * json)) :
  (lookup "id" fields = None ->
   node_of_entry (JObject fields) = throw (KeyError "id")) /\
  (forall id_value node_id,
     lookup "id" fields = Some id_value ->
     py_int int_of_str id_value = done node_id ->
     (lookup "position" fields = None ->
      node_of_entry (JObject fields) = throw (KeyError "position")) /\
     (forall position,
        lookup "position" fields = Some (JObject position) ->
        (lookup "x" position = None ->
         node_of_entry (JObject fields) = throw (KeyError "x")) /\
        (forall x_value x,
           lookup "x" position = Some x_value ->
           py_float float_of_str x_value = done x ->
           (lookup "y" position = None ->
            node_of_entry (JObject fields) = throw (KeyError "y")) /\
           (forall y_value y,
              lookup "y" position = Some y_value ->
              py_float float_of_str y_value = done y ->
              lookup "edges" fields = None ->
              node_of_entry (JObject fields) = throw (KeyError "edges"))))).
Proof.
  unfold NodeFiles.node_of_entry. cbn [subscript].
  split; [intros ->; reflexivity|].
  intros id_value i -> Hi. cbn [and_then done]. rewrite Hi. cbn [and_then done].
  split; [intros ->; reflexivity|].
  intros position ->. cbn [and_then done subscript].
  split; [intros ->; reflexivity|].
  intros x_value xv -> Hx. cbn [and_then done]. rewrite Hx. cbn [and_then done].
  split; [intros ->; reflexivity|].
  intros y_value yv -> Hy. cbn [and_then done]. rewrite Hy. cbn [and_then done].
  intros ->. reflexivity.
Qed.

(** X14. The entries are converted in order and the first one that fails
    decides: [load_nodes] raises its error and returns no node, whatever the
    entries after it hold. *)
Theorem load_nodes_first_error (good : list json) (bad : json) (rest : list json)
    (e : exception) :
  Forall (fun entry => exists n, node_of_entry entry = done n) good ->
  node_of_entry bad = throw e ->
  load_nodes (JArray (good ++ bad :: rest)) = throw e.
Proof.
  intros Hgood Hbad. unfold NodeFiles.load_nodes. cbn [iterate and_then done].
  rewrite (traverse_first_error _ _ _ _ _ Hgood Hbad). reflexivity.
Qed.

(** X15. The top-level value is not required to be an array: an empty
    array, an empty object and an empty string all load as no node; an object
    or a string that is not empty raises TypeError, as its keys or characters
    are strings; null, a boolean and a number raise TypeError. *)
Theorem load_nodes_top_level :
  load_nodes (JArray []) = done [] /\
  load_nodes (JObject []) = done [] /\
  load_nodes (JString "") = done [] /\
  (forall key value fields,
     load_nodes (JObject ((key, value) :: fields)) = throw TypeError) /\
  (forall c s, load_nodes (JString (String c s)) = throw TypeError) /\
  load_nodes JNull = throw TypeError /\
  (forall b, load_nodes (JBool b) = throw TypeError) /\
  (forall z, load_nodes (JInt z) = throw TypeError) /\
  (forall f, load_nodes (JFloat f) = throw TypeError).
Proof. repeat split. Qed.

Lemma node_of_saved_entry n : node_of_entry (entry_of_node n) = done (rounded n).
Proof. reflexivity. Qed.

Lemma traverse_saved_entries nodes :
  traverse node_of_entry (map entry_of_node nodes) = done (map rounded nodes).
Proof.
  induction nodes as [|n nodes IH]; [reflexivity|].
  cbn [map traverse]. rewrite node_of_saved_entry. cbn [and_then].
  rewrite IH. reflexivity.
Qed.

(** X16. What [save_scaled_json] writes can be loaded again: the value given
    to [json.dumps], read as the data of [load_nodes], gives the nodes with
    their identifiers and edges as they were and their coordinates rounded
    to two decimals, sorted by identifier. *)
Theorem saved_nodes_load_back (nodes : list Node) :
  load_nodes (serializable nodes) = done (sorted_by_id (map rounded nodes)) /\
  map node_id (map rounded nodes) = map node_id nodes /\
  map edges (map rounded nodes) = map edges nodes.
Proof.
  split; [|split; rewrite map_map; reflexivity].
  unfold NodeFiles.load_nodes, serializable. cbn [iterate and_then done].
  rewrite traverse_saved_entries. reflexivity.
Qed.

(** X17. The overlay script can be run on its own output: for nodes that
    [load_nodes] returned, remapped by [transform_nodes] with any transform,
    the saved value loads back as the remapped nodes with rounded
    coordinates, in the same order. *)
Theorem remapped_nodes_load_back (data : json) (nodes : list Node)
    (scale_x scale_y offset_x offset_y : float) :
  load_nodes data = done nodes ->
  let remapped := transform_nodes nodes scale_x scale_y offset_x offset_y in
  load_nodes (serializable remapped) = done (map rounded remapped) /\
  map node_id (map rounded remapped) = map node_id nodes.
Proof.
  intros H. cbv zeta.
  destruct (load_nodes_inv data nodes H) as (entries & raw & _ & _ & ->).
  set (remapped := transform_nodes (sorted_by_id raw) scale_x scale_y offset_x offset_y).
  assert (Hid : map node_id (map rounded remapped) = map node_id (sorted_by_id raw)).
  { unfold remapped, transform_nodes. rewrite !map_map. reflexivity. }
  split; [|exact Hid].
  unfold NodeFiles.load_nodes, serializable. cbn [iterate and_then done].
  rewrite traverse_saved_entries. cbv beta iota delta [and_then done]. f_equal.
  apply sorted_by_id_fixed.
  unfold remapped, transform_nodes. rewrite map_map.
  apply sorted_map_ids; [reflexivity | apply sorted_by_id_sorted].
Qed.

End Conversions.


Lemma load_nodes_first_error_witness :
  NodeFiles.load_nodes no_parser no_parser
    (JArray ([entry_of_node (mkNode 1 0 0 [])] ++
             JObject [("id", JInt 2)] :: [JNull])) =
  throw (KeyError "position").
Proof.
  apply (load_nodes_first_error no_parser no_parser
           [entry_of_node (mkNode 1 0 0 [])] (JObject [("id", JInt 2)]) [JNull]
           (KeyError "position")).
  - repeat constructor. eexists. reflexivity.
  - reflexivity.
Defined.

Lemma remapped_nodes_load_back_witness :
  let remapped := transform_nodes [mkNode 1 0 0 []; mkNode 2 1 1 []] 2 2 10 10 in
  NodeFiles.load_nodes no_parser no_parser (serializable remapped) =
    done (map rounded remapped) /\
  map node_id (map rounded remapped) = map node_id [mkNode 1 0 0 []; mkNode 2 1 1 []].
Proof.
  apply (remapped_nodes_load_back no_parser no_parser
           (serializable [mkNode 2 1 1 []; mkNode 1 0 0 []])
           [mkNode 1 0 0 []; mkNode 2 1 1 []] 2 2 10 10).
  reflexivity.
Defined.

(** The value of [edges] is stored as it was read: a null, a number or an
    object loads as it is, and is written back as it is. *)
Lemma load_nodes_keeps_edges :
  let entry := fun (i : Z) (e : json) =>
    JObject [("id", JInt i);
             ("position", JObject [("x", JFloat 1.5); ("y", JInt 2)]);
             ("edges", e)] in
  NodeFiles.load_nodes no_parser no_parser
    (JArray [entry 3 JNull; entry 1 (JInt 7); entry 2 (JObject [("to", JInt 1)])]) =
    done [mkNode 1 1.5 2 (JInt 7); mkNode 2 1.5 2 (JObject [("to", JInt 1)]);
          mkNode 3 1.5 2 JNull] /\
  serializable [mkNode 3 1.5 2 JNull] =
    JArray [JObject [("id", JInt 3);
                     ("position", JObject [("x", JFloat 1.5); ("y", JFloat 2)]);
                     ("edges", JNull)]].
Proof. vm_compute. repeat split. Qed.

(** [round(v, 2)] on some values: 2.675 is below the decimal 2.675 and goes
    down, 0.125 is a tie and goes to the even digit, a negative value that
    rounds to zero keeps its sign, a large value is unchanged. *)
Lemma round_2_values :
  round_2 2.675 = 2.67%float /\ round_2 0.125 = 0.12%float /\
  round_2 0.375 = 0.38%float /\ round_2 (-0.001) = (-0)%float /\
  round_2 123.456 = 123.46%float /\ round_2 1e300 = 1e300%float /\
  round_2 infinity = infinity /\ round_2 5e-324 = 0%float.
Proof. vm_compute. repeat split. Qed.

End NodeFilesFacts.

(** ** combine_board_images.py: the unsharp mask and the pipeline *)

Module SharpenFacts.

Import Py Fusion Demo Sharpen BlendSpec BlendFacts MoreSpec FuseDemo.

Lemma np_clip_uint8_range v : np_clip v 0 255 = v.
Proof. destruct v; reflexivity. Qed.

Lemma map2d_id {A : Type} (f : A -> A) (a : list (list A)) :
  (forall v, f v = v) -> map2d f a = a.
Proof.
  intros Hf. unfold map2d.
  rewrite (map_ext _ (fun row => row)); [apply map_id|].
  intros row. rewrite (map_ext _ (fun v => v)); [apply map_id | exact Hf].
Qed.

Lemma unsharp_mask_eq (cv8 : OpenCV_8U) (img : image) (radius : Z) (amount : float) :
  unsharp_mask cv8 img radius amount =
  addWeighted cv8 img (1 + amount) (GaussianBlur_8U cv8 img radius) (- amount) 0.
Proof.
  unfold unsharp_mask. apply map2d_id.
  intros [[b g] c]. unfold map_pixel, astype_uint8.
  rewrite !np_clip_uint8_range. reflexivity.
Qed.

(** X18. The clipping of [unsharp_mask] never changes a value: the result of
    [cv2.addWeighted] on 8-bit images is an 8-bit image already, so
    [unsharp_mask] returns it as it is, the image weighted by [1 + amount]
    plus its blur weighted by [- amount]; with the defaults the weights are
    2.2 and -1.2 and the blur has sigma 3. *)
Theorem unsharp_mask_is_addWeighted
    (cv8 : OpenCV_8U) (img : image) (radius : Z) (amount : float) :
  unsharp_mask cv8 img radius amount =
    addWeighted cv8 img (1 + amount) (GaussianBlur_8U cv8 img radius) (- amount) 0 /\
  unsharp_mask cv8 img 3 1.2 =
    addWeighted cv8 img 2.2 (GaussianBlur_8U cv8 img 3) (-1.2) 0.
Proof.
  split; [apply unsharp_mask_eq|]. rewrite unsharp_mask_eq. reflexivity.
Qed.

Lemma Forall2_of_lengths {A B : Type} (P : A -> Prop) (Q : B -> Prop)
    (R : A -> B -> Prop) a b :
  length a = length b -> Forall P a -> Forall Q b ->
  (forall x y, P x -> Q y -> R x y) -> Forall2 R a b.
Proof.
  intros Hlen Ha Hb HR. revert b Hlen Hb.
  induction Ha as [|x a Hx Ha IH]; intros [|y b] Hlen Hb; try discriminate;
    constructor.
  - inversion Hb; subst. now apply HR.
  - inversion Hb; subst. apply IH; [now injection Hlen | assumption].
Qed.

Lemma shape1_nonneg {A : Type} (img : list (list A)) : (0 <= shape1 img)%Z.
Proof. destruct img; cbn; lia. Qed.

Lemma warped_same_shape cv (primary secondary : image) H :
  warp_contract cv -> rectangular primary ->
  same_shape primary
    (warpPerspective cv secondary H (shape1 primary, shape0 primary)).
Proof.
  intros Hw Hr.
  destruct (Hw secondary H (shape1 primary) (shape0 primary)
              (shape1_nonneg primary) ltac:(unfold shape0; lia)) as [Hlen Hrows].
  unfold same_shape.
  eapply Forall2_of_lengths; [ | exact Hr | exact Hrows | ].
  - rewrite Hlen. unfold shape0. now rewrite Nat2Z.id.
  - cbn beta. intros ra rb Ha Hb. rewrite Hb, <- Ha. now rewrite Nat2Z.id.
Qed.

Section Pipeline.

Variable cv : OpenCV.
Variable cv8 : OpenCV_8U.
Hypothesis contract : OpenCV_contract cv.
Hypothesis warp : warp_contract cv.
Hypothesis filters : filters_keep_shape cv8.

(** X19. After the alignment the blending cannot fail: the warped image
    has the shape of the primary image, so the errors of the pipeline of
    [main] are exactly those of [align_secondary], and when the alignment
    returns the pipeline returns the blended image sharpened with the
    defaults, which has the shape of the primary image. *)
Theorem fuse_fails_only_in_alignment (primary secondary : image) :
  rectangular primary ->
  (forall e, fuse cv cv8 primary secondary = raise e <->
             align_secondary cv primary secondary = raise e) /\
  (forall warped H,
     align_secondary cv primary secondary = ret (warped, H) ->
     same_shape warped primary /\
     exists blended,
       blend_images cv primary warped = ret blended /\
       same_shape blended primary /\
       fuse cv cv8 primary secondary =
         ret (unsharp_mask cv8 blended 3 1.2, warped, H) /\
       same_shape (unsharp_mask cv8 blended 3 1.2) primary).
Proof.
  intros Hrect.
  assert (Hok : forall warped H,
            align_secondary cv primary secondary = ret (warped, H) ->
            same_shape primary warped).
  { intros warped H Ha.
    rewrite (AlignMoreFacts.align_secondary_warped _ _ _ _ _ Ha).
    now apply warped_same_shape. }
  assert (Hblend : forall warped,
            same_shape primary warped ->
            exists blended, blend_images cv primary warped = ret blended /\
                            same_shape blended primary).
  { intros warped Hs. eexists. split; [apply (blend_images_eq cv contract _ _ Hs)|].
    destruct (weight_maps_shape
                (laplacian_sharpness cv primary 1.5) (laplacian_sharpness cv warped 1.5))
      as [W1 W2].
    { eapply same_shape_trans; [apply (sharpness_shape cv contract)|].
      eapply same_shape_trans; [exact Hs|].
      apply same_shape_sym, (sharpness_shape cv contract). }
    destruct (weight_maps _ _) as [wp ws]. cbn [fst snd] in W1, W2.
    apply BlendClaims.blended_shape; [exact Hs | |];
      (eapply same_shape_trans; [eassumption | apply (sharpness_shape cv contract)]). }
  split.
  - intros e. unfold fuse.
    destruct (align_secondary cv primary secondary) as [e'|[warped H]] eqn:Ha;
      cbn [bind]; [split; intros E; injection E as <-; reflexivity|].
    destruct (Hblend warped (Hok warped H eq_refl)) as (blended & Hb & _).
    rewrite Hb. cbn [bind ret]. split; discriminate.
  - intros warped H Ha.
    pose proof (Hok warped H Ha) as Hs.
    destruct (Hblend warped Hs) as (blended & Hb & Hbs).
    split; [now apply same_shape_sym|].
    exists blended. split; [exact Hb|]. split; [exact Hbs|].
    split.
    + unfold fuse. rewrite Ha. cbv beta iota delta [bind ret]. rewrite Hb. reflexivity.
    + rewrite unsharp_mask_eq.
      eapply same_shape_trans; [apply filters|exact Hbs].
      apply same_shape_sym, filters.
Qed.

End Pipeline.

Lemma canvas_cv_contract : OpenCV_contract canvas_cv.
Proof.
  destruct BlendClaims.demo_cv_contract as [H1 H2 H3 H4].
  constructor; assumption.
Qed.

Lemma canvas_cv_warp : warp_contract canvas_cv.
Proof.
  intros src M width height Hw Hh. cbn. unfold black_canvas. cbn [fst snd].
  split; [apply repeat_length|].
  apply Forall_forall. intros row Hrow.
  apply repeat_spec in Hrow. subst. apply repeat_length.
Qed.

Lemma demo_cv8_filters : filters_keep_shape demo_cv8.
Proof.
  split; cbn; intros; apply same_shape_refl.
Qed.

Lemma fuse_fails_only_in_alignment_witness :
  let primary := [[(x03, x03, x03); (x07, x07, x07)]] in
  let secondary := [[(x00, x00, x00)]] in
  (forall e, fuse canvas_cv demo_cv8 primary secondary = raise e <->
             align_secondary canvas_cv primary secondary = raise e) /\
  (forall warped H,
     align_secondary canvas_cv primary secondary = ret (warped, H) ->
     same_shape warped primary /\
     exists blended,
       blend_images canvas_cv primary warped = ret blended /\
       same_shape blended primary /\
       fuse canvas_cv demo_cv8 primary secondary =
         ret (unsharp_mask demo_cv8 blended 3 1.2, warped, H) /\
       same_shape (unsharp_mask demo_cv8 blended 3 1.2) primary).
Proof.
  intros primary secondary.
  apply (fuse_fails_only_in_alignment canvas_cv demo_cv8
           canvas_cv_contract canvas_cv_warp demo_cv8_filters primary secondary).
  repeat constructor.
Defined.

End SharpenFacts.

(** ** combine_board_images.py: the blended pixel and the grey levels *)

Module PixelFacts.

Import Py Fusion Demo F32Spec F32Round F32Weights BlendSpec BlendFacts PixelSpec.
Local Open Scope Z_scope.

Lemma repr_small_mul c k :
  0 <= c < 2 ^ 24 -> 0 <= k -> c * 2 ^ k < 2 ^ 277 -> repr (c * 2 ^ k).
Proof.
  intros [Hc0 Hc] Hk Hlt.
  destruct (Z.eq_dec c 0) as [->|Hne].
  { rewrite Z.mul_0_l. split; [cbn; lia | reflexivity]. }
  assert (Hpos : 0 < c) by lia.
  pose proof (pow2_gt0 Hk) as P.
  split; [split; [nia | exact Hlt]|].
  apply pow2_divides with (c := c) (k := k); [|reflexivity].
  unfold rnd_shift. rewrite (digits_mul_pow2 Hpos Hk).
  assert (digits c <= 24) by (apply digits_le; lia).
  lia.
Qed.

Lemma scaled_weight_error c W :
  0 <= c <= 255 -> 0 <= W <= U ->
  let T := rnd (c * W) 1 in
  nonneg (Z2B T) = true /\ B2Z (Z2B T) = T /\
  c * W - 2 ^ 132 <= T <= c * W + 2 ^ 132.
Proof.
  intros Hc HW T.
  assert (EU : U = 2 ^ 149) by reflexivity.
  assert (E157 : 2 ^ 157 = 256 * 2 ^ 149) by reflexivity.
  assert (HX : 0 <= c * W < 2 ^ 157) by nia.
  pose proof (@rnd_error_int (c * W) 157 HX ltac:(lia)) as Herr.
  change (2 ^ (157 - 25)) with (2 ^ 132) in Herr. fold T in Herr.
  assert (R157 : repr (2 ^ 157)) by (apply repr_pow2; lia).
  assert (Tle : T <= 2 ^ 157) by (apply rnd_le_repr; [lia | lia | exact R157 | lia]).
  assert (L : 2 ^ 157 < 2 ^ 277) by (apply Z.pow_lt_mono_r; lia).
  destruct (@nonneg_Z2B_rnd (c * W) 1 (2 ^ 157)) as [Tn Tv]; try lia.
  fold T in Tn, Tv.
  split; [exact Tn|]. split; [exact Tv|]. lia.
Qed.

(** The blended value of one channel, before the conversion to 8 bits. *)
Theorem blend_value_between p q w :
  nonneg w = true -> B2Z w <= U ->
  let v := blend_value p q w (F32.sub one w) in
  nonneg v = true /\
  Z.min (uint8_value p) (uint8_value q) - 1 <= F32.trunc v <=
  Z.max (uint8_value p) (uint8_value q).
Proof.
  intros Hw Hle v. pose proof (B2Z_nonneg w) as H0.
  destruct (complement_weights _ Hw Hle) as (An & Av & Ale & _).
  pose proof (B2Z_nonneg (F32.sub one w)) as A0.
  set (W := B2Z w) in *. set (A := B2Z (F32.sub one w)) in *.
  assert (EU : U = 2 ^ 149) by reflexivity.
  assert (P124 : 0 < 2 ^ 124) by (apply pow2_gt0; lia).
  assert (HWA : U - 2 ^ 124 <= W + A <= U + 2 ^ 124).
  { destruct (Z.eq_dec W 0) as [E0|Hne].
    - rewrite E0, Z.sub_0_r in Av.
      rewrite <- (Z.mul_1_r U) in Av at 1. rewrite (rnd_id repr_U) in Av by lia. lia.
    - assert (HX : 0 <= U - W < 2 ^ 149) by lia.
      pose proof (@rnd_error_int (U - W) 149 HX ltac:(lia)) as Herr.
      change (2 ^ (149 - 25)) with (2 ^ 124) in Herr. rewrite <- Av in Herr. lia. }
  pose proof (uint8_value_range p) as Rp. pose proof (uint8_value_range q) as Rq.
  destruct (@scaled_weight_error (uint8_value p) W Rp ltac:(lia)) as (N1 & V1 & B1).
  destruct (@scaled_weight_error (uint8_value q) A Rq ltac:(lia)) as (N2 & V2 & B2).
  unfold v, blend_value.
  rewrite (mul_uint8_rnd p _ Hw), (mul_uint8_rnd q _ An). fold W A.
  set (T1 := rnd (uint8_value p * W) 1) in *.
  set (T2 := rnd (uint8_value q * A) 1) in *.
  rewrite (add_rnd _ _ N1 N2), V1, V2.
  set (P := uint8_value p) in *. set (Q := uint8_value q) in *.
  set (hi := Z.max P Q). set (lo := Z.min P Q).
  assert (Hhi : P <= hi /\ Q <= hi /\ 0 <= hi <= 255) by (unfold hi; lia).
  assert (Hlo : lo <= P /\ lo <= Q /\ 0 <= lo <= 255) by (unfold lo; lia).
  assert (E1 : 2 ^ 148 = 16777216 * 2 ^ 124) by reflexivity.
  assert (E2 : 2 ^ 132 = 256 * 2 ^ 124) by reflexivity.
  assert (E3 : U = 33554432 * 2 ^ 124) by reflexivity.
  assert (E4 : 2 * 2 ^ 148 = U) by reflexivity.
  assert (T0 : 0 <= T1 + T2).
  { assert (0 <= T1) by (apply rnd_nonneg; nia).
    assert (0 <= T2) by (apply rnd_nonneg; nia). lia. }
  assert (Sup : T1 + T2 <= (2 * hi + 1) * 2 ^ 148).
  { assert (P * W <= hi * W) by nia.
    assert (Q * A <= hi * A) by nia.
    assert (hi * (W + A) <= hi * (U + 2 ^ 124)) by nia.
    nia. }
  assert (Rup : repr ((2 * hi + 1) * 2 ^ 148)).
  { apply repr_small_mul; [lia | lia |].
    assert (2 ^ 157 < 2 ^ 277) by (apply Z.pow_lt_mono_r; lia).
    assert (E157 : 2 ^ 157 = 512 * 2 ^ 148) by reflexivity. nia. }
  assert (Vle : rnd (T1 + T2) 1 <= (2 * hi + 1) * 2 ^ 148)
    by (apply rnd_le_repr; [lia | lia | exact Rup | lia]).
  assert (L : (2 * hi + 1) * 2 ^ 148 < 2 ^ 277).
  { assert (2 ^ 157 < 2 ^ 277) by (apply Z.pow_lt_mono_r; lia).
    assert (E157 : 2 ^ 157 = 512 * 2 ^ 148) by reflexivity. nia. }
  destruct (@nonneg_Z2B_rnd (T1 + T2) 1 ((2 * hi + 1) * 2 ^ 148)) as [Vn Vv]; try lia.
  split; [exact Vn|].
  rewrite (trunc_nonneg _ Vn), Vv.
  assert (PU : 0 < U) by lia.
  split.
  - destruct (Z.eq_dec lo 0) as [L0|Lne].
    + assert (0 <= rnd (T1 + T2) 1 / U)
        by (apply Z.div_pos; [apply rnd_nonneg; lia | lia]).
      lia.
    + apply Z.div_le_lower_bound; [exact PU|].
      rewrite Z.mul_comm.
      apply rnd_ge_repr; [lia | |].
      * rewrite EU. apply repr_small_mul; [lia | lia |].
        assert (2 ^ 157 < 2 ^ 277) by (apply Z.pow_lt_mono_r; lia).
        assert (E157 : 2 ^ 157 = 256 * 2 ^ 149) by reflexivity. nia.
      * assert (lo * W <= P * W) by nia.
        assert (lo * A <= Q * A) by nia.
        assert (lo * (U - 2 ^ 124) <= lo * (W + A)) by nia.
        nia.
  - assert (rnd (T1 + T2) 1 / U < hi + 1); [|lia].
    apply Z.div_lt_upper_bound; [exact PU|]. nia.
Qed.

Lemma uint8_of_value g : F32.uint8_of_Z (uint8_value g) = g.
Proof. destruct g; reflexivity. Qed.

Lemma In_all_uint8 g : In g all_uint8.
Proof.
  unfold all_uint8. apply in_map_iff.
  exists (Z.to_nat (uint8_value g)).
  pose proof (uint8_value_range g) as R.
  split.
  - rewrite Z2Nat.id by lia. apply uint8_of_value.
  - apply in_seq. lia.
Qed.

Lemma In_intensity_table g : In (uint8_value g, intensity g) intensity_table.
Proof.
  unfold intensity_table.
  apply (in_map (fun g => (uint8_value g, intensity g))), In_all_uint8.
Qed.

Lemma intensity_ordered_all :
  forallb (fun a => forallb (intensity_ordered a) intensity_table) intensity_table = true.
Proof. vm_compute. reflexivity. Qed.

Lemma intensity_unit_all :
  forallb (fun a => unit_interval (snd a)) intensity_table = true.
Proof. vm_compute. reflexivity. Qed.

(** X20. Line 121 maps the grey levels to float32 intensities of the
    interval [0, 1]: 0 goes to 0.0 and 255 to 1.0 exactly, and a larger grey
    level gives a strictly larger intensity, so no two levels are merged
    before the Laplacian. *)
Theorem intensity_in_unit_interval (cv : OpenCV) (img : image) (sigma : float) :
  laplacian_sharpness cv img sigma =
    map2d (fun v => F32.add v (F32.of_float 1e-6))
      (normalize_MINMAX cv
         (GaussianBlur cv
            (map2d (fun v => F32.mul v v)
               (Laplacian_32F cv (map2d intensity (cvtColor_BGR2GRAY cv img))))
            sigma) 0 1) /\
  intensity x00 = zero /\
  intensity xff = one /\
  (forall g, unit_interval (intensity g) = true) /\
  (forall g1 g2, uint8_value g1 < uint8_value g2 ->
     F32.ltb (intensity g1) (intensity g2) = true).
Proof.
  split; [reflexivity|]. split; [reflexivity|]. split; [reflexivity|].
  split.
  - intros g. pose proof intensity_unit_all as H.
    rewrite forallb_forall in H. apply (H _ (In_intensity_table g)).
  - intros g1 g2 Hlt. pose proof intensity_ordered_all as H.
    rewrite forallb_forall in H. specialize (H _ (In_intensity_table g1)).
    rewrite forallb_forall in H. specialize (H _ (In_intensity_table g2)).
    unfold intensity_ordered in H. cbn [fst snd] in H.
    apply Z.ltb_lt in Hlt. rewrite Hlt in H. exact H.
Qed.

Lemma half_blend_is_mean_all :
  forallb (fun p => forallb (half_blend_is_mean p) all_uint8) all_uint8 = true.
Proof. vm_compute. reflexivity. Qed.

Lemma blend_channel_half p q : blend_channel p q half half = mean_down p q.
Proof.
  pose proof half_blend_is_mean_all as H.
  rewrite forallb_forall in H. specialize (H p (In_all_uint8 p)).
  rewrite forallb_forall in H. specialize (H q (In_all_uint8 q)).
  unfold half_blend_is_mean in H. now apply Byte.byte_dec_bl in H.
Qed.

Lemma finite_nonzero_opp r : finite_nonzero (SFopp r) = finite_nonzero r.
Proof. destruct r as [| | |[] m e]; reflexivity. Qed.

(** Two equal sharpness values whose sum is finite give both weights one
    half. *)
Lemma equal_sharpness_halves s :
  finite_nonzero s = true -> finite_nonzero (F32.add s s) = true ->
  weight_primary s s = half /\ weight_secondary s s = half.
Proof.
  intros Hs Hsum.
  assert (Hpos : forall m e,
            pos_finite (S754_finite false m e) = true ->
            finite_nonzero (F32.add (S754_finite false m e) (S754_finite false m e)) =
              true ->
            weight_primary (S754_finite false m e) (S754_finite false m e) = half).
  { intros m e Pp Hfin.
    destruct (equal_positive_sharpness _ Pp) as [[_ E] | [Hge _]]; [exact E|].
    destruct (pos_finite_inv _ Pp) as [Np _].
    rewrite (add_rnd _ _ Np Np) in Hfin.
    rewrite Z2B_overflow in Hfin by (apply rnd_overflow; lia).
    discriminate. }
  assert (H : weight_primary s s = half).
  { destruct s as [| | |[] m e]; try discriminate.
    - rewrite weight_primary_opp. apply Hpos; [exact Hs|].
      rewrite add_opp_same, finite_nonzero_opp in Hsum. exact Hsum.
    - apply Hpos; assumption. }
  unfold weight_secondary. rewrite H. split; reflexivity.
Qed.

Section Blender.

Variable cv : OpenCV.
Hypothesis contract : OpenCV_contract cv.

(** X21. At every pixel where both sharpness values are positive finite
    numbers, every channel of the blended pixel lies between the two input
    channels or one level below the smaller of them, never above the larger
    one. The level below is reached: where one image has the sharpness
    epsilon and the other 1 + epsilon, two equal channels of value 5 are
    blended to 4, so a pixel that is the same in both images can come out
    darker. *)
Theorem blended_channels_near_between (primary secondary : image) :
  same_shape primary secondary ->
  (exists out,
     blend_images cv primary secondary = ret out /\
     forall (i j : nat) (sp ss : f32) (pb pg pr qb qg qr : byte),
       at2 (laplacian_sharpness cv primary 1.5) i j = Some sp ->
       at2 (laplacian_sharpness cv secondary 1.5) i j = Some ss ->
       pos_finite sp = true -> pos_finite ss = true ->
       at2 primary i j = Some (pb, pg, pr) ->
       at2 secondary i j = Some (qb, qg, qr) ->
       exists ob og or,
         at2 out i j = Some (ob, og, or) /\
         near_between pb qb ob /\ near_between pg qg og /\ near_between pr qr or) /\
  (pos_finite eps = true /\ pos_finite one_eps = true /\
   blend_channel x05 x05 (weight_primary eps one_eps) (weight_secondary eps one_eps) =
     x04).
Proof.
  intros Hshape. split.
  - set (SP := laplacian_sharpness cv primary 1.5).
    set (SS := laplacian_sharpness cv secondary 1.5).
    pose proof (blend_images_eq cv contract _ _ Hshape) as EI. fold SP SS in EI.
    destruct (weight_maps SP SS) as [wpm wsm] eqn:E.
    exists (blended primary secondary (wpm, wsm)). split; [exact EI|].
    intros i j sp ss pb pg pr qb qg qr Hsp Hss Pp Ps Hpix Hqix.
    destruct (weight_maps_at2 SP SS i j sp ss Hsp Hss) as [A1 A2].
    rewrite E in A1, A2. cbn [fst snd] in A1, A2.
    destruct (weight_primary_positive sp ss Pp Ps) as [Wn Wle].
    eexists _, _, _.
    split; [exact (BlendClaims.blended_at2 primary secondary wpm wsm i j
                     pb pg pr qb qg qr _ _ Hpix Hqix A1 A2)|].
    assert (Hch : forall p q,
              near_between p q
                (blend_channel p q (weight_primary sp ss) (weight_secondary sp ss))).
    { intros p q. unfold near_between, weight_secondary.
      destruct (blend_channel_trunc p q _ Wn Wle) as [_ ->].
      apply (blend_value_between p q _ Wn Wle). }
    repeat split; apply Hch.
  - split; [reflexivity|]. split; [reflexivity|]. vm_compute. reflexivity.
Qed.

(** X22. Where the two images have the same sharpness value, a finite
    number other than zero whose double is finite too, every channel of the
    blended pixel is the mean of the two input channels, rounded down. *)
Theorem equal_sharpness_gives_mean (primary secondary : image) :
  same_shape primary secondary ->
  exists out,
    blend_images cv primary secondary = ret out /\
    forall (i j : nat) (s : f32) (pb pg pr qb qg qr : byte),
      at2 (laplacian_sharpness cv primary 1.5) i j = Some s ->
      at2 (laplacian_sharpness cv secondary 1.5) i j = Some s ->
      finite_nonzero s = true -> finite_nonzero (F32.add s s) = true ->
      at2 primary i j = Some (pb, pg, pr) ->
      at2 secondary i j = Some (qb, qg, qr) ->
      at2 out i j = Some (mean_down pb qb, mean_down pg qg, mean_down pr qr).
Proof.
  intros Hshape.
  set (SP := laplacian_sharpness cv primary 1.5).
  set (SS := laplacian_sharpness cv secondary 1.5).
  pose proof (blend_images_eq cv contract _ _ Hshape) as EI. fold SP SS in EI.
  destruct (weight_maps SP SS) as [wpm wsm] eqn:E.
  exists (blended primary secondary (wpm, wsm)). split; [exact EI|].
  intros i j s pb pg pr qb qg qr Hsp Hss Fs Fsum Hpix Hqix.
  destruct (weight_maps_at2 SP SS i j s s Hsp Hss) as [A1 A2].
  rewrite E in A1, A2. cbn [fst snd] in A1, A2.
  destruct (equal_sharpness_halves s Fs Fsum) as [E1 E2].
  rewrite E1 in A1. rewrite E2 in A2.
  rewrite (BlendClaims.blended_at2 primary secondary wpm wsm i j
             pb pg pr qb qg qr half half Hpix Hqix A1 A2).
  rewrite !blend_channel_half. reflexivity.
Qed.

End Blender.

Lemma blended_channels_near_between_witness :
  let primary := [[(x0a, x0a, x0a); (x64, x64, x64); (xc8, xc8, xc8)];
                  [(x00, x10, x20); (x30, x40, x50); (xff, xff, xff)]] in
  let secondary := [[(xc8, xc8, xc8); (x64, x14, x64); (x0a, x0a, x0a)];
                    [(x05, x06, x07); (xf0, x40, x00); (x00, x00, x00)]] in
  (exists out,
     blend_images sample_cv primary secondary = ret out /\
     forall (i j : nat) (sp ss : f32) (pb pg pr qb qg qr : byte),
       at2 (laplacian_sharpness sample_cv primary 1.5) i j = Some sp ->
       at2 (laplacian_sharpness sample_cv secondary 1.5) i j = Some ss ->
       at2 primary i j = Some (pb, pg, pr) ->
       at2 secondary i j = Some (qb, qg, qr) ->
       exists ob og or,
         at2 out i j = Some (ob, og, or) /\
         near_between pb qb ob /\ near_between pg qg og /\ near_between pr qr or) /\
  (pos_finite eps = true /\ pos_finite one_eps = true /\
   blend_channel x05 x05 (weight_primary eps one_eps) (weight_secondary eps one_eps) =
     x04).
Proof.
  intros primary secondary.
  destruct (blended_channels_near_between sample_cv BlendClaims.sample_cv_contract
              primary secondary) as [(out & E & H) Hlow]; [repeat constructor|].
  split; [|exact Hlow].
  exists out. split; [exact E|].
  intros i j sp ss pb pg pr qb qg qr Hsp Hss Hp Hq.
  assert (Pp : pos_finite sp = true).
    { apply (at2_forallb pos_finite _ i j sp) in Hsp; [exact Hsp|].
      vm_compute. reflexivity. }
  assert (Ps : pos_finite ss = true).
    { apply (at2_forallb pos_finite _ i j ss) in Hss; [exact Hss|].
      vm_compute. reflexivity. }
  exact (H i j sp ss pb pg pr qb qg qr Hsp Hss Pp Ps Hp Hq).
Defined.

Lemma equal_sharpness_gives_mean_witness :
  let primary := [[(x03, x0a, x05); (xff, xc8, x00)]] in
  let secondary := [[(x00, x0a, x08); (x10, xc8, x07)]] in
  exists out,
    blend_images sample_cv primary secondary = ret out /\
    at2 out 0 0 = Some (x01, x0a, x06) /\
    at2 out 0 1 = Some (x87, xc8, x03).
Proof.
  intros primary secondary.
  destruct (equal_sharpness_gives_mean sample_cv BlendClaims.sample_cv_contract
              primary secondary) as (out & E & H); [repeat constructor|].
  exists out. split; [exact E|]. split.
  - apply (H 0%nat 0%nat eps x03 x0a x05 x00 x0a x08); reflexivity.
  - apply (H 0%nat 1%nat one_eps xff xc8 x00 x10 xc8 x07); reflexivity.
Defined.

(** The blend of [sample_cv] on two images with the same green channel, and
    so the same sharpness: every channel is the mean, rounded down. *)
Lemma sample_means :
  let primary := [[(x03, x0a, x05); (xff, xc8, x00)]] in
  let secondary := [[(x00, x0a, x08); (x10, xc8, x07)]] in
  laplacian_sharpness sample_cv primary 1.5 =
    laplacian_sharpness sample_cv secondary 1.5 /\
  forallb (forallb finite_nonzero) (laplacian_sharpness sample_cv primary 1.5) = true /\
  blend_images sample_cv primary secondary =
    ret [[(x01, x0a, x06); (x87, xc8, x03)]].
Proof. vm_compute. repeat split. Qed.

End PixelFacts.

Module OverlayFacts.

Import Py NodeOverlay Fusion Overlay OverlaySpec.
Local Open Scope Z_scope.

(** *** The arrays an action leaves alone *)

(** The action creates no array and changes none but [target]. *)
Definition draws_on {A : Type} (target : ref) (c : action A) : Prop :=
  forall h,
    next (snd (c h)) = next h /\
    forall r, r <> target -> cell (snd (c h)) r = cell h r.

Lemma draws_on_pure {A : Type} target (a : A) : draws_on target (pure a).
Proof. intros h. split; reflexivity. Qed.

Lemma draws_on_builtin {A : Type} target (r : result A) : draws_on target (builtin r).
Proof. intros h. split; reflexivity. Qed.

Lemma draws_on_native {A : Type} target (r : string + A) : draws_on target (native r).
Proof. intros h. split; reflexivity. Qed.

Lemma draws_on_in_place target f : draws_on target (in_place f target).
Proof.
  intros h. unfold in_place. destruct (f (cell h target)) as [e v]. cbn.
  split; [reflexivity|]. intros r Hr.
  apply Nat.eqb_neq in Hr. now rewrite Hr.
Qed.

Lemma draws_on_seq {A B : Type} target (c : action A) (k : A -> action B) :
  draws_on target c -> (forall a, draws_on target (k a)) ->
  draws_on target (seq c k).
Proof.
  intros Hc Hk h. unfold seq.
  destruct (Hc h) as [N1 C1].
  destruct (c h) as [[e|a] h1]; cbn [snd] in *; [split; assumption|].
  destruct (Hk a h1) as [N2 C2].
  split; [congruence|]. intros r Hr. rewrite C2, C1 by assumption. reflexivity.
Qed.

Lemma draws_on_for_each {A : Type} target (body : A -> action unit) l :
  (forall a, draws_on target (body a)) -> draws_on target (for_each body l).
Proof.
  intros Hb. induction l as [|a l IH]; cbn [for_each].
  - apply draws_on_pure.
  - apply draws_on_seq; [apply Hb | intros _; exact IH].
Qed.

Lemma draws_on_draw_node cv overlay font radius thickness font_scale node :
  draws_on overlay (draw_node cv overlay font radius thickness font_scale node).
Proof.
  unfold draw_node.
  apply draws_on_seq; [apply draws_on_builtin|]. intros cx.
  apply draws_on_seq; [apply draws_on_builtin|]. intros cy.
  apply draws_on_seq; [apply draws_on_in_place|]. intros _.
  apply draws_on_seq; [apply draws_on_native|]. intros [[text_w text_h] baseline].
  apply draws_on_seq; [apply draws_on_in_place|]. intros _.
  apply draws_on_in_place.
Qed.

(** *** The loop as a function of images *)

Lemma py_round_finite v : is_finite v = true -> py_round v = ret (nearest v).
Proof.
  unfold is_finite, nearest, py_round.
  destruct (Prim2SF v); intros H; try discriminate; reflexivity.
Qed.

Lemma py_round_not_finite v :
  is_finite v = false ->
  py_round v = raise (ValueError "cannot convert float NaN to integer") \/
  py_round v = raise (OverflowError "cannot convert float infinity to integer").
Proof.
  unfold is_finite, py_round.
  destruct (Prim2SF v); intros H; try discriminate; [right | left]; reflexivity.
Qed.

Lemma py_round_returns v n : py_round v = ret n -> is_finite v = true.
Proof.
  unfold is_finite, py_round.
  destruct (Prim2SF v); intros H; try discriminate; reflexivity.
Qed.

Lemma cell_write_same r v h : cell (write r v h) r = v.
Proof. cbn. now rewrite Nat.eqb_refl. Qed.

(** A node on the board is painted when the routines raise nothing. *)
Lemma draw_node_paints cv overlay radius thickness font_scale node h :
  quiet cv -> on_board node = true ->
  exists h',
    draw_node cv overlay FONT_HERSHEY_SIMPLEX radius thickness font_scale node h =
      (inr tt, h') /\
    cell h' overlay = paint cv radius thickness font_scale (cell h overlay) node.
Proof.
  intros (Qc & Qs & Qp) Hn. apply andb_true_iff in Hn. destruct Hn as [Hx Hy].
  unfold draw_node, paint, label_size.
  unfold seq at 1. unfold builtin at 1. rewrite (py_round_finite _ Hx). cbn [ret].
  unfold seq at 1. unfold builtin at 1. rewrite (py_round_finite _ Hy). cbn [ret].
  unfold seq at 1. unfold in_place at 1.
  pose proof (Qc (cell h overlay) (nearest (x node), nearest (y node)) radius
                (0, 215, 255) thickness) as E1.
  destruct (circle cv (cell h overlay) _ radius _ thickness) as [e1 img1] eqn:C1.
  cbn [fst] in E1. subst e1. cbn [snd].
  unfold seq at 1. unfold native at 1.
  destruct (Qs (str (node_id node)) FONT_HERSHEY_SIMPLEX font_scale thickness)
    as [[[text_w text_h] baseline] Hs].
  rewrite Hs. cbn [fst snd].
  unfold seq at 1. unfold in_place at 1. rewrite cell_write_same.
  match goal with
  | |- context [putText cv img1 ?l ?o ?f ?s ?c ?t ?a] =>
      pose proof (Qp img1 l o f s c t a) as E2;
      destruct (putText cv img1 l o f s c t a) as [e2 img2] eqn:P2
  end.
  cbn [fst] in E2. subst e2. cbn [snd].
  unfold in_place. rewrite cell_write_same.
  match goal with
  | |- context [putText cv img2 ?l ?o ?f ?s ?c ?t ?a] =>
      pose proof (Qp img2 l o f s c t a) as E3;
      destruct (putText cv img2 l o f s c t a) as [e3 img3] eqn:P3
  end.
  cbn [fst] in E3. subst e3. cbn [snd].
  eexists. split; [reflexivity|]. apply cell_write_same.
Qed.

(** A node off the board raises before anything is drawn for it. *)
Lemma draw_node_off_board cv overlay font radius thickness font_scale node h :
  on_board node = false ->
  exists e,
    draw_node cv overlay font radius thickness font_scale node h =
      (inl (Builtin e), h) /\
    (e = ValueError "cannot convert float NaN to integer" \/
     e = OverflowError "cannot convert float infinity to integer").
Proof.
  intros Hn. apply andb_false_iff in Hn.
  unfold draw_node. unfold seq at 1. unfold builtin at 1.
  destruct (is_finite (x node)) eqn:Hx.
  - destruct Hn as [Hn|Hy]; [discriminate|].
    rewrite (py_round_finite _ Hx). cbn [ret].
    unfold seq at 1. unfold builtin at 1.
    destruct (py_round_not_finite _ Hy) as [E|E]; rewrite E; cbn [raise];
      eexists; (split; [reflexivity|]); [left | right]; reflexivity.
  - destruct (py_round_not_finite _ Hx) as [E|E]; rewrite E; cbn [raise];
      eexists; (split; [reflexivity|]); [left | right]; reflexivity.
Qed.

(** A node that is drawn without an exception is on the board. *)
Lemma draw_node_returns cv overlay font radius thickness font_scale node h h' :
  draw_node cv overlay font radius thickness font_scale node h = (inr tt, h') ->
  on_board node = true.
Proof.
  destruct (on_board node) eqn:Hn; [reflexivity|].
  destruct (draw_node_off_board cv overlay font radius thickness font_scale node h Hn)
    as (e & E & _).
  rewrite E. discriminate.
Qed.

Lemma for_each_paints cv overlay radius thickness font_scale nodes h :
  quiet cv -> forallb on_board nodes = true ->
  exists h',
    for_each (draw_node cv overlay FONT_HERSHEY_SIMPLEX radius thickness font_scale)
      nodes h = (inr tt, h') /\
    cell h' overlay =
      fold_left (paint cv radius thickness font_scale) nodes (cell h overlay).
Proof.
  intros Q. revert h. induction nodes as [|node nodes IH]; intros h Hn; cbn [for_each].
  - exists h. split; reflexivity.
  - cbn [forallb] in Hn. apply andb_true_iff in Hn. destruct Hn as [H1 Hn].
    destruct (draw_node_paints cv overlay radius thickness font_scale node h Q H1)
      as (h1 & E1 & C1).
    destruct (IH h1 Hn) as (h2 & E2 & C2).
    exists h2. split.
    + unfold seq. rewrite E1. exact E2.
    + rewrite C2, C1. reflexivity.
Qed.

Lemma for_each_returns cv overlay font radius thickness font_scale nodes h h' :
  for_each (draw_node cv overlay font radius thickness font_scale) nodes h =
    (inr tt, h') ->
  forallb on_board nodes = true.
Proof.
  revert h. induction nodes as [|node nodes IH]; intros h; cbn [for_each forallb];
    [reflexivity|].
  unfold seq.
  destruct (draw_node cv overlay font radius thickness font_scale node h)
    as [[e|[]] h1] eqn:E1; [discriminate|].
  intros E2. rewrite (draw_node_returns _ _ _ _ _ _ _ _ _ E1). exact (IH h1 E2).
Qed.

Lemma for_each_first_off_board cv overlay radius thickness font_scale
    good bad rest h :
  quiet cv -> forallb on_board good = true -> on_board bad = false ->
  exists e h',
    for_each (draw_node cv overlay FONT_HERSHEY_SIMPLEX radius thickness font_scale)
      (good ++ bad :: rest) h = (inl (Builtin e), h') /\
    (e = ValueError "cannot convert float NaN to integer" \/
     e = OverflowError "cannot convert float infinity to integer") /\
    cell h' overlay =
      fold_left (paint cv radius thickness font_scale) good (cell h overlay).
Proof.
  intros Q Hg Hb. revert h Hg. induction good as [|node good IH]; intros h Hg.
  - cbn [app for_each]. unfold seq.
    destruct (draw_node_off_board cv overlay FONT_HERSHEY_SIMPLEX radius thickness
                font_scale bad h Hb) as (e & E & He).
    rewrite E. exists e, h. repeat split; assumption.
  - cbn [forallb] in Hg. apply andb_true_iff in Hg. destruct Hg as [H1 Hg].
    destruct (draw_node_paints cv overlay radius thickness font_scale node h Q H1)
      as (h1 & E1 & C1).
    destruct (IH h1 Hg) as (e & h2 & E2 & He & C2).
    exists e, h2. cbn [app for_each fold_left]. unfold seq. rewrite E1.
    repeat split; [exact E2 | exact He | now rewrite C2, C1].
Qed.

(** *** The overlay *)

(** X24. [draw_overlay] draws on a copy: whether it returns or raises, it
    creates exactly one array and leaves every array that existed before as
    it was, the board included; the array it returns is the new one. *)
Theorem draw_overlay_keeps_the_board
    (cv : OpenCV_draw) (board : ref) (nodes : list Node) (radius thickness : Z)
    (font_scale : float) (h : heap) (r : ref) :
  (r < next h)%nat ->
  let out := draw_overlay cv board nodes radius thickness font_scale h in
  cell (snd out) r = cell h r /\
  next (snd out) = S (next h) /\
  forall overlay, fst out = inr overlay -> overlay = next h /\ overlay <> r.
Proof.
  intros Hr. cbv zeta. unfold draw_overlay, ndarray_copy, alloc.
  set (h1 := mkHeap _ _).
  pose proof (draws_on_for_each (next h)
                (draw_node cv (next h) FONT_HERSHEY_SIMPLEX radius thickness font_scale)
                nodes
                (draws_on_draw_node cv (next h) FONT_HERSHEY_SIMPLEX radius thickness
                   font_scale) h1) as [N C].
  unfold seq.
  destruct (for_each _ nodes h1) as [[e|[]] h2]; cbn [fst snd pure] in *.
  - split; [|split; [exact N | discriminate]].
    rewrite C by lia. subst h1. cbn.
    destruct (Nat.eqb_spec r (next h)); [lia | reflexivity].
  - split; [|split; [exact N|]].
    + rewrite C by lia. subst h1. cbn.
      destruct (Nat.eqb_spec r (next h)); [lia | reflexivity].
    + intros overlay E. injection E as <-. split; [reflexivity | lia].
Qed.

(** X25. [draw_overlay] returns only for nodes whose coordinates are all
    finite, since [round] has no integer for a NaN or an infinity; when the
    drawing routines raise nothing this is the only way to fail: the overlay
    is returned exactly when every coordinate is finite, and otherwise the
    first node with a NaN or an infinite coordinate raises ValueError or
    OverflowError after the nodes before it have been painted. *)
Theorem draw_overlay_needs_finite_coordinates
    (cv : OpenCV_draw) (board : ref) (nodes : list Node) (radius thickness : Z)
    (font_scale : float) (h : heap) :
  let out := draw_overlay cv board nodes radius thickness font_scale h in
  ((exists overlay, fst out = inr overlay) -> forallb on_board nodes = true) /\
  (quiet cv ->
   (forallb on_board nodes = true -> exists overlay, fst out = inr overlay) /\
   (forall good bad rest,
      nodes = good ++ bad :: rest ->
      forallb on_board good = true -> on_board bad = false ->
      (fst out =
         inl (Builtin (ValueError "cannot convert float NaN to integer")) \/
       fst out =
         inl (Builtin (OverflowError "cannot convert float infinity to integer"))) /\
      cell (snd out) (next h) =
        fold_left (paint cv radius thickness font_scale) good (cell h board))).
Proof.
  cbv zeta. unfold draw_overlay, ndarray_copy, alloc.
  set (h1 := mkHeap _ _).
  assert (Hc : cell h1 (next h) = cell h board).
  { subst h1. cbn. now rewrite Nat.eqb_refl. }
  split.
  - intros [overlay E]. unfold seq in E.
    destruct (for_each _ nodes h1) as [[e|[]] h2] eqn:F; [discriminate|].
    exact (for_each_returns _ _ _ _ _ _ _ _ _ F).
  - intros Q. split.
    + intros Hn.
      destruct (for_each_paints cv (next h) radius thickness font_scale nodes h1 Q Hn)
        as (h2 & F & _).
      unfold seq. rewrite F. exists (next h). reflexivity.
    + intros good bad rest -> Hg Hb.
      destruct (for_each_first_off_board cv (next h) radius thickness font_scale
                  good bad rest h1 Q Hg Hb) as (e & h2 & F & He & C).
      unfold seq. rewrite F. cbn [fst snd]. rewrite C, Hc.
      split; [|reflexivity].
      destruct He as [-> | ->]; [left | right]; reflexivity.
Qed.

(** X26. When the drawing routines raise nothing and every coordinate is
    finite, the array [draw_overlay] returns holds the board with the nodes
    painted one after the other in the order of the list, each at its
    coordinates rounded to the nearest integers, ties to even: its circle,
    then the outline of its label with thickness + 2, then the label, whose
    origin is the centre moved left by half of the width and down by half
    of the height of the text, both halves rounded down. *)
Theorem draw_overlay_paints_in_order
    (cv : OpenCV_draw) (board : ref) (nodes : list Node) (radius thickness : Z)
    (font_scale : float) (h : heap) :
  quiet cv -> forallb on_board nodes = true ->
  let out := draw_overlay cv board nodes radius thickness font_scale h in
  fst out = inr (next h) /\
  cell (snd out) (next h) =
    fold_left (paint cv radius thickness font_scale) nodes (cell h board).
Proof.
  intros Q Hn. cbv zeta. unfold draw_overlay, ndarray_copy, alloc.
  set (h1 := mkHeap _ _).
  destruct (for_each_paints cv (next h) radius thickness font_scale nodes h1 Q Hn)
    as (h2 & F & C).
  unfold seq. rewrite F. cbn [pure fst snd].
  split; [reflexivity|].
  rewrite C. subst h1. cbn. now rewrite Nat.eqb_refl.
Qed.

Lemma marking_cv_quiet : quiet marking_cv.
Proof.
  repeat split. intros. eexists. reflexivity.
Qed.

Lemma draw_overlay_keeps_the_board_witness :
  let out :=
    draw_overlay marking_cv 0%nat [mkNode 1 2.5 3.5 []; mkNode 2 nan 0 []] 5 2 0.5
      one_board in
  cell (snd out) 0%nat = [[(x07, x07, x07); (x09, x09, x09)]] /\
  next (snd out) = 2%nat /\
  forall overlay, fst out = inr overlay -> overlay = 1%nat /\ overlay <> 0%nat.
Proof.
  apply (draw_overlay_keeps_the_board marking_cv 0%nat
           [mkNode 1 2.5 3.5 []; mkNode 2 nan 0 []] 5 2 0.5 one_board 0%nat).
  cbn. lia.
Defined.

Lemma draw_overlay_needs_finite_coordinates_witness :
  let nodes := [mkNode 1 2.5 3.5 []; mkNode 2 nan 0 []; mkNode 3 1 1 []] in
  let out := draw_overlay marking_cv 0%nat nodes 5 2 0.5 one_board in
  (fst out = inl (Builtin (ValueError "cannot convert float NaN to integer")) \/
   fst out =
     inl (Builtin (OverflowError "cannot convert float infinity to integer"))) /\
  cell (snd out) 1%nat =
    fold_left (paint marking_cv 5 2 0.5) [mkNode 1 2.5 3.5 []]
      [[(x07, x07, x07); (x09, x09, x09)]].
Proof.
  intros nodes.
  apply (proj2 (proj2 (draw_overlay_needs_finite_coordinates marking_cv 0%nat nodes
                         5 2 0.5 one_board) marking_cv_quiet)
           [mkNode 1 2.5 3.5 []] (mkNode 2 nan 0 []) [mkNode 3 1 1 []]);
    reflexivity.
Defined.

Lemma draw_overlay_paints_in_order_witness :
  let nodes := [mkNode 1 2.5 3.5 []; mkNode 2 (-0.5) 1e3 []] in
  let out := draw_overlay marking_cv 0%nat nodes 5 2 0.5 one_board in
  fst out = inr 1%nat /\
  cell (snd out) 1%nat =
    fold_left (paint marking_cv 5 2 0.5) nodes
      [[(x07, x07, x07); (x09, x09, x09)]].
Proof.
  intros nodes.
  apply (draw_overlay_paints_in_order marking_cv 0%nat nodes 5 2 0.5 one_board
           marking_cv_quiet).
  reflexivity.
Defined.

(** The values of [round] on a few floats, and a run of the overlay. *)
Lemma py_round_values :
  py_round 2.5 = ret 2 /\ py_round 3.5 = ret 4 /\ py_round (-0.5) = ret 0 /\
  py_round 0.5000000000000001 = ret 1 /\ py_round (-1.5) = ret (-2) /\
  py_round 1e3 = ret 1000 /\ py_round 4503599627370497 = ret 4503599627370497 /\
  py_round 1e22 = ret 10000000000000000000000 /\
  str 199 = "199"%string /\ str 0 = "0"%string /\
  fst (draw_overlay marking_cv 0%nat [mkNode 1 2.5 3.5 []] 5 2 0.5 one_board) =
    inr 1%nat /\
  cell (snd (draw_overlay marking_cv 0%nat [mkNode 1 2.5 3.5 []] 5 2 0.5 one_board))
    1%nat = [[(xff, xff, xff); (x09, x09, x09)]].
Proof. repeat split. Qed.

End OverlayFacts.
